(** * qbasic-vm: the stack virtual machine and the parser's error path

    A shallow embedding of [VirtualMachine.ts] (the dispatch loop, the
    instruction table, the system functions and subroutines) and of the
    token loop of [GlrParser.js], together with the properties the
    specification states about them.

    Conventions of the embedding.
    - The operand stack [vm.stack] is a list whose head is the top of the
      stack ([vm.stack[vm.stack.length - 1]] is the head).  The call stack
      keeps the order of the source: [callstack[0]] is the first element
      and frames are pushed at the end.
    - JavaScript objects that are compared or mutated through references
      live in a store: [heap] holds the ScalarVariable, ArrayVariable and
      record objects, [varmaps] holds the [variables] objects of the stack
      frames.  A reference is the index of the object in its store.
    - The primitives of the host language (arithmetic and comparison of
      values, string built-ins, the random generator, the clock) and the
      devices (console, audio) are not part of the repository; they are
      the fields of the class [JsHost].  Calls made to a device and events
      emitted by the machine are recorded, in order, in [events].
    - A step of the machine finishes normally ([Ret]), by a thrown
      exception ([Throw]) or is cut short ([Abort]): a loop ran out of
      fuel, or the step left the fragment of JavaScript covered here. *)

From Stdlib Require Import ZArith Ascii String.
From Stdlib Require QArith.
From stdpp Require Import base gmap strings list pretty.

Open Scope string_scope.

(** ** Loci, runtime errors *)

Record Locus := { line : nat; position : nat }.

Inductive RuntimeErrorCodes :=
| DIVISION_BY_ZERO
| STACK_OVERFLOW
| STACK_UNDERFLOW
| UKNOWN_SYSCALL
| IO_ERROR.

Definition code_number (c : RuntimeErrorCodes) : Z :=
  match c with
  | DIVISION_BY_ZERO => 101
  | STACK_OVERFLOW => 201
  | STACK_UNDERFLOW => 202
  | UKNOWN_SYSCALL => 301
  | IO_ERROR => 401
  end.

(** Errors of the host language that the instructions can run into. *)
Inductive JsErrorKind := TypeError | RangeError | ReferenceError.

(** The names every JavaScript object answers to, through
    [Object.prototype].  The tables of the machine ([shared], [types], the
    [variables] of a frame, [SystemFunctions], [SystemSubroutines]) are
    plain objects read with [table[name]]: for these names the answer is
    not undefined, whatever the table holds.  It is a function of the
    host, and [Object.prototype] itself for [__proto__]. *)
Definition object_prototype_keys : list string :=
  ["constructor"; "hasOwnProperty"; "isPrototypeOf"; "propertyIsEnumerable";
   "toLocaleString"; "toString"; "valueOf"; "__proto__"; "__defineGetter__";
   "__defineSetter__"; "__lookupGetter__"; "__lookupSetter__"]%string.

(** What a [throw] carries: a [RuntimeError] object (with its code, message
    and optional locus) or an error raised by the host language. *)
Inductive exn :=
| RuntimeError (code : RuntimeErrorCodes) (message : string) (locus : option Locus)
| JsError (kind : JsErrorKind).

Definition is_RuntimeError (e : exn) : bool :=
  match e with RuntimeError _ _ _ => true | JsError _ => false end.

(** ** Types (module [Types]) *)

Inductive ScalarKind := INTEGER | LONG | SINGLE | DOUBLE | STRING.

Inductive SomeType :=
| ScalarType (k : ScalarKind)
| UserType (members : list (string * ScalarKind)).

Global Instance ScalarKind_eq_dec : EqDecision ScalarKind.
Proof. solve_decision. Defined.
Global Instance SomeType_eq_dec : EqDecision SomeType.
Proof. solve_decision. Defined.

Definition type_name (k : ScalarKind) : string :=
  match k with
  | INTEGER => "INTEGER" | LONG => "LONG" | SINGLE => "SINGLE"
  | DOUBLE => "DOUBLE" | STRING => "STRING"
  end.

(** Modelled from the spec: [DeriveTypeNameFromVariable] of the module
    [Types], which is not among the sources.  "The final sigil maps
    [%] to INTEGER, [&] to LONG, [!] to SINGLE, [#] to DOUBLE, [$] to
    STRING; a bare identifier returns null". *)
Definition DeriveTypeNameFromVariable (name : string) : option string :=
  match last (String.list_ascii_of_string name) with
  | Some "%"%char => Some "INTEGER"
  | Some "&"%char => Some "LONG"
  | Some "!"%char => Some "SINGLE"
  | Some "#"%char => Some "DOUBLE"
  | Some "$"%char => Some "STRING"
  | _ => None
  end.

(** ** Values *)

(** The values that travel on the operand stack and sit in variables:
    JavaScript primitives, references to objects of the store, and type
    objects. *)
Inductive value (num : Type) :=
| VUndefined
| VNull
| VBool (b : bool)
| VNum (n : num)
| VStr (s : string)
| VObj (a : nat)
| VType (t : SomeType).
Global Arguments VUndefined {num}.
Global Arguments VNull {num}.
Global Arguments VBool {num} b.
Global Arguments VNum {num} n.
Global Arguments VStr {num} s.
Global Arguments VObj {num} a.
Global Arguments VType {num} t.

(** Objects of the store.  A ScalarVariable is the pair of its [type] and
    [value] fields; an ArrayVariable has its element type, its dimensions
    (lower, upper) and the references of its cells; an instance of a user
    type is a record from member names to ScalarVariable references. *)
Inductive object (num : Type) :=
| ScalarVariable (type : value num) (contents : value num)
| ArrayVariable (type : value num) (dimensions : list (value num * value num))
    (values : list nat)
| UserRecord (fields : gmap string (value num)).
Global Arguments ScalarVariable {num} type contents.
Global Arguments ArrayVariable {num} type dimensions values.
Global Arguments UserRecord {num} fields.

(** Continuations handed to the host: what the callback does when the host
    calls it back. *)
Inductive callback (num : Type) :=
| CbResume
| CbInput (target : value num)
| CbKeyResume.
Global Arguments CbResume {num}.
Global Arguments CbInput {num} target.
Global Arguments CbKeyResume {num}.

(** What the machine does to the outside, in order. *)
Inductive event (num : Type) :=
| EmitError (e : exn)
| ConsoleCall (method : string) (args : list (value num))
| ConsoleThen (method : string) (args : list (value num)) (cb : callback num)
| AudioCall (method : string) (args : list (value num))
| AudioThen (method : string) (args : list (value num)) (cb : callback num)
| HostRead (what : string)
| SetInterval
| ClearInterval (id : option nat)
| SetTimeout (cb : callback num) (delay : option (value num))
| RequestAnimationFrame (cb : callback num).
Global Arguments EmitError {num} e.
Global Arguments ConsoleCall {num} method args.
Global Arguments ConsoleThen {num} method args cb.
Global Arguments AudioCall {num} method args.
Global Arguments AudioThen {num} method args cb.
Global Arguments HostRead {num} what.
Global Arguments SetInterval {num}.
Global Arguments ClearInterval {num} id.
Global Arguments SetTimeout {num} cb delay.
Global Arguments RequestAnimationFrame {num} cb.

Inductive binop := Add | Sub | Mul | Div | Rem | BitAnd | BitOr.
Inductive relop := Lt | Le | Gt | Ge.
Inductive unop := BitNot | Incr.

(** ** The host language and the devices *)

Class JsHost := {
  (** Numbers of the host language. *)
  num : Type;
  num_of_Z : Z → num;
  (** [a === b] and truthiness on numbers. *)
  num_eqb : num → num → bool;
  num_truthy : num → bool;
  (** [a + b], [a - b], [a * b], [a / b], [a % b], [a & b], [a | b]. *)
  js_binop : binop → value num → value num → value num;
  (** [a < b], [a <= b], [a > b], [a >= b]. *)
  js_relop : relop → value num → value num → bool;
  (** [~a], and the value [++a] gives to [a]. *)
  js_unop : unop → value num → value num;
  (** ['' + a]. *)
  js_to_string : value num → string;
  (** Built-in functions and methods of the host, by name:
      [String.fromCharCode], [substr], [Math.floor], ...  A built-in
      returns a value or throws. *)
  js_builtin : string → list (value num) → value num + JsErrorKind;
  (** What the outside world answers to a query ([Math.random],
      [cons.x], [cons.getKeyFromBuffer], the fields of [new Date()]),
      given everything that happened before. *)
  host_input : string → list (event num) → value num;
  (** The global [window]: whether it is truthy, or [None] where no such
      global is declared and reading it is a ReferenceError. *)
  host_window : option bool;
}.

Abbreviation val := (value num).
Abbreviation obj := (object num).

(** Parts of the repository that are kept as parameters: operations of the
    module [Types], which is not among the sources, and the text that
    [print_using] computes from its format string, which is a function of
    the format string, the arguments and the variables they refer to. *)
Class RepoParams `{JsHost} := {
  (** [type.copy(v)] for a type object [type]. *)
  type_copy : SomeType → val → list obj → (val + JsErrorKind) * list obj;
  (** Number of cells of an ArrayVariable with the given dimensions. *)
  array_length : list (val * val) → nat;
  (** Offset of an index vector in the cells of an array ([getIndex]);
      [None] when the offset is not an index of the backing store. *)
  array_index : list (val * val) → list val → option nat;
  (** The string [output] that the formatting loop of [print_using]
      produces (or the error it runs into) from the format string and the
      remaining arguments. *)
  format_using : val → list val → list obj → string + JsErrorKind;
}.

(** * The virtual machine *)

Section Machine.
Context `{!JsHost} `{!RepoParams}.

(** ** Instructions *)

(** The entries of the table [Instructions], each with the argument its
    [execute] takes: an address for the instructions flagged [addrLabel],
    a DATA index for [dataLabel], a name or a constant otherwise. *)
Inductive instr :=
| FORLOOP (arg : nat)
| COPYTOP
| RESTORE (arg : nat)
| POPVAL (arg : string)
| POP
| PUSHREF (arg : string)
| PUSHVALUE (arg : string)
| PUSHTYPE (arg : string)
| POPVAR (arg : string)
| NEW (arg : string)
| END
| UNARY_OP (arg : string)
| OP_EQ | OP_LT | OP_LE | OP_GT | OP_GE | OP_NE
| AND | OR
| OP_ADD | OP_SUB | OP_MUL | OP_DIV | MOD
| BZ (arg : nat)
| BNZ (arg : nat)
| JMP (arg : nat)
| CALL (arg : nat)
| GOSUB (arg : nat)
| RET
| PUSHCONST (arg : val)
| ARRAY_DEREF (arg : val)
| MEMBER_DEREF (arg : string)
| MEMBER_VALUE (arg : string)
| ASSIGN
| SYSCALL (arg : string).

(** An instruction of the bytecode: the table entry with its argument, and
    the locus of the source it was compiled from. *)
Record Instruction := { instr_of : instr; locus_of : Locus }.

(** A frame of the call stack.  [sf_pc] is the field [pc] (the address to
    return to), [sf_variables] the reference of the [variables] object. *)
Record StackFrame := { sf_pc : nat; sf_variables : nat }.

Record QBasicProgram := {
  prog_instructions : list Instruction;
  prog_types : gmap string SomeType;
  prog_defaultType : SomeType;
  prog_data : list val;
  prog_shared : gset string;
  prog_testMode : bool;
}.

(** ** State of the machine *)

Record VirtualMachine := {
  stack : list val;  (* the operand stack, top first *)
  pc : nat;  (* program counter *)
  callstack : list StackFrame;  (* list of StackFrames, callstack[0] first *)
  instructions : list Instruction;  (* the bytecode *)
  types : gmap string SomeType;  (* user defined and built-in types, by name *)
  shared : gset string;  (* set of names of shared variables *)
  dataPtr : nat;  (* index of the next data item to be read *)
  data : list val;  (* the items of the DATA statements *)
  asynchronous : bool;  (* true if running asynchronously *)
  suspended : bool;  (* true if the machine is suspended *)
  interval : option nat;  (* the interval timer of asynchronous mode *)
  instructionsPerInterval : nat;  (* instructions run per tick *)
  lastRandomNumber : num;  (* the last random number generated by RND *)
  defaultType : val;  (* type of variables without a sigil *)
  frame : option StackFrame;  (* the current frame; None stands for undefined *)
  audio : bool;  (* whether an audio device is attached *)
  heap : list obj;  (* store of the variable objects *)
  varmaps : list (gmap string val);  (* store of the [variables] objects of frames *)
  events : list (event num);  (* calls to devices and emitted events, oldest first *)
}.

Definition set_stack (x : list val) (vm : VirtualMachine) : VirtualMachine :=
  {| stack := x; pc := pc vm; callstack := callstack vm; instructions := instructions vm; types := types vm; shared := shared vm; dataPtr := dataPtr vm; data := data vm; asynchronous := asynchronous vm; suspended := suspended vm; interval := interval vm; instructionsPerInterval := instructionsPerInterval vm; lastRandomNumber := lastRandomNumber vm; defaultType := defaultType vm; frame := frame vm; audio := audio vm; heap := heap vm; varmaps := varmaps vm; events := events vm |}.
Definition set_pc (x : nat) (vm : VirtualMachine) : VirtualMachine :=
  {| stack := stack vm; pc := x; callstack := callstack vm; instructions := instructions vm; types := types vm; shared := shared vm; dataPtr := dataPtr vm; data := data vm; asynchronous := asynchronous vm; suspended := suspended vm; interval := interval vm; instructionsPerInterval := instructionsPerInterval vm; lastRandomNumber := lastRandomNumber vm; defaultType := defaultType vm; frame := frame vm; audio := audio vm; heap := heap vm; varmaps := varmaps vm; events := events vm |}.
Definition set_callstack (x : list StackFrame) (vm : VirtualMachine) : VirtualMachine :=
  {| stack := stack vm; pc := pc vm; callstack := x; instructions := instructions vm; types := types vm; shared := shared vm; dataPtr := dataPtr vm; data := data vm; asynchronous := asynchronous vm; suspended := suspended vm; interval := interval vm; instructionsPerInterval := instructionsPerInterval vm; lastRandomNumber := lastRandomNumber vm; defaultType := defaultType vm; frame := frame vm; audio := audio vm; heap := heap vm; varmaps := varmaps vm; events := events vm |}.
Definition set_frame (x : option StackFrame) (vm : VirtualMachine) : VirtualMachine :=
  {| stack := stack vm; pc := pc vm; callstack := callstack vm; instructions := instructions vm; types := types vm; shared := shared vm; dataPtr := dataPtr vm; data := data vm; asynchronous := asynchronous vm; suspended := suspended vm; interval := interval vm; instructionsPerInterval := instructionsPerInterval vm; lastRandomNumber := lastRandomNumber vm; defaultType := defaultType vm; frame := x; audio := audio vm; heap := heap vm; varmaps := varmaps vm; events := events vm |}.
Definition set_dataPtr (x : nat) (vm : VirtualMachine) : VirtualMachine :=
  {| stack := stack vm; pc := pc vm; callstack := callstack vm; instructions := instructions vm; types := types vm; shared := shared vm; dataPtr := x; data := data vm; asynchronous := asynchronous vm; suspended := suspended vm; interval := interval vm; instructionsPerInterval := instructionsPerInterval vm; lastRandomNumber := lastRandomNumber vm; defaultType := defaultType vm; frame := frame vm; audio := audio vm; heap := heap vm; varmaps := varmaps vm; events := events vm |}.
Definition set_suspended (x : bool) (vm : VirtualMachine) : VirtualMachine :=
  {| stack := stack vm; pc := pc vm; callstack := callstack vm; instructions := instructions vm; types := types vm; shared := shared vm; dataPtr := dataPtr vm; data := data vm; asynchronous := asynchronous vm; suspended := x; interval := interval vm; instructionsPerInterval := instructionsPerInterval vm; lastRandomNumber := lastRandomNumber vm; defaultType := defaultType vm; frame := frame vm; audio := audio vm; heap := heap vm; varmaps := varmaps vm; events := events vm |}.
Definition set_interval (x : option nat) (vm : VirtualMachine) : VirtualMachine :=
  {| stack := stack vm; pc := pc vm; callstack := callstack vm; instructions := instructions vm; types := types vm; shared := shared vm; dataPtr := dataPtr vm; data := data vm; asynchronous := asynchronous vm; suspended := suspended vm; interval := x; instructionsPerInterval := instructionsPerInterval vm; lastRandomNumber := lastRandomNumber vm; defaultType := defaultType vm; frame := frame vm; audio := audio vm; heap := heap vm; varmaps := varmaps vm; events := events vm |}.
Definition set_asynchronous (x : bool) (vm : VirtualMachine) : VirtualMachine :=
  {| stack := stack vm; pc := pc vm; callstack := callstack vm; instructions := instructions vm; types := types vm; shared := shared vm; dataPtr := dataPtr vm; data := data vm; asynchronous := x; suspended := suspended vm; interval := interval vm; instructionsPerInterval := instructionsPerInterval vm; lastRandomNumber := lastRandomNumber vm; defaultType := defaultType vm; frame := frame vm; audio := audio vm; heap := heap vm; varmaps := varmaps vm; events := events vm |}.
Definition set_heap (x : list obj) (vm : VirtualMachine) : VirtualMachine :=
  {| stack := stack vm; pc := pc vm; callstack := callstack vm; instructions := instructions vm; types := types vm; shared := shared vm; dataPtr := dataPtr vm; data := data vm; asynchronous := asynchronous vm; suspended := suspended vm; interval := interval vm; instructionsPerInterval := instructionsPerInterval vm; lastRandomNumber := lastRandomNumber vm; defaultType := defaultType vm; frame := frame vm; audio := audio vm; heap := x; varmaps := varmaps vm; events := events vm |}.
Definition set_varmaps (x : list (gmap string val)) (vm : VirtualMachine) : VirtualMachine :=
  {| stack := stack vm; pc := pc vm; callstack := callstack vm; instructions := instructions vm; types := types vm; shared := shared vm; dataPtr := dataPtr vm; data := data vm; asynchronous := asynchronous vm; suspended := suspended vm; interval := interval vm; instructionsPerInterval := instructionsPerInterval vm; lastRandomNumber := lastRandomNumber vm; defaultType := defaultType vm; frame := frame vm; audio := audio vm; heap := heap vm; varmaps := x; events := events vm |}.
Definition set_events (x : list (event num)) (vm : VirtualMachine) : VirtualMachine :=
  {| stack := stack vm; pc := pc vm; callstack := callstack vm; instructions := instructions vm; types := types vm; shared := shared vm; dataPtr := dataPtr vm; data := data vm; asynchronous := asynchronous vm; suspended := suspended vm; interval := interval vm; instructionsPerInterval := instructionsPerInterval vm; lastRandomNumber := lastRandomNumber vm; defaultType := defaultType vm; frame := frame vm; audio := audio vm; heap := heap vm; varmaps := varmaps vm; events := x |}.

(** Program fields, replaced together by [reset]. *)
Definition set_program (p : QBasicProgram) (vm : VirtualMachine) : VirtualMachine :=
  {| stack := stack vm; pc := pc vm; callstack := callstack vm; instructions := prog_instructions p; types := prog_types p; shared := prog_shared p; dataPtr := dataPtr vm; data := prog_data p; asynchronous := asynchronous vm; suspended := suspended vm; interval := interval vm; instructionsPerInterval := instructionsPerInterval vm; lastRandomNumber := lastRandomNumber vm; defaultType := VType (prog_defaultType p); frame := frame vm; audio := audio vm; heap := heap vm; varmaps := varmaps vm; events := events vm |}.
(** The machine right after its constructor has run. *)
Definition VirtualMachine_new (has_audio : bool) : VirtualMachine :=
  {| stack := []; pc := 0; callstack := []; instructions := [];
     types := ∅; shared := ∅; dataPtr := 0; data := [];
     asynchronous := false; suspended := false; interval := None;
     instructionsPerInterval := 2048; lastRandomNumber := num_of_Z 0;
     defaultType := VUndefined; frame := None; audio := has_audio;
     heap := []; varmaps := []; events := [] |}.

(** ** Outcomes and the monad of the machine *)

Inductive abort := OutOfFuel | OutsideModel.

(** How a piece of code ends.  A [Throw] carries the state at the point of
    the throw: what was mutated before stays mutated. *)
Inductive outcome (A : Type) :=
| Ret (a : A) (vm : VirtualMachine)
| Throw (e : exn) (vm : VirtualMachine)
| Abort (r : abort).
Global Arguments Ret {A} a vm.
Global Arguments Throw {A} e vm.
Global Arguments Abort {A} r.

Definition M (A : Type) : Type := VirtualMachine → outcome A.

Global Instance M_ret : MRet M := λ A a vm, Ret a vm.
Global Instance M_bind : MBind M := λ A B f m vm,
  match m vm with
  | Ret a vm' => f a vm'
  | Throw e vm' => Throw e vm'
  | Abort r => Abort r
  end.

Definition get {A} (f : VirtualMachine → A) : M A := λ vm, Ret (f vm) vm.
Definition modify (f : VirtualMachine → VirtualMachine) : M unit :=
  λ vm, Ret () (f vm).
Definition throw {A} (e : exn) : M A := λ vm, Throw e vm.
Definition abort_with {A} (r : abort) : M A := λ _, Abort r.

(** [try { body } catch (e) { handler(e) }] *)
Definition try_catch {A} (body : M A) (handler : exn → M A) : M A := λ vm,
  match body vm with
  | Throw e vm' => handler e vm'
  | r => r
  end.

Definition lift_js {A} (r : A + JsErrorKind) : M A :=
  match r with inl a => mret a | inr k => throw (JsError k) end.

(** ** The host language on values *)

Definition num_of_nat (n : nat) : val := VNum (num_of_Z (Z.of_nat n)).
Definition num_lit (z : Z) : val := VNum (num_of_Z z).

Definition truthy (v : val) : bool :=
  match v with
  | VUndefined | VNull => false
  | VBool b => b
  | VNum n => num_truthy n
  | VStr s => negb (String.eqb s "")
  | VObj _ | VType _ => true
  end.

(** [a === b] *)
Definition strict_eq (a b : val) : bool :=
  match a, b with
  | VUndefined, VUndefined => true
  | VNull, VNull => true
  | VBool x, VBool y => Bool.eqb x y
  | VNum x, VNum y => num_eqb x y
  | VStr x, VStr y => String.eqb x y
  | VObj x, VObj y => Nat.eqb x y
  | VType x, VType y => bool_decide (x = y)
  | _, _ => false
  end.

(** The BASIC booleans: TRUE is -1 and FALSE is 0. *)
Definition basic_bool (b : bool) : val := if b then num_lit (-1) else num_lit 0.

(** ** The operand stack, the store, the outside *)

(** [vm.stack.pop()]: popping an empty array gives [undefined]. *)
Definition pop : M val := λ vm,
  match stack vm with
  | [] => Ret VUndefined vm
  | v :: s => Ret v (set_stack s vm)
  end.

Definition push (v : val) : M unit :=
  modify (λ vm, set_stack (v :: stack vm) vm).

(** [new C(...)] for one of the classes of variables. *)
Definition alloc (o : obj) : M val := λ vm,
  Ret (VObj (length (heap vm))) (set_heap (heap vm ++ [o]) vm).

Definition emit_event (e : event num) : M unit :=
  modify (λ vm, set_events (events vm ++ [e]) vm).

(** A query to the outside; the query is recorded. *)
Definition read_host (what : string) : M val := λ vm,
  Ret (host_input what (events vm)) (set_events (events vm ++ [HostRead what]) vm).

Definition builtin (name : string) (args : list val) : M val :=
  lift_js (js_builtin name args).

Definition lookup_object (a : nat) : M obj := λ vm,
  match heap vm !! a with
  | Some o => Ret o vm
  | None => Abort OutsideModel
  end.

(** [v.value] *)
Definition get_value (v : val) : M val :=
  match v with
  | VUndefined | VNull => throw (JsError TypeError)
  | VBool _ | VNum _ | VStr _ => mret VUndefined
  | VType _ => abort_with OutsideModel
  | VObj a =>
      o ← lookup_object a;
      match o with
      | ScalarVariable _ x => mret x
      | UserRecord f => mret (default VUndefined (f !! "value"))
      | ArrayVariable _ _ _ => abort_with OutsideModel
      end
  end.

(** [v.type] *)
Definition get_type (v : val) : M val :=
  match v with
  | VUndefined | VNull => throw (JsError TypeError)
  | VBool _ | VNum _ | VStr _ => mret VUndefined
  | VType _ => abort_with OutsideModel
  | VObj a =>
      o ← lookup_object a;
      match o with
      | ScalarVariable t _ => mret t
      | ArrayVariable t _ _ => mret t
      | UserRecord f => mret (default VUndefined (f !! "type"))
      end
  end.

(** [v.value = w].  The modules are compiled in strict mode: assigning to a
    property of a primitive throws. *)
Definition set_value (v w : val) : M unit :=
  match v with
  | VUndefined | VNull | VBool _ | VNum _ | VStr _ => throw (JsError TypeError)
  | VType _ => abort_with OutsideModel
  | VObj a =>
      o ← lookup_object a;
      match o with
      | ScalarVariable t _ =>
          modify (λ vm, set_heap (<[a := ScalarVariable t w]> (heap vm)) vm)
      | UserRecord f =>
          modify (λ vm, set_heap (<[a := UserRecord (<["value" := w]> f)]> (heap vm)) vm)
      | ArrayVariable _ _ _ => abort_with OutsideModel
      end
  end.

(** [v.length] *)
Definition get_length (v : val) : M val :=
  match v with
  | VUndefined | VNull => throw (JsError TypeError)
  | VBool _ | VNum _ => mret VUndefined
  | VStr _ => builtin "length" [v]
  | VType _ => abort_with OutsideModel
  | VObj a =>
      o ← lookup_object a;
      match o with
      | ScalarVariable _ _ => mret VUndefined
      | UserRecord f => mret (default VUndefined (f !! "length"))
      | ArrayVariable _ _ _ => abort_with OutsideModel
      end
  end.

(** [o[name]] for a plain object [o], [m] being the properties of [o]
    itself: the property of that name or, without one, what
    [Object.prototype] has under the name, which is not a value of the
    model.  [__proto__] is an accessor of [Object.prototype] that no
    assignment shadows, and answers with the prototype. *)
Definition read_property (m : gmap string val) (name : string) : M val :=
  if String.eqb name "__proto__" then abort_with OutsideModel
  else
    match m !! name with
    | Some v => mret v
    | None =>
        if bool_decide (name ∈ object_prototype_keys) then abort_with OutsideModel
        else mret VUndefined
    end.

(** [v[name]] for a member name *)
Definition get_member (v : val) (name : string) : M val :=
  match v with
  | VUndefined | VNull => throw (JsError TypeError)
  | VBool _ | VNum _ | VStr _ | VType _ => abort_with OutsideModel
  | VObj a =>
      o ← lookup_object a;
      match o with
      | UserRecord f => read_property f name
      | ScalarVariable t x =>
          if String.eqb name "type" then mret t
          else if String.eqb name "value" then mret x
          else abort_with OutsideModel
      | ArrayVariable _ _ _ => abort_with OutsideModel
      end
  end.

(** ** Types: default values and copies *)

(** Modelled from the spec: [createInstance] of the scalar types, in the
    module [Types] that is not among the sources.  "Scalar: one of
    INTEGER, LONG, SINGLE, DOUBLE, STRING, each with a canonical zero
    value". *)
Definition scalar_default (k : ScalarKind) : val :=
  match k with
  | STRING => VStr ""
  | _ => num_lit 0
  end.

(** Modelled from the spec: [createInstance] of a user-defined type, "an
    ordered list of (field name, Scalar type) pairs": the instance has one
    ScalarVariable per member, holding the member's default. *)
Fixpoint alloc_members (ms : list (string * ScalarKind)) (h : list obj)
    : gmap string val * list obj :=
  match ms with
  | [] => (∅, h)
  | (n, k) :: ms' =>
      let a := length h in
      let '(f, h') :=
        alloc_members ms' (h ++ [ScalarVariable (VType (ScalarType k)) (scalar_default k)]) in
      (<[n := VObj a]> f, h')
  end.

Definition createInstance (t : SomeType) : M val :=
  match t with
  | ScalarType k => mret (scalar_default k)
  | UserType ms => λ vm,
      let '(f, h) := alloc_members ms (heap vm) in
      Ret (VObj (length h)) (set_heap (h ++ [UserRecord f]) vm)
  end.

(** [t.createInstance()] for whatever value [t] is. *)
Definition call_createInstance (t : val) : M val :=
  match t with
  | VType ty => createInstance ty
  | _ => throw (JsError TypeError)
  end.

(** [t.copy(v)] for whatever value [t] is. *)
Definition call_copy (t v : val) : M val :=
  match t with
  | VType ty => λ vm,
      match type_copy ty v (heap vm) with
      | (inl c, h) => Ret c (set_heap h vm)
      | (inr k, h) => Throw (JsError k) (set_heap h vm)
      end
  | VObj _ => abort_with OutsideModel
  | _ => throw (JsError TypeError)
  end.

(** [this.types[name]].  For a name of [Object.prototype] that the
    program does not define, the answer is a function of the host, which
    is not a value of the model. *)
Definition lookup_type (name : string) : M val := λ vm,
  match types vm !! name with
  | Some t => Ret (VType t) vm
  | None =>
      if bool_decide (name ∈ object_prototype_keys) then Abort OutsideModel
      else Ret VUndefined vm
  end.
(** ** Variables *)

(** [if (this.shared[name])]: [shared] holds the shared names of the
    program; what it answers for a name of [Object.prototype] is truthy
    too. *)
Definition is_shared (name : string) (vm : VirtualMachine) : bool :=
  bool_decide (name ∈ shared vm) || bool_decide (name ∈ object_prototype_keys).

(** The frame in which a name is looked up: the main frame [callstack[0]]
    when [this.shared[name]] is truthy, the current frame otherwise.
    Reading [variables] of an undefined frame throws. *)
Definition resolve_frame (name : string) : M StackFrame := λ vm,
  match (if is_shared name vm then callstack vm !! 0 else frame vm) with
  | Some f => Ret f vm
  | None => Throw (JsError TypeError) vm
  end.

Definition lookup_varmap (i : nat) : M (gmap string val) := λ vm,
  match varmaps vm !! i with
  | Some m => Ret m vm
  | None => Abort OutsideModel
  end.

(** [frame.variables[name] = value].  An assignment to [__proto__] goes to
    the setter of [Object.prototype]: it makes an object or null the
    prototype of [variables], after which the model no longer tells what
    [variables] answers, and does nothing for any other value. *)
Definition bind_variable (f : StackFrame) (name : string) (v : val) : M unit :=
  if String.eqb name "__proto__" then
    match v with
    | VUndefined | VBool _ | VNum _ | VStr _ => mret ()
    | VNull | VObj _ | VType _ => abort_with OutsideModel
    end
  else
    m ← lookup_varmap (sf_variables f);
    modify (λ vm, set_varmaps (<[sf_variables f := <[name := v]> m]> (varmaps vm)) vm).

Definition setVariable (name : string) (v : val) : M unit :=
  f ← resolve_frame name;
  bind_variable f name v.

Definition getVariable (name : string) : M val :=
  f ← resolve_frame name;
  m ← lookup_varmap (sf_variables f);
  bound ← read_property m name;
  if truthy bound then mret bound
  else
    (* must create variable *)
    type ← match DeriveTypeNameFromVariable name with
           | None => get defaultType
           | Some typeName => lookup_type typeName
           end;
    inst ← call_createInstance type;
    scalar ← alloc (ScalarVariable type inst);
    bind_variable f name scalar;;
    mret scalar.

Definition pushScalar (v : val) (typeName : string) : M unit :=
  t ← lookup_type typeName;
  scalar ← alloc (ScalarVariable t v);
  push scalar.

(** ** Suspension *)

Definition suspend : M unit :=
  modify (set_suspended true);;
  get asynchronous ≫= λ asyn : bool,
  if asyn then (i ← get interval; emit_event (ClearInterval i)) else mret ().

(** [this.interval = setInterval(() => this.runSome(), this.INTERVAL_MS)];
    the timer gets an identifier not used before. *)
Definition start_interval : M unit :=
  n ← get (λ vm, length (events vm));
  emit_event SetInterval;;
  modify (set_interval (Some (S n))).

(** ** Loops over the operand stack *)

(** [for (i = i0; i < count; i++) { args.unshift(vm.stack.pop()) }] *)
Fixpoint pop_args (fuel : nat) (count : val) (i : nat) (args : list val)
    : M (list val) :=
  match fuel with
  | 0 => abort_with OutOfFuel
  | S fuel' =>
      if js_relop Lt (num_of_nat i) count then
        v ← pop;
        pop_args fuel' count (S i) (v :: args)
      else mret args
  end.

(** [vm.data[vm.dataPtr++]] *)
Definition next_data : M val := λ vm,
  Ret (default VUndefined (data vm !! dataPtr vm)) (set_dataPtr (S (dataPtr vm)) vm).

(** The body of the second loop of READ, [a] being [args[i]]. *)
Definition read_one (a : val) : M unit :=
  d ← next_data;
  set_value a d;;
  v ← get_value a;
  if strict_eq v VNull then
    (* user specified ,, in a data statement *)
    t ← get_type a;
    inst ← call_createInstance t;
    set_value a inst
  else mret ().

(** The second loop of READ. *)
Fixpoint read_loop (fuel : nat) (count : val) (args : list val) (i : nat) : M unit :=
  match fuel with
  | 0 => abort_with OutOfFuel
  | S fuel' =>
      if js_relop Lt (num_of_nat i) count then
        read_one (default VUndefined (args !! i));;
        read_loop fuel' count args (S i)
      else mret ()
  end.

(** [while (++x % 14) { spaces += ' ' }] *)
Fixpoint comma_spaces (fuel : nat) (x : val) (spaces : string) : string + abort :=
  match fuel with
  | 0 => inr OutOfFuel
  | S fuel' =>
      let x' := js_unop Incr x in
      if truthy (js_binop Rem x' (num_lit 14))
      then comma_spaces fuel' x' (spaces ++ " ")
      else inl spaces
  end.

(** [while (++x < col) { spaces += ' ' }] *)
Fixpoint tab_spaces (fuel : nat) (x col : val) (spaces : string) : string + abort :=
  match fuel with
  | 0 => inr OutOfFuel
  | S fuel' =>
      let x' := js_unop Incr x in
      if js_relop Lt x' col
      then tab_spaces fuel' x' col (spaces ++ " ")
      else inl spaces
  end.

(** [for (let i = 0; i < numSpaces; i++) { str += ' ' }] *)
Fixpoint space_loop (fuel : nat) (numSpaces : val) (i : nat) (str : string)
    : string + abort :=
  match fuel with
  | 0 => inr OutOfFuel
  | S fuel' =>
      if js_relop Lt (num_of_nat i) numSpaces
      then space_loop fuel' numSpaces (S i) (str ++ " ")
      else inl str
  end.

Definition lift_abort {A} (r : A + abort) : M A :=
  match r with inl a => mret a | inr why => abort_with why end.

(** The part shared by PRINT with a comma and [print_using]: pad the
    console line to the next multiple of 14 columns. *)
Definition print_to_next_zone (fuel : nat) : M unit :=
  x ← read_host "cons.x";
  spaces ← lift_abort (comma_spaces fuel x "");
  emit_event (ConsoleCall "print" [VStr spaces]).

(** [vm.stack.pop().value] *)
Definition pop_value : M val := v ← pop; get_value v.
Definition newline : string := String (ascii_of_nat 10) "".

(** ** System functions *)

Section Syscalls.
Variable fuel : nat.

Definition sys_RND : M unit :=
  numArgs ← pop;
  n ← (if strict_eq numArgs (num_lit 1) then pop else mret (num_lit 1));
  if strict_eq n (num_lit 0)
  then (r ← get lastRandomNumber; push (VNum r))
  else (r ← read_host "Math.random"; push r).

Definition sys_CHR : M unit :=
  n ← pop;
  r ← builtin "String.fromCharCode" [n];
  push r.

Definition sys_INKEY : M unit :=
  code ← read_host "cons.getKeyFromBuffer";
  result ←
    (if negb (strict_eq code (num_lit (-1))) then
       r ← builtin "String.fromCodePoint" [code];
       if strict_eq code (num_lit 0) then
         k ← read_host "cons.getKeyFromBuffer";
         c ← builtin "String.fromCharCode" [k];
         mret (js_binop Add r c)
       else mret r
     else mret (VStr ""));
  push result.

Definition sys_LEN : M unit :=
  v ← pop;
  l ← get_length v;
  push l.

Definition sys_MID : M unit :=
  numArgs ← pop;
  len ← (if strict_eq numArgs (num_lit 3) then pop else mret VUndefined);
  start ← pop;
  str ← pop;
  r ← builtin "substr" [str; js_binop Sub start (num_lit 1); len];
  push r.

Definition sys_LEFT : M unit :=
  n ← pop;
  str ← pop;
  r ← builtin "substr" [str; num_lit 0; n];
  push r.

Definition sys_RIGHT : M unit :=
  n ← pop;
  str ← pop;
  l ← get_length str;
  r ← builtin "substr" [str; js_binop Sub l n];
  push r.

Definition sys_TIMER : M unit :=
  ms ← read_host "Date.getMilliseconds";
  sec ← read_host "Date.getSeconds";
  mins ← read_host "Date.getMinutes";
  hours ← read_host "Date.getHours";
  push (js_binop Add
          (js_binop Add
             (js_binop Add (js_binop Div ms (num_lit 1000)) sec)
             (js_binop Mul mins (num_lit 60)))
          (js_binop Mul (js_binop Mul hours (num_lit 60)) (num_lit 60))).

Definition sys_PEEK : M unit :=
  (* pop one argument off the stack and replace it with 0. *)
  pop;; push (num_lit 0).

Definition sys_LCASE : M unit :=
  str ← pop;
  r ← builtin "toLowerCase" [str];
  push r.

Definition sys_UCASE : M unit :=
  str ← pop;
  r ← builtin "toUpperCase" [str];
  push r.

Definition sys_STR : M unit :=
  n ← pop;
  push (VStr (js_to_string n)).

Definition sys_SPACE : M unit :=
  numSpaces ← pop;
  str ← lift_abort (space_loop fuel numSpaces 0 "");
  push (VStr str).

Definition sys_VAL : M unit :=
  v ← pop;
  r ← builtin "parseFloat" [v];
  push r.

Definition sys_INT : M unit :=
  v ← pop;
  r ← builtin "Math.floor" [v];
  push r.

Definition SystemFunctions : list (string * M unit) :=
  [ ("RND", sys_RND); ("CHR$", sys_CHR); ("INKEY$", sys_INKEY);
    ("LEN", sys_LEN); ("MID$", sys_MID); ("LEFT$", sys_LEFT);
    ("RIGHT$", sys_RIGHT); ("TIMER", sys_TIMER); ("PEEK", sys_PEEK);
    ("LCASE$", sys_LCASE); ("UCASE$", sys_UCASE); ("STR$", sys_STR);
    ("SPACE$", sys_SPACE); ("VAL", sys_VAL); ("INT", sys_INT) ].

(** ** System subroutines *)

Definition sys_BEEP : M unit := mret ().

Definition sys_CLS : M unit := emit_event (ConsoleCall "cls" []).

Definition sys_RANDOMIZE : M unit := pop;; mret ().

Definition sys_PLAY : M unit :=
  argCount ← pop;
  music ← pop_value;
  repeat ← (if js_relop Gt argCount (num_lit 1) then pop_value else mret VUndefined);
  get audio ≫= λ a : bool,
  if a then
    suspend;;
    emit_event (AudioThen "playMusic"
                  [music; if truthy repeat then repeat else num_lit 1] CbResume)
  else mret ().

Definition sys_BGMPLAY : M unit :=
  argCount ← pop;
  music ← pop_value;
  repeat ← (if js_relop Gt argCount (num_lit 1) then pop_value else mret VUndefined);
  get audio ≫= λ a : bool,
  if a then emit_event (AudioCall "playMusic" [music; repeat]) else mret ().

Definition sys_BGMSTOP : M unit :=
  get audio ≫= λ a : bool,
  if a then emit_event (AudioCall "stopMusic" []) else mret ().

Definition sys_SLEEP : M unit :=
  argCount ← pop;
  suspend;;
  if strict_eq argCount (num_lit 1) then
    sleep ← pop_value;
    emit_event (SetTimeout CbResume (Some (js_binop Mul sleep (num_lit 1000))))
  else
    emit_event (ConsoleThen "onKey" [num_lit (-1)] CbKeyResume).

Definition sys_SYSTEM : M unit := mret ().

(** The formatting loop of [print_using]; it reads the variables the
    arguments refer to. *)
Definition format_output (formatString : val) (args : list val) : M string :=
  λ vm, lift_js (format_using formatString args (heap vm)) vm.

Definition sys_print_using : M unit :=
  argCount ← pop;
  terminator ← pop;
  args ← pop_args fuel (js_binop Sub argCount (num_lit 1)) 0 [];
  formatString ← get_value (default VUndefined (head args));
  output ← format_output formatString (tail args);
  emit_event (ConsoleCall "print" [VStr output]);;
  if strict_eq terminator (VStr ",") then print_to_next_zone fuel
  else if negb (strict_eq terminator (VStr ";")) then
    emit_event (ConsoleCall "print" [VStr newline])
  else mret ().

Definition sys_LOCATE : M unit :=
  col ← pop_value;
  row ← pop_value;
  emit_event (ConsoleCall "locate" [row; col]).

Definition sys_COLOR : M unit :=
  argCount ← pop;
  bo ← (if js_relop Gt argCount (num_lit 2) then pop_value else mret VNull);
  bg ← (if js_relop Gt argCount (num_lit 1) then pop_value else mret VNull);
  fg ← pop_value;
  emit_event (ConsoleCall "color" [fg; bg; bo]).

Definition sys_READ : M unit :=
  argCount ← pop;
  args ← pop_args fuel argCount 0 [];
  read_loop fuel argCount args 0.

Definition sys_SCREEN : M unit :=
  mode ← pop_value;
  emit_event (ConsoleCall "screen" [mode]).

Definition sys_INPUT : M unit :=
  argCount ← pop;
  args ← pop_args fuel argCount 0 [];
  suspend;;
  emit_event (ConsoleThen "input" [] (CbInput (default VUndefined (head args)))).

Definition sys_SWAP : M unit :=
  lhs ← pop;
  rhs ← pop;
  temp ← get_value lhs;
  r ← get_value rhs;
  set_value lhs r;;
  set_value rhs temp.

Definition sys_WIDTH : M unit := pop;; pop;; mret ().

Definition sys_YIELD : M unit :=
  suspend;;
  match host_window with
  | Some true => emit_event (RequestAnimationFrame CbResume)
  | Some false => emit_event (SetTimeout CbResume None)
  | None => throw (JsError ReferenceError)
  end.

Definition sys_SPSET : M unit :=
  suspend;;
  argCount ← pop;
  frames ← (if js_relop Gt argCount (num_lit 2) then pop_value else mret (num_lit 1));
  image ← pop_value;
  spriteNum ← pop_value;
  emit_event (ConsoleThen "createSprite" [spriteNum; image; frames] CbResume).

Definition sys_SPOFS : M unit :=
  y ← pop_value;
  x ← pop_value;
  spriteNum ← pop_value;
  emit_event (ConsoleCall "offsetSprite" [spriteNum; x; y]).

Definition sys_SPSCALE : M unit :=
  scaleY ← pop_value;
  scaleX ← pop_value;
  spriteNum ← pop_value;
  emit_event (ConsoleCall "scaleSprite" [spriteNum; scaleX; scaleY]).

Definition sys_SPROT : M unit :=
  angle ← pop_value;
  spriteNum ← pop_value;
  emit_event (ConsoleCall "rotateSprite" [spriteNum; angle]).

Definition sys_SPHOME : M unit :=
  homeY ← pop_value;
  homeX ← pop_value;
  spriteNum ← pop_value;
  emit_event (ConsoleCall "homeSprite" [spriteNum; homeX; homeY]).

Definition sys_SPHIDE : M unit :=
  spriteNum ← pop_value;
  emit_event (ConsoleCall "displaySprite" [spriteNum; VBool false]).

Definition sys_SPSHOW : M unit :=
  spriteNum ← pop_value;
  emit_event (ConsoleCall "displaySprite" [spriteNum; VBool true]).

Definition sys_SPANIM : M unit :=
  argCount ← pop;
  loop ← (if js_relop Gt argCount (num_lit 3)
          then (v ← pop_value; mret (VBool (strict_eq v (num_lit (-1)))))
          else mret (VBool true));
  stopFrame ← pop_value;
  startFrame ← pop_value;
  spriteNum ← pop_value;
  emit_event (ConsoleCall "animateSprite" [spriteNum; startFrame; stopFrame; loop]).

Definition sys_SPCLR : M unit :=
  spriteNum ← pop_value;
  emit_event (ConsoleCall "clearSprite" [spriteNum]).

Definition SystemSubroutines : list (string * M unit) :=
  [ ("BEEP", sys_BEEP); ("CLS", sys_CLS); ("RANDOMIZE", sys_RANDOMIZE);
    ("PLAY", sys_PLAY); ("BGMPLAY", sys_BGMPLAY); ("BGMSTOP", sys_BGMSTOP);
    ("SLEEP", sys_SLEEP); ("SYSTEM", sys_SYSTEM);
    ("print_using", sys_print_using); ("LOCATE", sys_LOCATE);
    ("COLOR", sys_COLOR); ("READ", sys_READ); ("SCREEN", sys_SCREEN);
    ("INPUT", sys_INPUT); ("SWAP", sys_SWAP); ("WIDTH", sys_WIDTH);
    ("YIELD", sys_YIELD); ("SPSET", sys_SPSET); ("SPOFS", sys_SPOFS);
    ("SPSCALE", sys_SPSCALE); ("SPROT", sys_SPROT); ("SPHOME", sys_SPHOME);
    ("SPHIDE", sys_SPHIDE); ("SPSHOW", sys_SPSHOW); ("SPANIM", sys_SPANIM);
    ("SPCLR", sys_SPCLR) ].

(** The subroutines that call [vm.suspend()]. *)
Definition suspends (name : string) : bool :=
  bool_decide (name ∈ ["PLAY"; "SLEEP"; "INPUT"; "YIELD"; "SPSET"]).

(** [table[name]] *)
Fixpoint table_lookup (name : string) (table : list (string * M unit))
    : option (M unit) :=
  match table with
  | [] => None
  | (n, action) :: rest =>
      if String.eqb name n then Some action else table_lookup name rest
  end.

End Syscalls.
(** ** Instructions *)

Definition new_frame (ret : nat) : M StackFrame := λ vm,
  Ret {| sf_pc := ret; sf_variables := length (varmaps vm) |}
      (set_varmaps (varmaps vm ++ [∅]) vm).

(** [vm.stack.length -= 3]: an array length cannot become negative. *)
Definition drop3 : M unit := λ vm,
  match stack vm with
  | _ :: _ :: _ :: rest => Ret () (set_stack rest vm)
  | _ => Throw (JsError RangeError) vm
  end.

(** [vm.stack[vm.stack.length - 1 - k]] *)
Definition peek (k : nat) : M val :=
  get (λ vm, default VUndefined (stack vm !! k)).

Definition relational (op : relop) : M unit :=
  rhs ← pop;
  lhs ← pop;
  push (basic_bool (js_relop op lhs rhs)).

Definition arithmetic (op : binop) : M unit :=
  rhs ← pop;
  lhs ← pop;
  push (js_binop op lhs rhs).

(** [vm.stack.push(vm.stack.pop() op vm.stack.pop())] *)
Definition arithmetic_in_pop_order (op : binop) : M unit :=
  a ← pop;
  b ← pop;
  push (js_binop op a b).

Definition division (op : binop) : M unit :=
  rhs ← pop;
  (if strict_eq rhs (num_lit 0)
   then throw (RuntimeError DIVISION_BY_ZERO "Division by zero" None)
   else mret ());;
  lhs ← pop;
  push (js_binop op lhs rhs).

(** The loop of ARRAY_DEREF, [n] being [variable.dimensions.length]. *)
Fixpoint pop_indexes (n : nat) (indexes : list val) : M (list val) :=
  match n with
  | 0 => mret indexes
  | S n' =>
      index ← pop;
      (if strict_eq index VUndefined
       then throw (RuntimeError STACK_UNDERFLOW "Stack underflow" None)
       else mret ());;
      pop_indexes n' (index :: indexes)
  end.

Definition array_deref (arg : val) : M unit :=
  variable ← pop;
  match variable with
  | VUndefined | VNull | VBool _ | VNum _ | VStr _ => throw (JsError TypeError)
  | VType _ => abort_with OutsideModel
  | VObj a =>
      o ← lookup_object a;
      match o with
      | ScalarVariable _ _ => throw (JsError TypeError)
      | UserRecord f =>
          match f !! "dimensions" with
          | None => throw (JsError TypeError)
          | Some _ => abort_with OutsideModel
          end
      | ArrayVariable _ dims cells =>
          indexes ← pop_indexes (length dims) [];
          let cell :=
            match array_index dims indexes ≫= (cells !!.) with
            | Some c => VObj c
            | None => VUndefined
            end in
          if truthy arg then push cell
          else (v ← get_value cell; push v)
      end
  end.

(** [for (i = 0; i < numDimensions; i++)] of [alloc_array]. *)
Fixpoint pop_dimensions (fuel : nat) (count : val) (i : nat)
    (dims : list (val * val)) : M (list (val * val)) :=
  match fuel with
  | 0 => abort_with OutOfFuel
  | S fuel' =>
      if js_relop Lt (num_of_nat i) count then
        upper ← pop;
        lower ← pop;
        pop_dimensions fuel' count (S i) ((lower, upper) :: dims)
      else mret dims
  end.

(** Modelled from the spec: the constructor of ArrayVariable, in the module
    [Types] that is not among the sources: "backing store of length
    ∏(upper−lower+1) initialized to the type's default". *)
Fixpoint alloc_cells (n : nat) (type : val) (cells : list nat) : M (list nat) :=
  match n with
  | 0 => mret cells
  | S n' =>
      inst ← call_createInstance type;
      c ← alloc (ScalarVariable type inst);
      match c with
      | VObj a => alloc_cells n' type (cells ++ [a])
      | _ => abort_with OutsideModel
      end
  end.

Definition new_ArrayVariable (type : val) (dims : list (val * val)) : M val :=
  cells ← alloc_cells (array_length dims) type [];
  alloc (ArrayVariable type dims cells).

Definition syscall (fuel : nat) (arg : string) : M unit :=
  if String.eqb arg "print" then
    what ← pop;
    emit_event (ConsoleCall "print" [VStr (js_to_string what)])
  else if String.eqb arg "alloc_array" then
    type ← pop;
    numDimensions ← pop;
    dimensions ← pop_dimensions fuel numDimensions 0 [];
    variable ← new_ArrayVariable type dimensions;
    push variable
  else if String.eqb arg "print_comma" then
    print_to_next_zone fuel
  else if String.eqb arg "print_tab" then
    v ← pop;
    x ← read_host "cons.x";
    spaces ← lift_abort (tab_spaces fuel x (js_binop Sub v (num_lit 1)) "");
    emit_event (ConsoleCall "print" [VStr spaces])
  else if String.eqb arg "alloc_scalar" then
    type ← pop;
    inst ← call_createInstance type;
    variable ← alloc (ScalarVariable type inst);
    push variable
  else
    match table_lookup arg (SystemFunctions fuel) with
    | Some action => action
    | None =>
        if bool_decide (arg ∈ object_prototype_keys) then
          (* SystemFunctions[arg] is a function of the host, without an
             [action] to call *)
          throw (JsError TypeError)
        else
          match table_lookup arg (SystemSubroutines fuel) with
          | Some action => action
          | None =>
              throw (RuntimeError UKNOWN_SYSCALL ("Unknown syscall: " ++ arg) None)
          end
    end.

(** [instr.execute(vm, arg)] for each entry of [Instructions]. *)
Definition execute (fuel : nat) (i : instr) : M unit :=
  match i with
  | FORLOOP arg =>
      counter ← peek 0;
      step ← peek 1;
      end_ ← peek 2;
      if (js_relop Lt step (num_lit 0) && js_relop Lt counter end_)
         || (js_relop Gt step (num_lit 0) && js_relop Gt counter end_)
      then drop3;; modify (set_pc arg)
      else pop;; mret ()
  | COPYTOP =>
      top ← peek 0;
      push top
  | RESTORE arg => modify (set_dataPtr arg)
  | POPVAL arg =>
      variable ← getVariable arg;
      v ← pop;
      set_value variable v
  | POP => pop;; mret ()
  | PUSHREF arg =>
      variable ← getVariable arg;
      push variable
  | PUSHVALUE arg =>
      variable ← getVariable arg;
      v ← get_value variable;
      push v
  | PUSHTYPE arg =>
      t ← lookup_type arg;
      push t
  | POPVAR arg =>
      v ← pop;
      setVariable arg v
  | NEW arg =>
      type ← lookup_type arg;
      match type with
      | VUndefined => throw (JsError TypeError)
      | _ =>
          v ← pop;
          c ← call_copy type v;
          scalar ← alloc (ScalarVariable type c);
          push scalar
      end
  | END =>
      n ← get (λ vm, length (instructions vm));
      modify (set_pc n)
  | UNARY_OP arg =>
      rhs ← pop;
      push (if String.eqb arg "NOT" then js_unop BitNot rhs else VUndefined)
  | OP_EQ =>
      a ← pop;
      b ← pop;
      push (basic_bool (strict_eq a b))
  | OP_LT => relational Lt
  | OP_LE => relational Le
  | OP_GT => relational Gt
  | OP_GE => relational Ge
  | OP_NE =>
      a ← pop;
      b ← pop;
      push (basic_bool (negb (strict_eq a b)))
  | AND => arithmetic_in_pop_order BitAnd
  | OR => arithmetic_in_pop_order BitOr
  | OP_ADD => arithmetic Add
  | OP_SUB => arithmetic Sub
  | OP_MUL => arithmetic_in_pop_order Mul
  | OP_DIV => division Div
  | MOD => division Rem
  | BZ arg =>
      expr ← pop;
      if truthy expr then mret () else modify (set_pc arg)
  | BNZ arg =>
      expr ← pop;
      if truthy expr then modify (set_pc arg) else mret ()
  | JMP arg => modify (set_pc arg)
  | CALL arg =>
      ret ← get pc;
      f ← new_frame ret;
      modify (set_frame (Some f));;
      modify (λ vm, set_callstack (callstack vm ++ [f]) vm);;
      modify (set_pc arg)
  | GOSUB arg =>
      get frame ≫= λ old : option StackFrame,
      match old with
      | None => throw (JsError TypeError)
      | Some caller =>
          ret ← get pc;
          (* the empty map the constructor builds is replaced at once *)
          let f := {| sf_pc := ret; sf_variables := sf_variables caller |} in
          modify (set_frame (Some f));;
          modify (λ vm, set_callstack (callstack vm ++ [f]) vm);;
          modify (set_pc arg)
      end
  | RET =>
      get callstack ≫= λ cs : list StackFrame,
      match last cs with
      | None => throw (RuntimeError STACK_UNDERFLOW "Stack underflow" None)
      | Some returnAddr =>
          modify (set_callstack (removelast cs));;
          modify (set_pc (sf_pc returnAddr));;
          modify (set_frame (last (removelast cs)))
      end
  | PUSHCONST arg => push arg
  | ARRAY_DEREF arg => array_deref arg
  | MEMBER_DEREF arg =>
      userVariable ← pop;
      deref ← get_member userVariable arg;
      push deref
  | MEMBER_VALUE arg =>
      userVariable ← pop;
      deref ← get_member userVariable arg;
      v ← get_value deref;
      push v
  | ASSIGN =>
      lhs ← pop;
      rhs ← pop;
      t ← get_type lhs;
      c ← call_copy t rhs;
      set_value lhs c
  | SYSCALL arg => syscall fuel arg
  end.
(** ** The dispatch loop *)

Definition runOneInstruction (fuel : nat) : M unit :=
  (* let instr = this.instructions[this.pc++] *)
  i ← get (λ vm, instructions vm !! pc vm);
  modify (λ vm, set_pc (S (pc vm)) vm);;
  try_catch
    match i with
    | None => throw (JsError TypeError)   (* instr is undefined *)
    | Some ins => execute fuel (instr_of ins)
    end
    (λ e,
      match e, i with
      | RuntimeError code message _, Some ins =>
          throw (RuntimeError code message (Some (locus_of ins)))
      | _, _ => mret ()
      end).

(** [while (this.pc < this.instructions.length) { this.runOneInstruction() }];
    [steps] bounds the number of iterations. *)
Fixpoint run_loop (steps fuel : nat) : M unit :=
  match steps with
  | 0 => abort_with OutOfFuel
  | S steps' => λ vm,
      if (pc vm <? length (instructions vm))%nat
      then (runOneInstruction fuel;; run_loop steps' fuel) vm
      else Ret () vm
  end.

(** The loop of [runSome]; [n] counts the iterations that are left of the
    [instructionsPerInterval]. *)
Fixpoint runSome_loop (fuel n : nat) : M unit :=
  match n with
  | 0 => mret ()
  | S n' => λ vm,
      if (pc vm <? length (instructions vm))%nat && negb (suspended vm)
      then (runOneInstruction fuel;; runSome_loop fuel n') vm
      else Ret () vm
  end.

Definition runSome (fuel : nat) : M unit :=
  try_catch
    (n ← get instructionsPerInterval; runSome_loop fuel n)
    (λ e, suspend;; emit_event (EmitError e));;
  get (λ vm, (pc vm =? length (instructions vm))%nat) ≫= λ at_end : bool,
  if at_end then (i ← get interval; emit_event (ClearInterval i)) else mret ().

Definition reset (program : option QBasicProgram) : M unit :=
  match program with
  | Some p => modify (set_program p)
  | None => mret ()
  end;;
  modify (set_stack []);;
  modify (set_callstack []);;
  n ← get (λ vm, length (instructions vm));
  f ← new_frame n;
  modify (set_callstack [f]);;
  modify (set_frame (Some f));;
  modify (set_dataPtr 0);;
  modify (set_suspended false);;
  get interval ≫= (λ i : option nat,
    match i with
    | Some id =>
        (* window.clearInterval(this.interval) *)
        match host_window with
        | Some true => emit_event (ClearInterval (Some id));; modify (set_interval None)
        | Some false => throw (JsError TypeError)
        | None => throw (JsError ReferenceError)
        end
    | None => mret ()
    end);;
  modify (set_pc 0);;
  emit_event (ConsoleCall "reset"
                match program with
                | Some p => [VBool (prog_testMode p)]
                | None => []
                end).

Definition run (steps fuel : nat) (program : QBasicProgram) (synchronous : bool)
    : M unit :=
  reset (Some program);;
  modify (set_asynchronous (negb synchronous));;
  if synchronous then
    try_catch (run_loop steps fuel) (λ e, emit_event (EmitError e))
  else start_interval.

Definition resume (fuel : nat) : M unit :=
  modify (set_suspended false);;
  get asynchronous ≫= λ asyn : bool,
  if asyn then runSome fuel;; start_interval else mret ().

(** What the callbacks registered by INPUT, SLEEP, PLAY, YIELD and SPSET
    do when the host calls them. *)
Definition host_callback (fuel : nat) (cb : callback num) (result : val) : M unit :=
  match cb with
  | CbResume => resume fuel
  | CbInput target => set_value target result;; resume fuel
  | CbKeyResume =>
      emit_event (ConsoleCall "onKey" [num_lit (-1); VUndefined]);;
      resume fuel
  end.

End Machine.

(** * The token loop of the GLR parser *)

Module GlrParser.

Record Token := { id : string; text : string; locus : Locus }.

Section Parse.

(** The graph-structured stack ([stackTops], [nextTops] and the nodes they
    reach) and the operations of the parser on it are parameters here: the
    loop of [parse] only calls them. *)
Variable graph : Type.
Variable ast : Type.
(** [this.tokenizer.nextToken(line, position)]; [None] is [null].  The
    tokenizer is not among the sources. *)
Variable nextToken : nat → nat → option Token.
(** [token === this.tokenizer.EOF_TOKEN] *)
Variable is_EOF : Token → bool.
(** [for (i ...) this.reduceAll(this.stackTops[i], token)] *)
Variable reduce_tops : Token → graph → graph.
(** [for (i ...) this.shift(this.stackTops[i], token)] *)
Variable shift_tops : Token → graph → graph.
(** [this.nextTops.length === 0] *)
Variable nextTops_empty : graph → bool.
(** [this.stackTops = this.nextTops; this.nextTops = []] *)
Variable advance : graph → graph.
(** The symbols [printExpected(this.stackTops)] reports. *)
Variable expected : graph → list string.
(** The value of the first accepting node of [stackTops], if there is one. *)
Variable accepted : graph → option ast.
(** [sprintf('%s: %s', token.locus, token)] *)
Variable show_token : Token → string.
(** [text.length], in the code units of the host's strings. *)
Variable text_length : string → nat.

(** [line = token.locus.line] and
    [position = token.locus.position + token.text.length] *)
Definition next_line (token : Token) : nat := line (locus token).
Definition next_position (token : Token) : nat :=
  position (locus token) + text_length (text token).

(** [sprintf('Bad character at at %s:%s', line + 1, position + 1)] *)
Definition bad_character (line position : nat) : string :=
  "Bad character at at " ++ pretty (line + 1) ++ ":" ++ pretty (position + 1).

(** [sprintf('Syntax error at %s: %s', token.locus, token)] *)
Definition syntax_error (token : Token) : string :=
  "Syntax error at " ++ show_token token.

Definition printExpected (g : graph) : list string :=
  map (λ symbol, "    " ++ symbol) (expected g).

(** The loop [for (;;)] of [parse]: the graph and the error list when the
    loop is left.  [fuel] bounds the number of tokens. *)
Fixpoint parse_loop (fuel : nat) (line position : nat) (g : graph)
    (errors : list string) : option (graph * list string) :=
  match fuel with
  | 0 => None
  | S fuel' =>
      match nextToken line position with
      | None => Some (g, (errors ++ [bad_character line position])%list)
      | Some token =>
          let g1 := shift_tops token (reduce_tops token g) in
          if is_EOF token then Some (reduce_tops token g1, errors)
          else if nextTops_empty g1 then
            Some (g1, (errors ++ [syntax_error token;
                                  "Expected one of the following:"]
                              ++ printExpected g1)%list)
          else
            parse_loop fuel' (next_line token) (next_position token) (advance g1) errors
      end
  end.

(** [parse]: the value returned and the error list left in [this.errors]. *)
Definition parse (fuel : nat) (initial : graph) : option (option ast * list string) :=
  match parse_loop fuel 0 0 initial [] with
  | None => None
  | Some (g, errors) =>
      match accepted g with
      | Some tree => Some (Some tree, errors)
      | None =>
          Some (None, (errors ++ ["Expected one of the following:"]
                              ++ printExpected g)%list)
      end
  end.

End Parse.
(** ** The nodes of the graph-structured stack *)

(** A node is referred to by its address.  [GlrShiftNode] is the record of
    a shift node; [sn_parents] holds the addresses of its parents. *)
Record GlrShiftNode := {
  sn_locus : Locus;
  sn_text : string;
  sn_state : nat;
  sn_parents : list nat;
}.

(** [addParent] of a shift or reduce node, on its [parents]: the node is
    appended unless it is there, and the answer says whether it was. *)
Definition addParent (node : nat) (parents : list nat) : bool * list nat :=
  if bool_decide (node ∈ parents) then (false, parents)
  else (true, (parents ++ [node])%list).

(** [findNode(tops, state)]: the first node of [tops] in that state, with
    its index. *)
Definition findNode (tops : list GlrShiftNode) (state : nat)
    : option (nat * GlrShiftNode) :=
  list_find (λ n, sn_state n = state) tops.

(** [ancestors(paths, v, k)]: [parents] gives the [parents] array of every
    node. *)
Fixpoint ancestors (parents : nat → list nat) (paths : list nat) (v : nat)
    (k : nat) : list nat :=
  match k with
  | 0 => (paths ++ [v])%list
  | S k' => foldl (λ paths p, ancestors parents paths p k') paths (parents v)
  end.

(** [shift(node, symbol)] on [nextTops].  [computeNext] is the transition
    function of the automaton ([None] where there is no transition),
    [node_state] is [node.state], and [here] is [this.locus]. *)
Definition shift (computeNext : nat → string → option nat) (here : Locus)
    (node node_state : nat) (symbol : Token) (nextTops : list GlrShiftNode)
    : list GlrShiftNode :=
  match computeNext node_state (id symbol) with
  | Some nextState =>
      match findNode nextTops nextState with
      | Some (i, nextNode) =>
          <[i := {| sn_locus := sn_locus nextNode; sn_text := sn_text nextNode;
                    sn_state := sn_state nextNode;
                    sn_parents := (addParent node (sn_parents nextNode)).2 |}]> nextTops
      | None =>
          (nextTops ++ [{| sn_locus := here; sn_text := text symbol;
                           sn_state := nextState; sn_parents := [node] |}])%list
      end
  | None => nextTops
  end.

(** [for (i = 0; i < this.stackTops.length; i++) this.shift(this.stackTops[i], token)];
    a stack top is given by its address and its state. *)
Definition shift_all (computeNext : nat → string → option nat) (here : Locus)
    (stackTops : list (nat * nat)) (symbol : Token) (nextTops : list GlrShiftNode)
    : list GlrShiftNode :=
  foldl (λ tops top, shift computeNext here top.1 top.2 symbol tops) nextTops stackTops.

(** A node [k] steps of [parents] away from [v]. *)
Inductive reaches (parents : nat → list nat) : nat → nat → nat → Prop :=
| reaches_here v : reaches parents 0 v v
| reaches_up k v p a :
    p ∈ parents v → reaches parents k p a → reaches parents (S k) v a.

(** [tops] is what shifting [symbol] from the stack tops [processed] must
    give: one node for every state reached, whose parents are the stack
    tops that reach it, each once. *)
Definition shifted (computeNext : nat → string → option nat) (symbol : Token)
    (processed : list (nat * nat)) (tops : list GlrShiftNode) : Prop :=
  NoDup (sn_state <$> tops) ∧
  (∀ s, s ∈ sn_state <$> tops
        ↔ ∃ top, top ∈ processed ∧ computeNext top.2 (id symbol) = Some s) ∧
  (∀ n, n ∈ tops →
        sn_text n = text symbol ∧ NoDup (sn_parents n) ∧
        ∀ p, p ∈ sn_parents n
             ↔ ∃ top, top ∈ processed ∧ top.1 = p ∧
                      computeNext top.2 (id symbol) = Some (sn_state n)).

(** ** The states of the LR(0) automaton *)

(** A rule of the grammar, with the fields the parser reads: [id], [name]
    (the non-terminal it defines) and [symbols] (its right-hand side, where
    a terminal is written between quotes). *)
Record Rule := { rule_id : nat; rule_name : string; rule_symbols : list string }.

Record GlrItem := { item_rule : Rule; item_position : nat }.

(** [this.key = 'r' + this.rule.id + '_' + this.position] *)
Definition item_key (item : GlrItem) : string :=
  "r" ++ pretty (rule_id (item_rule item)) ++ "_" ++ pretty (item_position item).

(** A state: [items] by key, [itemCount], [reductions] and [accept] (which
    is not set, hence not true, in a new state).  The fields [id] and
    [next] are not used when items are added. *)
Record GlrState := {
  items : gmap string GlrItem;
  itemCount : nat;
  reductions : list Rule;
  accept : bool;
}.

Definition GlrState_new : GlrState :=
  {| items := ∅; itemCount := 0; reductions := []; accept := false |}.

(** [symbol[0] == "'"] *)
Definition is_terminal (symbol : string) : bool :=
  match symbol with
  | String c _ => Ascii.eqb c "'"
  | EmptyString => false
  end.

Section Closure.

(** [this.ruleSet.rules[ruleName]], [None] where it is undefined. *)
Variable rules : string → option (list Rule).

(** The loop of [addNonTerminalToState], [add] being [addRuleToState] at
    position 0. *)
Fixpoint add_each (add : GlrState → Rule → option (GlrState + JsErrorKind))
    (rs : list Rule) (state : GlrState) : option (GlrState + JsErrorKind) :=
  match rs with
  | [] => Some (inl state)
  | r :: rs' =>
      match add state r with
      | Some (inl state') => add_each add rs' state'
      | other => other
      end
  end.

(** [addRuleToState(state, rule, position)]: the state it leaves, or the
    TypeError it runs into.  [fuel] bounds the depth of the calls. *)
Fixpoint addRuleToState (fuel : nat) (state : GlrState) (rule : Rule)
    (position : nat) : option (GlrState + JsErrorKind) :=
  match fuel with
  | 0 => None
  | S fuel' =>
      let item := {| item_rule := rule; item_position := position |} in
      let key := item_key item in
      match items state !! key with
      | Some _ => Some (inl state)
      | None =>
          let state :=
            {| items := <[key := item]> (items state);
               itemCount := S (itemCount state);
               reductions := reductions state; accept := accept state |} in
          if (position =? length (rule_symbols rule))%nat then
            Some (inl {| items := items state; itemCount := itemCount state;
                         reductions := (reductions state ++ [rule])%list;
                         accept := if String.eqb (rule_name rule) "_start"
                                   then true else accept state |})
          else
            match rule_symbols rule !! position with
            | None => Some (inr TypeError)
            | Some symbol =>
                if is_terminal symbol then Some (inl state)
                else
                  (* this.addNonTerminalToState(state, symbol) *)
                  match rules symbol with
                  | None => Some (inr TypeError)
                  | Some rs =>
                      add_each (λ state r, addRuleToState fuel' state r 0) rs state
                  end
            end
      end
  end.

Definition addNonTerminalToState (fuel : nat) (state : GlrState)
    (ruleName : string) : option (GlrState + JsErrorKind) :=
  match rules ruleName with
  | None => Some (inr TypeError)
  | Some rs => add_each (λ state r, addRuleToState fuel state r 0) rs state
  end.

(** The non-terminal after the dot of an item, if there is one. *)
Definition next_nonterminal (item : GlrItem) : option string :=
  match rule_symbols (item_rule item) !! item_position item with
  | Some symbol => if is_terminal symbol then None else Some symbol
  | None => None
  end.

(** The dot of the item is at the end of its rule. *)
Definition complete (item : GlrItem) : Prop :=
  item_position item = length (rule_symbols (item_rule item)).

(** The rules of the non-terminal after the dot of [item] are in [state],
    at position 0. *)
Definition expanded (state : GlrState) (item : GlrItem) : Prop :=
  ∀ symbol rs r,
    next_nonterminal item = Some symbol → rules symbol = Some rs → r ∈ rs →
    is_Some (items state !! item_key {| item_rule := r; item_position := 0 |}).

(** Every item of the state is expanded in it. *)
Definition closed (state : GlrState) : Prop :=
  ∀ key item, items state !! key = Some item → expanded state item.

(** What the fields of a state say of each other: an item sits at its key,
    [itemCount] counts the items, [reductions] lists the rules of the
    complete items, each once, and [accept] tells whether a rule [_start]
    is among them. *)
Definition consistent (state : GlrState) : Prop :=
  (∀ key item, items state !! key = Some item → key = item_key item) ∧
  itemCount state = size (items state) ∧
  NoDup (reductions state) ∧
  (∀ rule, rule ∈ reductions state
           ↔ ∃ key item, items state !! key = Some item ∧ complete item ∧
                         item_rule item = rule) ∧
  (accept state = true
   ↔ ∃ key item, items state !! key = Some item ∧ complete item ∧
                 rule_name (item_rule item) = "_start").

(** [item'] is [item], or comes from it by replacing, any number of times,
    an item by a rule of the non-terminal after its dot, at position 0. *)
Inductive derives : GlrItem → GlrItem → Prop :=
| derives_refl item : derives item item
| derives_step item symbol rs r item' :
    next_nonterminal item = Some symbol → rules symbol = Some rs → r ∈ rs →
    derives {| item_rule := r; item_position := 0 |} item' →
    derives item item'.

(** The keys of the items at position 0 of the rules of [grammar] that
    [state] does not hold. *)
Definition missing (grammar : list Rule) (state : GlrState) : gset string :=
  list_to_set (map (λ r, item_key {| item_rule := r; item_position := 0 |}) grammar)
  ∖ dom (items state).

End Closure.

End GlrParser.
(** * The trace buffer *)

Module TraceBuffer.

Definition MAX_LINES : nat := 200.

(** [this.lines.join('')] *)
Definition toString (lines : list string) : string := String.concat "" lines.

(** [printf]: [str] is the line [sprintf] has made of the arguments; the
    line is appended, and the oldest line is dropped when there are more
    than [MAX_LINES]. *)
Definition printf (str : string) (lines : list string) : list string :=
  let lines := (lines ++ [str])%list in
  if (MAX_LINES <? length lines)%nat then tail lines else lines.

End TraceBuffer.


(** * A host to run examples on

    Numbers are exact rationals, with [None] for NaN.  The conversions
    and built-ins cover what the examples below use. *)

Module ExampleHost.

Definition Q := QArith_base.Q.
Definition qnum : Type := option Q.

Definition q_of_Z (z : Z) : qnum := Some (QArith_base.inject_Z z).

Definition q_eqb (a b : qnum) : bool :=
  match a, b with
  | Some x, Some y => QArith_base.Qeq_bool x y
  | _, _ => false
  end.

Definition q_truthy (a : qnum) : bool :=
  match a with
  | Some x => negb (QArith_base.Qeq_bool x (QArith_base.inject_Z 0))
  | None => false
  end.

Definition q_to_number (v : value qnum) : qnum :=
  match v with
  | VUndefined => None
  | VNull => q_of_Z 0
  | VBool b => q_of_Z (if b then 1 else 0)
  | VNum n => n
  | VStr s => if String.eqb s "" then q_of_Z 0 else None
  | VObj _ | VType _ => None
  end.

Definition q_trunc (q : Q) : Z :=
  Z.quot (QArith_base.Qnum q) (Z.pos (QArith_base.Qden q)).

Definition q_int32 (a : qnum) : Z :=
  match a with
  | None => 0
  | Some q => ((q_trunc q + 2 ^ 31) mod 2 ^ 32 - 2 ^ 31)%Z
  end.

Definition q_to_string (v : value qnum) : string :=
  match v with
  | VUndefined => "undefined"
  | VNull => "null"
  | VBool b => if b then "true" else "false"
  | VNum None => "NaN"
  | VNum (Some q) => pretty (q_trunc q)
  | VStr s => s
  | VObj _ | VType _ => "[object Object]"
  end.

Definition is_string (v : value qnum) : bool :=
  match v with VStr _ | VObj _ | VType _ => true | _ => false end.

Definition q_binop (op : binop) (a b : value qnum) : value qnum :=
  let arith f :=
    match q_to_number a, q_to_number b with
    | Some x, Some y => VNum (f x y)
    | _, _ => VNum None
    end in
  let nonzero f :=
    arith (λ x y, if QArith_base.Qeq_bool y (QArith_base.inject_Z 0) then None else f x y) in
  match op with
  | Add =>
      if is_string a || is_string b then VStr (q_to_string a ++ q_to_string b)
      else arith (λ x y, Some (Qreduction.Qred (QArith_base.Qplus x y)))
  | Sub => arith (λ x y, Some (Qreduction.Qred (QArith_base.Qminus x y)))
  | Mul => arith (λ x y, Some (Qreduction.Qred (QArith_base.Qmult x y)))
  | Div => nonzero (λ x y, Some (Qreduction.Qred (QArith_base.Qdiv x y)))
  | Rem =>
      nonzero (λ x y,
        Some (Qreduction.Qred
                (QArith_base.Qminus x
                   (QArith_base.Qmult y
                      (QArith_base.inject_Z (q_trunc (QArith_base.Qdiv x y)))))))
  | BitAnd => VNum (q_of_Z (Z.land (q_int32 (q_to_number a)) (q_int32 (q_to_number b))))
  | BitOr => VNum (q_of_Z (Z.lor (q_int32 (q_to_number a)) (q_int32 (q_to_number b))))
  end.

Definition q_relop (op : relop) (a b : value qnum) : bool :=
  match q_to_number a, q_to_number b with
  | Some x, Some y =>
      match op with
      | Lt => negb (QArith_base.Qle_bool y x)
      | Le => QArith_base.Qle_bool x y
      | Gt => negb (QArith_base.Qle_bool x y)
      | Ge => QArith_base.Qle_bool y x
      end
  | _, _ => false
  end.

Definition q_unop (op : unop) (a : value qnum) : value qnum :=
  match op with
  | BitNot => VNum (q_of_Z (Z.lnot (q_int32 (q_to_number a))))
  | Incr => q_binop Add (VNum (q_to_number a)) (VNum (q_of_Z 1))
  end.

Definition q_builtin (name : string) (args : list (value qnum))
    : value qnum + JsErrorKind :=
  match args with
  | VStr s :: rest =>
      if String.eqb name "length" then inl (VNum (q_of_Z (Z.of_nat (String.length s))))
      else inr TypeError
  | v :: rest =>
      if String.eqb name "Math.floor" then
        inl (VNum (match q_to_number v with
                   | Some q => q_of_Z (QArith_base.Qnum q / Z.pos (QArith_base.Qden q))
                   | None => None
                   end))
      else if String.eqb name "String.fromCharCode" then
        inl (VStr (String (ascii_of_nat (Z.to_nat (q_int32 (q_to_number v)))) ""))
      else inr TypeError
  | [] => inr TypeError
  end.

Definition q_input (what : string) (history : list (event qnum)) : value qnum :=
  if String.eqb what "Math.random" then VNum (Some (QArith_base.Qmake 1 2))
  else if String.eqb what "cons.getKeyFromBuffer" then VNum (q_of_Z (-1))
  else VNum (q_of_Z 0).

Definition host : JsHost :=
  {| num := qnum; num_of_Z := q_of_Z; num_eqb := q_eqb; num_truthy := q_truthy;
     js_binop := q_binop; js_relop := q_relop; js_unop := q_unop;
     js_to_string := q_to_string; js_builtin := q_builtin;
     host_input := q_input; host_window := Some true |}.

Definition extent (d : value qnum * value qnum) : nat :=
  match q_binop Sub (snd d) (fst d) with
  | VNum (Some q) => Z.to_nat (q_trunc q + 1)
  | _ => 0
  end.

Fixpoint row_major (dims : list (value qnum * value qnum))
    (indexes : list (value qnum)) (acc : nat) : option nat :=
  match dims, indexes with
  | [], [] => Some acc
  | d :: dims', i :: indexes' =>
      match q_binop Sub i (fst d) with
      | VNum (Some q) =>
          if (0 <=? q_trunc q)%Z && (Z.to_nat (q_trunc q) <? extent d)%nat
          then row_major dims' indexes' (acc * extent d + Z.to_nat (q_trunc q))
          else None
      | _ => None
      end
  | _, _ => None
  end.

Definition params : @RepoParams host :=
  @Build_RepoParams host
    (λ _ v h, (inl v, h))
    (λ dims, foldr (λ d n, extent d * n) 1 dims)
    (λ dims indexes, row_major dims indexes 0)
    (λ f _ _, inl (q_to_string f)).

#[local] Existing Instance host.
#[local] Existing Instance params.

(** Example programs and states. *)

Definition at_line (n : nat) (i : instr) : Instruction :=
  {| instr_of := i; locus_of := {| line := n; position := 0 |} |}.

(** The instructions [code], the first one compiled from line 1, the
    second from line 2, and so on. *)
Definition listing (code : list instr) : list Instruction :=
  imap (λ n i, at_line (S n) i) code.

Definition builtin_types : gmap string SomeType :=
  list_to_map [("INTEGER", ScalarType INTEGER); ("LONG", ScalarType LONG);
               ("SINGLE", ScalarType SINGLE); ("DOUBLE", ScalarType DOUBLE);
               ("STRING", ScalarType STRING)].

Definition program (code : list instr) (items : list val) (names : list string)
    : QBasicProgram :=
  {| prog_instructions := listing code; prog_types := builtin_types;
     prog_defaultType := ScalarType SINGLE; prog_data := items;
     prog_shared := list_to_set names; prog_testMode := false |}.

(** The state a computation leaves. *)
Definition state_of {A} (o : outcome A) : VirtualMachine :=
  match o with
  | Ret _ vm | Throw _ vm => vm
  | Abort _ => VirtualMachine_new false
  end.

(** The machine after [reset(program)]. *)
Definition loaded (p : QBasicProgram) : VirtualMachine :=
  state_of (reset (Some p) (VirtualMachine_new false)).

(** The machine in the middle of [READ x, y$, z%]: the three variables,
    their references and the argument count on the stack, above a value
    that belongs to the caller; the second data item is the null of
    [DATA 1,,3]. *)
Definition sample_data : list val := [num_lit 1; VNull; num_lit 3].

Definition sample_heap : list obj :=
  [ScalarVariable (VType (ScalarType SINGLE)) (num_lit 0);
   ScalarVariable (VType (ScalarType STRING)) (VStr "old");
   ScalarVariable (VType (ScalarType INTEGER)) (num_lit 0)].

Definition reading : VirtualMachine :=
  set_stack [num_lit 3; VObj 2; VObj 1; VObj 0; VStr "below"]
    (set_heap sample_heap (loaded (program [SYSCALL "READ"] sample_data []))).

(** [RND(7)], then the operands of [RND(0)], run in synchronous mode. *)
Definition dice : QBasicProgram :=
  program [PUSHCONST (num_lit 7); PUSHCONST (num_lit 1); SYSCALL "RND";
           PUSHCONST (num_lit 0); PUSHCONST (num_lit 1)] [] [].

Definition rolled : VirtualMachine :=
  Eval vm_compute in state_of (run 6 0 dice true (VirtualMachine_new false)).

(** [10 / 0] on line 3: the machine when the loop of [run] starts, and when
    it is left. *)
Definition crash : QBasicProgram :=
  program [PUSHCONST (num_lit 10); PUSHCONST (num_lit 0); OP_DIV; END] [] [].

Definition crash_start : VirtualMachine :=
  Eval vm_compute in
    state_of ((reset (Some crash);; modify (set_asynchronous false))
                (VirtualMachine_new false)).

Definition crash_stop : VirtualMachine :=
  Eval vm_compute in state_of (run_loop 6 0 crash_start).

Definition crash_error : exn :=
  RuntimeError DIVISION_BY_ZERO "Division by zero" (Some {| line := 3; position := 0 |}).

(** An assignment with nothing on the stack: [lhs] is [undefined] and
    [lhs.type] is a TypeError.  [started] is the machine after
    [run(sloppy, false)], before the first tick of the interval. *)
Definition sloppy : QBasicProgram := program [ASSIGN; END] [] [].

Definition started : VirtualMachine :=
  Eval vm_compute in state_of (run 0 0 sloppy false (VirtualMachine_new false)).

(** [SPSET] with nothing on the stack. *)
Definition sprite : QBasicProgram := program [SYSCALL "SPSET"; END] [] [].

(** The machine after the first tick of the interval on [started]. *)
Definition ticked : VirtualMachine :=
  Eval vm_compute in state_of (runSome 0 started).

(** The operands of [10 / 0] on the stack. *)
Definition by_zero : VirtualMachine :=
  set_stack [num_lit 0; num_lit 10] (loaded crash).

(** A subroutine at address 2, and the machine in it. *)
Definition with_sub : VirtualMachine := loaded (program [CALL 2; END; RET] [] []).

Definition in_sub : VirtualMachine :=
  Eval vm_compute in state_of (execute 0 (CALL 2) with_sub).

(** The machine of an empty program, and what the first use of [x%]
    makes of it. *)
Definition blank : VirtualMachine := loaded (program [] [] []).

Definition with_x : VirtualMachine :=
  set_varmaps [{["x%" := VObj 0]}]
    (set_heap [ScalarVariable (VType (ScalarType INTEGER)) (num_lit 0)] blank).

(** The machine [run(crash, true)] leaves. *)
Definition crash_end : VirtualMachine :=
  set_events (events crash_stop ++ [EmitError crash_error]) crash_stop.

(** [reading] with the data used up. *)
Definition read_out : VirtualMachine := set_dataPtr 3 reading.

(** A two-dimensional array with one index only on the stack. *)
Definition short_of_an_index : VirtualMachine :=
  set_stack [VObj 0; num_lit 1]
    (set_heap [ArrayVariable (VType (ScalarType INTEGER))
                 [(num_lit 0, num_lit 2); (num_lit 0, num_lit 2)] []] blank).

(** The references of [x] and [z%] of [sample_heap] on the stack. *)
Definition swapping : VirtualMachine :=
  set_stack [VObj 0; VObj 2] (set_heap sample_heap blank).

(** A program that starts with RET, loaded. *)
Definition ret_first : VirtualMachine :=
  Eval vm_compute in loaded (program [RET; END] [] []).

(** [INPUT x, y$]. *)
Definition asking : VirtualMachine :=
  set_stack [num_lit 2; VObj 1; VObj 0] (set_heap sample_heap blank).

(** A token of the text [?]. *)
Definition stray : GlrParser.Token :=
  {| GlrParser.id := "'?'"; GlrParser.text := "?";
     GlrParser.locus := {| line := 0; position := 0 |} |}.

(** A grammar of sums: [_start: sum], [sum: sum '+' term], [sum: term],
    [term: 'x'], and the first state of its automaton. *)
Definition r_start : GlrParser.Rule :=
  {| GlrParser.rule_id := 0; GlrParser.rule_name := "_start";
     GlrParser.rule_symbols := ["sum"] |}.
Definition r_plus : GlrParser.Rule :=
  {| GlrParser.rule_id := 1; GlrParser.rule_name := "sum";
     GlrParser.rule_symbols := ["sum"; "'+'"; "term"] |}.
Definition r_term : GlrParser.Rule :=
  {| GlrParser.rule_id := 2; GlrParser.rule_name := "sum";
     GlrParser.rule_symbols := ["term"] |}.
Definition r_x : GlrParser.Rule :=
  {| GlrParser.rule_id := 3; GlrParser.rule_name := "term";
     GlrParser.rule_symbols := ["'x'"] |}.

Definition sums : list GlrParser.Rule := [r_start; r_plus; r_term; r_x].

Definition sums_rules (name : string) : option (list GlrParser.Rule) :=
  if String.eqb name "_start" then Some [r_start]
  else if String.eqb name "sum" then Some [r_plus; r_term]
  else if String.eqb name "term" then Some [r_x]
  else None.

Definition start_state : GlrParser.GlrState :=
  Eval vm_compute in
    match GlrParser.addRuleToState sums_rules 6 GlrParser.GlrState_new r_start 0 with
    | Some (inl state) => state
    | _ => GlrParser.GlrState_new
    end.

End ExampleHost.

(** * Vocabulary of the properties *)

Section Vocabulary.
Context `{!JsHost} `{!RepoParams}.
Local Close Scope string_scope.

(** [m] relates the state it starts from to every state it can leave
    behind, whether it returns or throws. *)
Definition preserves {A} (R : relation VirtualMachine) (m : M A) : Prop :=
  ∀ vm, match m vm with
        | Ret _ vm' | Throw _ vm' => R vm vm'
        | Abort _ => True
        end.

(** The same, for the states [m] leaves behind when it throws. *)
Definition on_throw {A} (R : relation VirtualMachine) (m : M A) : Prop :=
  ∀ vm e vm', m vm = Throw e vm' → R vm vm'.

(** [m] never throws. *)
Definition no_throw {A} (m : M A) : Prop :=
  ∀ vm e vm', m vm ≠ Throw e vm'.

(** The value of a field is the same in both states. *)
Definition same {B} (field : VirtualMachine → B) : relation VirtualMachine :=
  λ vm vm', field vm' = field vm.

(** Relations between states that an assignment to a given field of the
    machine respects, one class per field that is ever assigned. *)
Class KeptByStack (R : relation VirtualMachine) : Prop :=
  kept_stack : ∀ x vm, R vm (set_stack x vm).
Class KeptByHeap (R : relation VirtualMachine) : Prop :=
  kept_heap : ∀ x vm, R vm (set_heap x vm).
Class KeptByVarmaps (R : relation VirtualMachine) : Prop :=
  kept_varmaps : ∀ x vm, R vm (set_varmaps x vm).
Class KeptByEvents (R : relation VirtualMachine) : Prop :=
  kept_events : ∀ x vm, R vm (set_events x vm).
(** The same for the two ways the event log grows outside the dispatch
    loop: a call recorded by a routine, which is not an ['error'] event,
    and a query to the host. *)
Definition is_error_event (e : event num) : bool :=
  match e with EmitError _ => true | _ => false end.
Class KeptByEmit (R : relation VirtualMachine) : Prop :=
  kept_emit : ∀ e, is_error_event e = false → preserves R (emit_event e).
Class KeptByRead (R : relation VirtualMachine) : Prop :=
  kept_read : ∀ what, preserves R (read_host what).
Class KeptByDataPtr (R : relation VirtualMachine) : Prop :=
  kept_dataPtr : ∀ x vm, R vm (set_dataPtr x vm).
Class KeptByCallstack (R : relation VirtualMachine) : Prop :=
  kept_callstack : ∀ x vm, R vm (set_callstack x vm).
Class KeptByFrame (R : relation VirtualMachine) : Prop :=
  kept_frame : ∀ x vm, R vm (set_frame x vm).
Class KeptByInterval (R : relation VirtualMachine) : Prop :=
  kept_interval : ∀ x vm, R vm (set_interval x vm).
Class KeptByPc (R : relation VirtualMachine) : Prop :=
  kept_pc : ∀ x vm, R vm (set_pc x vm).
Class KeptBySuspended (R : relation VirtualMachine) : Prop :=
  kept_suspended : ∀ x vm, R vm (set_suspended x vm).
Class KeptByAsynchronous (R : relation VirtualMachine) : Prop :=
  kept_asynchronous : ∀ x vm, R vm (set_asynchronous x vm).
Class KeptByProgram (R : relation VirtualMachine) : Prop :=
  kept_program : ∀ x vm, R vm (set_program x vm).

(** The event log has only grown, and not by an ['error'] event. *)
Definition no_error_emitted : relation VirtualMachine :=
  λ vm vm', ∃ new, events vm' = (events vm ++ new)%list ∧
                   Forall (λ e, is_error_event e = false) new.

(** The instruction that raised the error a loop of the machine lets
    through: it sits just before pc and the error carries its locus. *)
Definition raised_by (e : exn) (vm : VirtualMachine) : Prop :=
  ∃ ins code message,
    pc vm ≠ 0 ∧ instructions vm !! (pc vm - 1) = Some ins ∧
    e = RuntimeError code message (Some (locus_of ins)).

(** Every frame of the call stack refers to a [variables] object of the
    store. *)
Definition frames_wf (vm : VirtualMachine) : Prop :=
  ∀ f, f ∈ callstack vm → sf_variables f < length (varmaps vm).

(** The frame whose [variables] [getVariable] and [setVariable] use for a
    name: the main frame when [this.shared[name]] is truthy, the current
    frame otherwise. *)
Definition frame_of (name : string) (vm : VirtualMachine) : option StackFrame :=
  if is_shared name vm then callstack vm !! 0 else frame vm.

(** What a name is bound to in the [variables] object of a frame. *)
Definition bound_in (f : StackFrame) (name : string) (vm : VirtualMachine)
    : option val :=
  varmaps vm !! sf_variables f ≫= (.!! name).

(** [c] is the number [n], as far as a loop [for (i = 0; i < c; i++)] can
    tell. *)
Definition counts (c : val) (n : nat) : Prop :=
  ∀ i, i ≤ n → js_relop Lt (num_of_nat i) c = bool_decide (i < n).

(** [data[p]] *)
Definition data_at (vm : VirtualMachine) (p : nat) : val :=
  default VUndefined (data vm !! p).

(** What READ leaves in a variable of a scalar type for a data item: the
    item, or the default of the type for a null item. *)
Definition read_item (k : ScalarKind) (d : val) : val :=
  match d with
  | VNull => scalar_default k
  | _ => d
  end.

(** The store after the variables [vars] have received, one after the
    other, the data items from index [p] on. *)
Fixpoint read_into (vm : VirtualMachine) (vars : list nat) (p : nat)
    (h : list obj) : list obj :=
  match vars with
  | [] => h
  | a :: vars' =>
      match h !! a with
      | Some (ScalarVariable (VType (ScalarType k)) _) =>
          read_into vm vars' (S p)
            (<[a := ScalarVariable (VType (ScalarType k)) (read_item k (data_at vm p))]> h)
      | _ => h
      end
  end.

(** The reference [a] is a ScalarVariable of a scalar type. *)
Definition scalar_at (h : list obj) (a : nat) : Prop :=
  ∃ k old, h !! a = Some (ScalarVariable (VType (ScalarType k)) old).

(** The entry points of the machine: its public methods, the execution of
    one instruction, and the callbacks the host runs for it. *)
Inductive operation :=
| OpReset (program : option QBasicProgram)
| OpRun (steps : nat) (program : QBasicProgram) (synchronous : bool)
| OpSuspend
| OpResume
| OpRunSome
| OpRunOneInstruction
| OpSetVariable (name : string) (v : val)
| OpGetVariable (name : string)
| OpPushScalar (v : val) (typeName : string)
| OpExecute (i : instr)
| OpCallback (cb : callback num) (result : val).

Definition perform (fuel : nat) (op : operation) : M unit :=
  match op with
  | OpReset program => reset program
  | OpRun steps program synchronous => run steps fuel program synchronous
  | OpSuspend => suspend
  | OpResume => resume fuel
  | OpRunSome => runSome fuel
  | OpRunOneInstruction => runOneInstruction fuel
  | OpSetVariable name v => setVariable name v
  | OpGetVariable name => getVariable name;; mret ()
  | OpPushScalar v typeName => pushScalar v typeName
  | OpExecute i => execute fuel i
  | OpCallback cb result => host_callback fuel cb result
  end.

(** The states a machine can be in: the one its constructor builds, and
    every state an operation leaves behind, by returning or by throwing. *)
Inductive reachable : VirtualMachine → Prop :=
| reachable_new has_audio : reachable (VirtualMachine_new has_audio)
| reachable_ret fuel op vm vm' :
    reachable vm → perform fuel op vm = Ret () vm' → reachable vm'
| reachable_throw fuel op vm e vm' :
    reachable vm → perform fuel op vm = Throw e vm' → reachable vm'.

(** ** Vocabulary of the properties of the whole machine *)

(** Whatever [m] throws satisfies [P]. *)
Definition raises {A} (P : exn → Prop) (m : M A) : Prop :=
  ∀ vm e vm', m vm = Throw e vm' → P e.

(** [!(e instanceof RuntimeError)] *)
Definition not_runtime (e : exn) : Prop := is_RuntimeError e = false.

(** The operations that leave the loaded program alone: all but
    [reset(program)] and [run]. *)
Definition loads_no_program (op : operation) : Prop :=
  match op with
  | OpReset (Some _) | OpRun _ _ _ => False
  | _ => True
  end.

(** The operations that run the dispatch loop: [run], [runSome], and
    [resume] and the callbacks of the host, which call [runSome]. *)
Definition runs_the_loop (op : operation) : bool :=
  match op with
  | OpRun _ _ _ | OpResume | OpRunSome | OpCallback _ _ => true
  | _ => false
  end.

(** The program, and the mode it runs in, are the same in both states. *)
Definition same_program : relation VirtualMachine := λ vm vm',
  instructions vm' = instructions vm ∧ types vm' = types vm ∧
  shared vm' = shared vm ∧ data vm' = data vm ∧
  defaultType vm' = defaultType vm ∧ asynchronous vm' = asynchronous vm.

(** The second state is the first one but for the operand stack and for
    queries to the host added to the log. *)
Definition stack_and_queries_only : relation VirtualMachine := λ vm vm',
  vm' = set_events (events vm') (set_stack (stack vm') vm) ∧
  ∃ asked : list string, events vm' = (events vm ++ (HostRead <$> asked))%list.

(** A name is a key of neither table of system routines. *)
Definition unknown_syscall (fuel : nat) (name : string) : Prop :=
  (name ∉ ["print"; "alloc_array"; "print_comma"; "print_tab"; "alloc_scalar"]%string) ∧
  table_lookup name (SystemFunctions fuel) = None ∧
  table_lookup name (SystemSubroutines fuel) = None.

(** The RuntimeError an instruction can raise. *)
Definition error_of (fuel : nat) (i : instr) (e : exn) : Prop :=
  match i with
  | OP_DIV | MOD => e = RuntimeError DIVISION_BY_ZERO "Division by zero" None
  | RET | ARRAY_DEREF _ => e = RuntimeError STACK_UNDERFLOW "Stack underflow" None
  | SYSCALL name =>
      e = RuntimeError UKNOWN_SYSCALL ("Unknown syscall: " ++ name)%string None ∧
      unknown_syscall fuel name
  | _ => False
  end.

Definition may_raise (fuel : nat) (i : instr) (e : exn) : Prop :=
  not_runtime e ∨ error_of fuel i e.

(** A string of [n] spaces. *)
Fixpoint blanks (n : nat) : string :=
  match n with
  | 0 => ""
  | S n' => String " " (blanks n')
  end.

(** [this.frame] is the last frame of [this.callstack] (and undefined when
    the call stack is empty). *)
Definition frame_on_top (vm : VirtualMachine) : Prop :=
  frame vm = last (callstack vm).

(** A property of the state that, when it holds before, holds after. *)
Definition keeping (I : VirtualMachine → Prop) : relation VirtualMachine :=
  λ vm vm', I vm → I vm'.

(** The frames of the call stack and the current frame refer to
    [variables] objects of the store. *)
Definition frames_allocated (vm : VirtualMachine) : Prop :=
  frames_wf vm ∧ ∀ f, frame vm = Some f → sf_variables f < length (varmaps vm).

End Vocabulary.

(** * Properties *)

Section Properties.
Context `{!JsHost} `{!RepoParams}.
Local Close Scope string_scope.

Implicit Types (vm : VirtualMachine) (fuel : nat) (v : val).

(** ** Setters *)

(** Reading a field of a state that was built by assignments. *)
Ltac vm_norm :=
  repeat match goal with
    | |- context [stack (?set ?x ?vm)] =>
        first [ change (stack (set x vm)) with (stack vm) | change (stack (set x vm)) with x ]
    | |- context [pc (?set ?x ?vm)] =>
        first [ change (pc (set x vm)) with (pc vm) | change (pc (set x vm)) with x ]
    | |- context [callstack (?set ?x ?vm)] =>
        first [ change (callstack (set x vm)) with (callstack vm) | change (callstack (set x vm)) with x ]
    | |- context [instructions (?set ?x ?vm)] =>
        first [ change (instructions (set x vm)) with (instructions vm) | change (instructions (set x vm)) with x ]
    | |- context [types (?set ?x ?vm)] =>
        first [ change (types (set x vm)) with (types vm) | change (types (set x vm)) with x ]
    | |- context [shared (?set ?x ?vm)] =>
        first [ change (shared (set x vm)) with (shared vm) | change (shared (set x vm)) with x ]
    | |- context [dataPtr (?set ?x ?vm)] =>
        first [ change (dataPtr (set x vm)) with (dataPtr vm) | change (dataPtr (set x vm)) with x ]
    | |- context [data (?set ?x ?vm)] =>
        first [ change (data (set x vm)) with (data vm) | change (data (set x vm)) with x ]
    | |- context [asynchronous (?set ?x ?vm)] =>
        first [ change (asynchronous (set x vm)) with (asynchronous vm) | change (asynchronous (set x vm)) with x ]
    | |- context [suspended (?set ?x ?vm)] =>
        first [ change (suspended (set x vm)) with (suspended vm) | change (suspended (set x vm)) with x ]
    | |- context [interval (?set ?x ?vm)] =>
        first [ change (interval (set x vm)) with (interval vm) | change (interval (set x vm)) with x ]
    | |- context [instructionsPerInterval (?set ?x ?vm)] =>
        first [ change (instructionsPerInterval (set x vm)) with (instructionsPerInterval vm) | change (instructionsPerInterval (set x vm)) with x ]
    | |- context [lastRandomNumber (?set ?x ?vm)] =>
        first [ change (lastRandomNumber (set x vm)) with (lastRandomNumber vm) | change (lastRandomNumber (set x vm)) with x ]
    | |- context [defaultType (?set ?x ?vm)] =>
        first [ change (defaultType (set x vm)) with (defaultType vm) | change (defaultType (set x vm)) with x ]
    | |- context [frame (?set ?x ?vm)] =>
        first [ change (frame (set x vm)) with (frame vm) | change (frame (set x vm)) with x ]
    | |- context [audio (?set ?x ?vm)] =>
        first [ change (audio (set x vm)) with (audio vm) | change (audio (set x vm)) with x ]
    | |- context [heap (?set ?x ?vm)] =>
        first [ change (heap (set x vm)) with (heap vm) | change (heap (set x vm)) with x ]
    | |- context [varmaps (?set ?x ?vm)] =>
        first [ change (varmaps (set x vm)) with (varmaps vm) | change (varmaps (set x vm)) with x ]
    | |- context [events (?set ?x ?vm)] =>
        first [ change (events (set x vm)) with (events vm) | change (events (set x vm)) with x ]
    end.


Lemma bind_Ret {A B} (m : M A) (f : A → M B) vm a vm' :
  m vm = Ret a vm' → (m ≫= f) vm = f a vm'.
Proof. unfold mbind, M_bind. by intros ->. Qed.

Lemma bind_Throw {A B} (m : M A) (f : A → M B) vm e vm' :
  m vm = Throw e vm' → (m ≫= f) vm = Throw e vm'.
Proof. unfold mbind, M_bind. by intros ->. Qed.

Lemma bind_assoc {A B C} (m : M A) (f : A → M B) (g : B → M C) vm :
  ((m ≫= f) ≫= g) vm = (m ≫= λ a, f a ≫= g) vm.
Proof. unfold mbind, M_bind. by destruct (m vm). Qed.

Lemma try_catch_Throw {A} (body : M A) handler vm e vm' :
  body vm = Throw e vm' → try_catch body handler vm = handler e vm'.
Proof. unfold try_catch. by intros ->. Qed.

Lemma set_stack_same vm : set_stack (stack vm) vm = vm.
Proof. by destruct vm. Qed.

Lemma set_stack_set_stack (s1 s2 : list val) vm :
  set_stack s1 (set_stack s2 vm) = set_stack s1 vm.
Proof. done. Qed.

Lemma pop_cons v s vm : stack vm = v :: s → pop vm = Ret v (set_stack s vm).
Proof. unfold pop. by intros ->. Qed.

Lemma pop_nil vm : stack vm = [] → pop vm = Ret VUndefined vm.
Proof. unfold pop. by intros ->. Qed.

(** Popping gives the top of the stack, or [undefined], and leaves the
    rest. *)
Lemma pop_spec vm :
  pop vm = Ret (default VUndefined (stack vm !! 0)) (set_stack (drop 1 (stack vm)) vm).
Proof.
  unfold pop. destruct (stack vm) as [|v s] eqn:E; simpl.
  - by rewrite <- E, set_stack_same.
  - by rewrite drop_0.
Qed.

(** ** FORLOOP *)

(** C2.  [forloop] with the counter on top of the stack, the step below it
    and the end value below that: when (step > 0 and counter > end) or
    (step < 0 and counter < end) the three operands are popped and pc
    becomes the address argument; otherwise only the counter is popped,
    step and end stay where they are and pc is as it was.  Nothing else
    of the machine changes. *)
Theorem forloop_spec fuel (arg : nat) vm (counter step end_ : val) (rest : list val) :
  stack vm = counter :: step :: end_ :: rest →
  let finished :=
    (js_relop Gt step (num_lit 0) && js_relop Gt counter end_)
    || (js_relop Lt step (num_lit 0) && js_relop Lt counter end_) in
  (finished = true →
     execute fuel (FORLOOP arg) vm = Ret () (set_pc arg (set_stack rest vm))) ∧
  (finished = false →
     execute fuel (FORLOOP arg) vm = Ret () (set_stack (step :: end_ :: rest) vm)).
Proof.
  intros Hs finished. subst finished.
  rewrite orb_comm.
  unfold execute, peek, get, drop3, pop, modify, mbind, M_bind, mret, M_ret.
  rewrite Hs. simpl.
  split; intros ->; simpl; by rewrite ?Hs.
Qed.
(** ** Division *)

Lemma division_unfold fuel (op : binop) vm :
  division op vm =
    let rhs := default VUndefined (stack vm !! 0) in
    let lhs := default VUndefined (stack vm !! 1) in
    if strict_eq rhs (num_lit 0)
    then Throw (RuntimeError DIVISION_BY_ZERO "Division by zero" None)
               (set_stack (drop 1 (stack vm)) vm)
    else Ret () (set_stack (js_binop op lhs rhs :: drop 2 (stack vm)) vm).
Proof.
  unfold division, mbind, M_bind. rewrite pop_spec. simpl.
  destruct (strict_eq _ _); [done|].
  unfold mret, M_ret. rewrite pop_spec. simpl.
  unfold push, modify. simpl. rewrite set_stack_set_stack.
  by destruct (stack vm) as [|? [|? ?]].
Qed.

(** A value is strictly equal to the number zero exactly when it is a
    number that the host equates with zero. *)
Lemma strict_eq_zero v :
  strict_eq v (num_lit 0) = true ↔ ∃ n, v = VNum n ∧ num_eqb n (num_of_Z 0) = true.
Proof.
  split.
  - destruct v; simpl; try discriminate. eauto.
  - by intros (n & -> & ?).
Qed.

(** C5.  The instructions [/] and [MOD] raise a RuntimeError, with code
    DIVISION_BY_ZERO (101), if and only if the right-hand operand, popped
    first, is strictly equal to zero; when it is not, both operands are
    popped and the quotient (for [MOD] the remainder) of the left-hand
    operand by the right-hand one is pushed. *)
Theorem division_by_zero_iff fuel vm :
  let rhs := default VUndefined (stack vm !! 0) in
  let lhs := default VUndefined (stack vm !! 1) in
  let spec (i : instr) (op : binop) :=
    ((∃ code message locus vm',
        execute fuel i vm = Throw (RuntimeError code message locus) vm')
     ↔ strict_eq rhs (num_lit 0) = true) ∧
    (strict_eq rhs (num_lit 0) = true →
       ∃ vm', execute fuel i vm
              = Throw (RuntimeError DIVISION_BY_ZERO "Division by zero" None) vm') ∧
    (strict_eq rhs (num_lit 0) = false →
       execute fuel i vm
       = Ret () (set_stack (js_binop op lhs rhs :: drop 2 (stack vm)) vm)) in
  code_number DIVISION_BY_ZERO = 101%Z ∧ spec OP_DIV Div ∧ spec MOD Rem.
Proof.
  intros rhs lhs spec. split; [done|].
  assert (∀ i op, execute fuel i = division op → spec i op) as Hspec.
  { intros i op Hi. unfold spec. rewrite Hi, (division_unfold fuel). simpl.
    fold rhs lhs. destruct (strict_eq rhs (num_lit 0)).
    - split_and!; [split; eauto | eauto | done].
    - split_and!; [split; [intros (?&?&?&?&?)|] | |]; done. }
  split; by apply Hspec.
Qed.

(** ** RET *)

Lemma last_snoc_removelast {A} (l : list A) (x : A) :
  last (l ++ [x]) = Some x ∧ removelast (l ++ [x]) = l.
Proof. split; [apply last_snoc | apply removelast_last]. Qed.

(** C6.  [RET] on a non-empty call stack pops the top frame, sets pc to
    the return address of that frame and makes the new top of the call
    stack the current frame (there is none when the stack has become
    empty); on an empty call stack it raises a RuntimeError with code
    STACK_UNDERFLOW (202) and leaves the machine as it was. *)
Theorem ret_spec fuel :
  (∀ vm (frames : list StackFrame) (top : StackFrame),
     callstack vm = frames ++ [top] →
     execute fuel RET vm
     = Ret () (set_frame (last frames) (set_pc (sf_pc top) (set_callstack frames vm)))) ∧
  (∀ vm,
     callstack vm = [] →
     execute fuel RET vm
     = Throw (RuntimeError STACK_UNDERFLOW "Stack underflow" None) vm) ∧
  code_number STACK_UNDERFLOW = 202%Z.
Proof.
  split_and!; [| |done].
  - intros vm frames top Hcs.
    unfold execute, mbind, M_bind, get, modify. simpl.
    rewrite Hcs. destruct (last_snoc_removelast frames top) as [-> ->]. done.
  - intros vm Hcs. unfold execute, mbind, M_bind, get. simpl. by rewrite Hcs.
Qed.
(** ** CALL, GOSUB and RET *)

Lemma execute_CALL fuel (arg : nat) vm :
  let f := {| sf_pc := pc vm; sf_variables := length (varmaps vm) |} in
  execute fuel (CALL arg) vm
  = Ret () (set_pc arg (set_callstack (callstack vm ++ [f])
              (set_frame (Some f) (set_varmaps (varmaps vm ++ [∅]) vm)))).
Proof. reflexivity. Qed.

Lemma execute_GOSUB fuel (arg : nat) vm caller :
  frame vm = Some caller →
  let f := {| sf_pc := pc vm; sf_variables := sf_variables caller |} in
  execute fuel (GOSUB arg) vm
  = Ret () (set_pc arg (set_callstack (callstack vm ++ [f]) (set_frame (Some f) vm))).
Proof.
  intros Hf f. unfold execute, mbind, M_bind, get. rewrite Hf. reflexivity.
Qed.

Lemma execute_RET fuel vm frames top :
  callstack vm = frames ++ [top] →
  execute fuel RET vm
  = Ret () (set_frame (last frames) (set_pc (sf_pc top) (set_callstack frames vm))).
Proof.
  intros Hcs. unfold execute, mbind, M_bind, get. rewrite Hcs.
  destruct (last_snoc_removelast frames top) as [-> ->]. reflexivity.
Qed.

(** *** Names of [Object.prototype] *)

Lemma not_proto name : name ∉ object_prototype_keys → name ≠ "__proto__"%string.
Proof.
  intros Hname ->. apply Hname. unfold object_prototype_keys.
  do 7 apply list_elem_of_further. apply list_elem_of_here.
Qed.

(** None of the names of [Object.prototype], by comparison with each. *)
Lemma ordinary_name name :
  forallb (λ key, negb (String.eqb name key)) object_prototype_keys = true →
  name ∉ object_prototype_keys.
Proof.
  intros Hall Hin. rewrite forallb_forall in Hall.
  specialize (Hall name (proj1 (list_elem_of_In _ _) Hin)).
  by rewrite String.eqb_refl in Hall.
Qed.

Lemma is_shared_ordinary name vm :
  name ∉ object_prototype_keys → is_shared name vm = bool_decide (name ∈ shared vm).
Proof.
  intros Hname. unfold is_shared.
  rewrite (bool_decide_eq_false_2 (name ∈ object_prototype_keys)) by done.
  apply orb_false_r.
Qed.

Lemma frame_of_ordinary name vm :
  name ∉ object_prototype_keys →
  frame_of name vm = if bool_decide (name ∈ shared vm) then callstack vm !! 0 else frame vm.
Proof. intros Hname. unfold frame_of. by rewrite is_shared_ordinary. Qed.

Lemma frame_of_inherited name vm :
  name ∈ object_prototype_keys → frame_of name vm = callstack vm !! 0.
Proof.
  intros Hname. unfold frame_of, is_shared.
  rewrite (bool_decide_eq_true_2 (name ∈ object_prototype_keys)) by done.
  by rewrite orb_true_r.
Qed.

Lemma read_property_own m name v vm :
  name ≠ "__proto__"%string → m !! name = Some v → read_property m name vm = Ret v vm.
Proof.
  intros Hname Hv. unfold read_property.
  rewrite (proj2 (String.eqb_neq _ _) Hname). by rewrite Hv.
Qed.

Lemma read_property_ordinary m name vm :
  name ∉ object_prototype_keys →
  read_property m name vm = Ret (default VUndefined (m !! name)) vm.
Proof.
  intros Hname. unfold read_property.
  rewrite (proj2 (String.eqb_neq _ _) (not_proto _ Hname)).
  destruct (m !! name); [done|]. by rewrite bool_decide_eq_false_2.
Qed.

(** What [frame.variables[name]] was, when the model tells. *)
Lemma read_property_inv m name vm bound vm' :
  read_property m name vm = Ret bound vm' →
  vm' = vm ∧ name ≠ "__proto__"%string ∧ bound = default VUndefined (m !! name) ∧
  (m !! name = None → name ∉ object_prototype_keys).
Proof.
  unfold read_property. destruct (String.eqb_spec name "__proto__") as [->|Hname]; [done|].
  destruct (m !! name) as [v|] eqn:Hv.
  - intros [= <- <-]. done.
  - destruct (bool_decide_reflect (name ∈ object_prototype_keys)) as [|Hkeys]; [done|].
    intros [= <- <-]. done.
Qed.

Lemma bind_variable_spec f name v vm m :
  name ≠ "__proto__"%string →
  varmaps vm !! sf_variables f = Some m →
  bind_variable f name v vm
  = Ret () (set_varmaps (<[sf_variables f := <[name := v]> m]> (varmaps vm)) vm).
Proof.
  intros Hname Hm. unfold bind_variable.
  rewrite (proj2 (String.eqb_neq _ _) Hname).
  rewrite (bind_Ret _ _ vm m vm); [|unfold lookup_varmap; by rewrite Hm].
  reflexivity.
Qed.

Lemma setVariable_bound name v vm f m :
  name ≠ "__proto__"%string →
  frame_of name vm = Some f →
  varmaps vm !! sf_variables f = Some m →
  setVariable name v vm
  = Ret () (set_varmaps (<[sf_variables f := <[name := v]> m]> (varmaps vm)) vm).
Proof.
  intros Hname Hf Hm. unfold setVariable.
  rewrite (bind_Ret _ _ vm f vm); [|unfold resolve_frame; fold (frame_of name vm); by rewrite Hf].
  by apply bind_variable_spec.
Qed.

Lemma getVariable_bound name v vm f m :
  name ≠ "__proto__"%string →
  frame_of name vm = Some f →
  varmaps vm !! sf_variables f = Some m →
  m !! name = Some v → truthy v = true →
  getVariable name vm = Ret v vm.
Proof.
  intros Hname Hf Hm Hv Ht. unfold getVariable.
  rewrite (bind_Ret _ _ vm f vm); [|unfold resolve_frame; fold (frame_of name vm); by rewrite Hf].
  rewrite (bind_Ret _ _ vm m vm); [|unfold lookup_varmap; by rewrite Hm].
  rewrite (bind_Ret _ _ vm v vm) by by apply read_property_own.
  by rewrite Ht.
Qed.

(** C3.  [CALL] pushes a new frame whose return address is the current pc
    and whose [variables] is a new, empty object, which no frame of a
    well-formed call stack refers to.  [GOSUB] pushes a frame whose
    [variables] is the very object of the caller's frame.  So after
    [GOSUB], a binding and the matching [RET], the caller is the current
    frame again, with the same [variables], the call stack and pc are
    what they were, and the binding is there for the caller to see.  The
    name bound is any name but those of [Object.prototype], which the
    code does not bind in the current frame. *)
Theorem call_and_gosub_frames fuel (arg : nat) :
  (∀ vm,
     let f := {| sf_pc := pc vm; sf_variables := length (varmaps vm) |} in
     execute fuel (CALL arg) vm
     = Ret () (set_pc arg (set_callstack (callstack vm ++ [f])
                 (set_frame (Some f) (set_varmaps (varmaps vm ++ [∅]) vm)))) ∧
     (varmaps vm ++ [∅]) !! sf_variables f = Some ∅ ∧
     (frames_wf vm → ∀ g, g ∈ callstack vm → sf_variables g ≠ sf_variables f)) ∧
  (∀ vm caller,
     frame vm = Some caller →
     let f := {| sf_pc := pc vm; sf_variables := sf_variables caller |} in
     execute fuel (GOSUB arg) vm
     = Ret () (set_pc arg (set_callstack (callstack vm ++ [f]) (set_frame (Some f) vm)))) ∧
  (∀ vm caller name v,
     name ∉ object_prototype_keys →
     frame vm = Some caller → last (callstack vm) = Some caller → frames_wf vm →
     ∃ vm' target,
       (execute fuel (GOSUB arg);; setVariable name v;; execute fuel RET) vm = Ret () vm' ∧
       frame vm' = Some caller ∧ callstack vm' = callstack vm ∧ pc vm' = pc vm ∧
       frame_of name vm' = Some target ∧
       bound_in target name vm' = Some v ∧
       (truthy v = true → getVariable name vm' = Ret v vm')).
Proof.
  split_and!.
  - intros vm f. split_and!.
    + apply execute_CALL.
    + subst f. simpl. by rewrite lookup_app_r, Nat.sub_diag.
    + intros Hwf g Hg. subst f. simpl. specialize (Hwf g Hg). lia.
  - intros vm caller Hf. by apply execute_GOSUB.
  - intros vm caller name v Hname Hframe Hlast Hwf.
    set (f := {| sf_pc := pc vm; sf_variables := sf_variables caller |}).
    set (vm1 := set_pc arg (set_callstack (callstack vm ++ [f]) (set_frame (Some f) vm))).
    assert (caller ∈ callstack vm) as Hin.
    { destruct (proj1 (last_Some _ _) Hlast) as [frames ->]. set_solver. }
    (* the frame the name is bound in, before and after *)
    assert (∃ target m, frame_of name vm1 = Some target ∧
              varmaps vm !! sf_variables target = Some m ∧
              (if bool_decide (name ∈ shared vm) then callstack vm !! 0 else Some caller)
              = Some (if bool_decide (name ∈ shared vm) then target else caller) ∧
              sf_variables (if bool_decide (name ∈ shared vm) then target else caller)
              = sf_variables target)
      as (target & m & Htarget & Hm & Hafter & Hsame).
    { rewrite frame_of_ordinary by done. subst vm1. vm_norm. destruct (bool_decide _).
      - destruct (callstack vm) as [|main frames] eqn:Hcs; [done|].
        assert (sf_variables main < length (varmaps vm)) as Hlt
          by (apply Hwf; rewrite Hcs; apply elem_of_cons; by left).
        apply lookup_lt_is_Some_2 in Hlt as [m Hm].
        by exists main, m.
      - assert (sf_variables caller < length (varmaps vm)) as Hlt by by apply Hwf.
        apply lookup_lt_is_Some_2 in Hlt as [m Hm]. by exists f, m. }
    set (vm2 := set_varmaps (<[sf_variables target := <[name := v]> m]> (varmaps vm1)) vm1).
    set (vm3 := set_frame (last (callstack vm)) (set_pc (sf_pc f) (set_callstack (callstack vm) vm2))).
    exists vm3, (if bool_decide (name ∈ shared vm) then target else caller).
    assert (frame_of name vm3
            = Some (if bool_decide (name ∈ shared vm) then target else caller)) as Hfo.
    { rewrite frame_of_ordinary by done. subst vm3 vm2 vm1. vm_norm. by rewrite Hlast. }
    assert (bound_in (if bool_decide (name ∈ shared vm) then target else caller) name vm3
            = Some v) as Hbound.
    { unfold bound_in. rewrite Hsame. subst vm3 vm2 vm1. vm_norm.
      rewrite list_lookup_insert_eq by by eapply lookup_lt_Some.
      simpl. apply lookup_insert_eq. }
    split_and!.
    + rewrite (bind_Ret _ _ vm () vm1) by by apply execute_GOSUB.
      rewrite (bind_Ret _ _ vm1 () vm2) by by apply setVariable_bound; [apply not_proto|..].
      by apply execute_RET.
    + subst vm3. vm_norm. done.
    + subst vm3. vm_norm. done.
    + subst vm3. vm_norm. done.
    + done.
    + done.
    + intros Ht. unfold bound_in in Hbound.
      destruct (varmaps vm3 !! _) as [m3|] eqn:Hm3; [|done].
      eapply getVariable_bound; [by apply not_proto|done..].
Qed.

(** ** Variables *)

Lemma getVariable_unbound name vm f m type inst vm1 :
  name ∉ object_prototype_keys →
  frame_of name vm = Some f →
  varmaps vm !! sf_variables f = Some m →
  truthy (default VUndefined (m !! name)) = false →
  match DeriveTypeNameFromVariable name with
  | Some typeName => lookup_type typeName vm = Ret type vm
  | None => defaultType vm = type
  end →
  call_createInstance type vm = Ret inst vm1 →
  getVariable name vm
  = (scalar ← alloc (ScalarVariable type inst);
     bind_variable f name scalar;; mret scalar) vm1.
Proof.
  intros Hname Hf Hm Hv Htype Hinst. unfold getVariable.
  rewrite (bind_Ret _ _ vm f vm); [|unfold resolve_frame; fold (frame_of name vm); by rewrite Hf].
  rewrite (bind_Ret _ _ vm m vm); [|unfold lookup_varmap; by rewrite Hm].
  rewrite (bind_Ret _ _ vm _ vm (read_property_ordinary m name vm Hname)). rewrite Hv.
  rewrite (bind_Ret _ _ vm type vm); [|by destruct (DeriveTypeNameFromVariable name); [|rewrite <- Htype]].
  by rewrite (bind_Ret _ _ vm inst vm1).
Qed.

Lemma createInstance_keeps t vm :
  ∃ inst vm1, createInstance t vm = Ret inst vm1 ∧
    varmaps vm1 = varmaps vm ∧ length (heap vm) ≤ length (heap vm1) ∧
    (∀ k, t = ScalarType k → inst = scalar_default k ∧ vm1 = vm).
Proof.
  destruct t as [k|ms]; simpl.
  - exists (scalar_default k), vm. split_and!; [done..|]. by intros ? [= <-].
  - destruct (alloc_members ms (heap vm)) as [fs h] eqn:Hal. do 2 eexists.
    split_and!; [done|done| |done]. simpl. rewrite length_app.
    assert (∀ ms h fs h', alloc_members ms h = (fs, h') → length h ≤ length h') as Hgrow.
    { clear. induction ms as [|[n k] ms IH]; intros h fs h'; simpl; [by intros [= _ <-]|].
      destruct (alloc_members ms _) as [fs1 h1] eqn:E. intros [= _ <-].
      apply IH in E. rewrite length_app in E. simpl in E. lia. }
    apply Hgrow in Hal. lia.
Qed.

(** C4.  For every name but those of [Object.prototype], [setVariable] and
    [getVariable] use the main frame [callstack[0]] for a shared name and
    the current frame for any other name.  There, [setVariable] binds the
    name and [getVariable] returns what the name is bound to; when the
    name is unbound, [getVariable] makes a new ScalarVariable of the type
    named by the sigil of the name (the default type of the program when
    the name has no sigil), holding the default value of that type, binds
    the name to it and returns it.  For a shared name the outcome is the
    same whatever the current frame is.  A name of [Object.prototype],
    such as [toString] or [constructor], is taken for shared whether the
    program shares it or not: it is looked up and bound in the main
    frame; and [setVariable] binds nothing for [__proto__] and a number, a
    string, a boolean or undefined. *)
Theorem variable_resolution (name : string) :
  (∀ vm, name ∈ shared vm → frame_of name vm = callstack vm !! 0) ∧
  (∀ vm, name ∉ object_prototype_keys → name ∉ shared vm →
         frame_of name vm = frame vm) ∧
  (∀ vm f m v,
     name ≠ "__proto__"%string →
     frame_of name vm = Some f → varmaps vm !! sf_variables f = Some m →
     setVariable name v vm
     = Ret () (set_varmaps (<[sf_variables f := <[name := v]> m]> (varmaps vm)) vm)) ∧
  (∀ vm f m v,
     name ≠ "__proto__"%string →
     frame_of name vm = Some f → varmaps vm !! sf_variables f = Some m →
     m !! name = Some v → truthy v = true →
     getVariable name vm = Ret v vm) ∧
  (∀ vm f m t,
     name ∉ object_prototype_keys →
     frame_of name vm = Some f → varmaps vm !! sf_variables f = Some m →
     m !! name = None →
     match DeriveTypeNameFromVariable name with
     | Some typeName => types vm !! typeName = Some t
     | None => defaultType vm = VType t
     end →
     ∃ inst vm1,
       createInstance t vm = Ret inst vm1 ∧
       (∀ k, t = ScalarType k → inst = scalar_default k ∧ vm1 = vm) ∧
       let a := length (heap vm1) in
       heap vm !! a = None ∧
       getVariable name vm
       = Ret (VObj a)
           (set_varmaps (<[sf_variables f := <[name := VObj a]> m]> (varmaps vm1))
              (set_heap (heap vm1 ++ [ScalarVariable (VType t) inst]) vm1))) ∧
  (∀ vm cur,
     name ∈ shared vm →
     getVariable name (set_frame cur vm)
     = match getVariable name vm with
       | Ret v vm' => Ret v (set_frame cur vm')
       | Throw e vm' => Throw e (set_frame cur vm')
       | Abort r => Abort r
       end) ∧
  (∀ vm, name ∈ object_prototype_keys → frame_of name vm = callstack vm !! 0) ∧
  (∀ vm f v,
     name = "__proto__"%string → frame_of name vm = Some f →
     match v with VUndefined | VBool _ | VNum _ | VStr _ => True | _ => False end →
     setVariable name v vm = Ret () vm).
Proof.
  split_and!.
  - intros vm Hs. unfold frame_of, is_shared. by rewrite bool_decide_eq_true_2.
  - intros vm Hname Hs. rewrite frame_of_ordinary by done.
    by rewrite bool_decide_eq_false_2.
  - intros vm f m v. apply setVariable_bound.
  - intros vm f m v. apply getVariable_bound.
  - intros vm f m t Hname Hf Hm Hv Htype.
    destruct (createInstance_keeps t vm) as (inst & vm1 & Hinst & Hmaps & Hlen & Hscalar).
    exists inst, vm1. split_and!; [done|done|]. cbv zeta. split.
    + apply lookup_ge_None_2. lia.
    + rewrite (getVariable_unbound name vm f m (VType t) inst vm1); try done.
      * rewrite (bind_Ret _ _ vm1 (VObj (length (heap vm1)))
                   (set_heap (heap vm1 ++ [ScalarVariable (VType t) inst]) vm1))
          by reflexivity.
        erewrite bind_Ret;
          [|apply bind_variable_spec; [by apply not_proto|simpl; by rewrite Hmaps]].
        reflexivity.
      * by rewrite Hv.
      * destruct (DeriveTypeNameFromVariable name); [|done].
        unfold lookup_type. by rewrite Htype.
  - intros vm cur Hs.
    unfold getVariable, resolve_frame, mbind, M_bind, is_shared. vm_norm.
    rewrite bool_decide_eq_true_2 by done. cbn [orb].
    destruct (callstack vm !! 0) as [f|]; [|done].
    unfold lookup_varmap. vm_norm. destruct (varmaps vm !! sf_variables f) as [m|]; [|done].
    unfold read_property, bind_variable.
    destruct (String.eqb name "__proto__"); [done|].
    destruct (m !! name) as [bound|];
      [|destruct (bool_decide (name ∈ object_prototype_keys)); [done|]].
    all: unfold mret, M_ret; destruct (truthy _); [done|].
    all: destruct (DeriveTypeNameFromVariable name) as [typeName|].
    all: unfold lookup_type, get; vm_norm.
    1, 3: destruct (types vm !! typeName) as [[k|ms]|];
      [| |destruct (bool_decide (typeName ∈ object_prototype_keys)); [done|]].
    7, 8: destruct (defaultType vm) as [| | | | | |[k|ms]].
    all: cbn [call_createInstance createInstance];
      unfold mret, M_ret, throw, alloc, modify, lookup_varmap, mbind, M_bind; vm_norm;
      try done.
    all: try (destruct (alloc_members ms (heap vm)); vm_norm).
    all: destruct (varmaps vm !! sf_variables f); reflexivity.
  - intros vm Hname. by apply frame_of_inherited.
  - intros vm f v -> Hf Hv. unfold setVariable.
    rewrite (bind_Ret _ _ vm f vm);
      [|unfold resolve_frame; fold (frame_of "__proto__" vm); by rewrite Hf].
    unfold bind_variable. by destruct v.
Qed.

(** ** RESTORE and READ *)

Lemma pop_args_spec fuel (c : val) n (xs : list val) :
  counts c n →
  ∀ i acc vm rest,
    i + length xs = n → length xs < fuel → stack vm = xs ++ rest →
    pop_args fuel c i acc vm = Ret (reverse xs ++ acc) (set_stack rest vm).
Proof.
  intros Hc. revert fuel. induction xs as [|x xs IH]; intros fuel i acc vm rest Hn Hfuel Hs.
  - destruct fuel as [|fuel]; [simpl in Hfuel; lia|]. simpl in *.
    rewrite Hc by lia. rewrite bool_decide_eq_false_2 by lia.
    by rewrite <- Hs, set_stack_same.
  - destruct fuel as [|fuel]; [simpl in Hfuel; lia|]. cbn [pop_args]. simpl in Hn, Hfuel.
    rewrite Hc by lia. rewrite bool_decide_eq_true_2 by lia.
    rewrite (bind_Ret _ _ vm x (set_stack (xs ++ rest) vm)) by by apply pop_cons.
    rewrite (IH fuel (S i) (x :: acc) _ rest) by (done || lia).
    by rewrite reverse_cons, <- app_assoc.
Qed.

Lemma strict_eq_null v : strict_eq v VNull = true ↔ v = VNull.
Proof. by destruct v. Qed.

Lemma read_item_spec k d :
  read_item k d = if strict_eq d VNull then scalar_default k else d.
Proof. by destruct d. Qed.

Lemma set_value_scalar a t old w vm :
  heap vm !! a = Some (ScalarVariable t old) →
  set_value (VObj a) w vm = Ret () (set_heap (<[a := ScalarVariable t w]> (heap vm)) vm).
Proof.
  intros Ha. unfold set_value.
  rewrite (bind_Ret _ _ vm (ScalarVariable t old) vm); [done|].
  unfold lookup_object. by rewrite Ha.
Qed.

Lemma get_value_scalar a t x vm :
  heap vm !! a = Some (ScalarVariable t x) → get_value (VObj a) vm = Ret x vm.
Proof.
  intros Ha. unfold get_value.
  rewrite (bind_Ret _ _ vm (ScalarVariable t x) vm); [done|].
  unfold lookup_object. by rewrite Ha.
Qed.

Lemma get_type_scalar a t x vm :
  heap vm !! a = Some (ScalarVariable t x) → get_type (VObj a) vm = Ret t vm.
Proof.
  intros Ha. unfold get_type.
  rewrite (bind_Ret _ _ vm (ScalarVariable t x) vm); [done|].
  unfold lookup_object. by rewrite Ha.
Qed.

Lemma scalar_at_insert h a b k w :
  scalar_at h a → scalar_at h b →
  scalar_at (<[a := ScalarVariable (VType (ScalarType k)) w]> h) b.
Proof.
  intros (ka & olda & Ha) (kb & oldb & Hb). unfold scalar_at.
  destruct (decide (a = b)) as [->|Hne].
  - rewrite list_lookup_insert_eq by by eapply lookup_lt_Some. eauto.
  - rewrite list_lookup_insert_ne by done. eauto.
Qed.

Lemma read_into_data vm vm1 (vars : list nat) p h :
  data vm1 = data vm → read_into vm1 vars p h = read_into vm vars p h.
Proof.
  intros Hd. revert p h. induction vars as [|b vars IH]; intros p h; [done|].
  cbn [read_into]. unfold data_at. rewrite Hd.
  destruct (h !! b) as [[[| | | | | |[kb|]] ?| |]|]; first [done | apply IH].
Qed.

(** One turn of the second loop of READ. *)
Lemma read_turn a k old vm :
  heap vm !! a = Some (ScalarVariable (VType (ScalarType k)) old) →
  ∃ vm',
    read_one (VObj a) vm = Ret () vm' ∧
    heap vm' = <[a := ScalarVariable (VType (ScalarType k))
                        (read_item k (data_at vm (dataPtr vm)))]> (heap vm) ∧
    dataPtr vm' = S (dataPtr vm) ∧ stack vm' = stack vm ∧ data vm' = data vm.
Proof.
  intros Ha.
  set (d := data_at vm (dataPtr vm)).
  set (t := VType (ScalarType k)).
  set (vm1 := set_dataPtr (S (dataPtr vm)) vm).
  set (vm2 := set_heap (<[a := ScalarVariable t d]> (heap vm1)) vm1).
  assert (heap vm2 !! a = Some (ScalarVariable t d)) as Ha2.
  { subst vm2 vm1. vm_norm. apply list_lookup_insert_eq. by eapply lookup_lt_Some. }
  unfold read_one.
  rewrite (bind_Ret _ _ vm d vm1) by done.
  rewrite (bind_Ret _ _ vm1 () vm2) by by eapply set_value_scalar.
  rewrite (bind_Ret _ _ vm2 d vm2) by by eapply get_value_scalar.
  rewrite read_item_spec. fold d. destruct (strict_eq d VNull).
  - rewrite (bind_Ret _ _ vm2 t vm2) by by eapply get_type_scalar.
    rewrite (bind_Ret _ _ vm2 (scalar_default k) vm2) by done.
    rewrite (set_value_scalar a t d _ vm2 Ha2). eexists. split; [done|].
    subst vm2 vm1. vm_norm. by rewrite list_insert_insert_eq.
  - eexists. split; [done|]. subst vm2 vm1. by vm_norm.
Qed.

Lemma read_loop_spec fuel (c : val) n (all : list nat) :
  counts c n → length all = n →
  ∀ i vm,
    i ≤ n → n - i < fuel →
    (∀ a, a ∈ drop i all → scalar_at (heap vm) a) →
    ∃ vm',
      read_loop fuel c (VObj <$> all) i vm = Ret () vm' ∧
      heap vm' = read_into vm (drop i all) (dataPtr vm) (heap vm) ∧
      dataPtr vm' = dataPtr vm + (n - i) ∧ stack vm' = stack vm ∧ data vm' = data vm.
Proof.
  intros Hc Hlen. induction fuel as [|fuel IH]; intros i vm Hi Hfuel Hsc; [lia|].
  cbn [read_loop]. rewrite Hc by done.
  destruct (decide (i = n)) as [->|Hne].
  - rewrite bool_decide_eq_false_2 by lia.
    rewrite <- Hlen, drop_all, Nat.sub_diag, Nat.add_0_r. by exists vm.
  - rewrite bool_decide_eq_true_2 by lia.
    destruct (lookup_lt_is_Some_2 all i) as [a Ha]; [lia|].
    rewrite list_lookup_fmap, Ha. simpl.
    rewrite (drop_S _ _ _ Ha) in Hsc |- *.
    destruct (Hsc a) as (k & old & Hheap); [apply elem_of_cons; by left|].
    destruct (read_turn a k old vm Hheap) as (vm1 & Hturn & Hh1 & Hp1 & Hs1 & Hd1).
    destruct (IH (S i) vm1) as (vm' & Hrest & Hh' & Hp' & Hs' & Hd'); [lia|lia| |].
    { intros b Hb. rewrite Hh1. apply scalar_at_insert; [by exists k, old|].
      apply Hsc, elem_of_cons. by right. }
    exists vm'. split_and!.
    + by rewrite (bind_Ret _ _ vm () vm1).
    + rewrite Hh', Hh1, Hp1. cbn [read_into]. rewrite Hheap.
      by apply read_into_data.
    + rewrite Hp', Hp1. lia.
    + congruence.
    + congruence.
Qed.

(** Where READ has written: a variable that is no argument is untouched,
    and an argument holds what its last occurrence received. *)
Lemma read_into_spec vm (vars : list nat) :
  ∀ p h,
    (∀ a, a ∈ vars → scalar_at h a) →
    length (read_into vm vars p h) = length h ∧
    (∀ a, a ∉ vars → read_into vm vars p h !! a = h !! a) ∧
    (∀ i a k old,
       vars !! i = Some a → (∀ j, i < j → vars !! j ≠ Some a) →
       h !! a = Some (ScalarVariable (VType (ScalarType k)) old) →
       read_into vm vars p h !! a
       = Some (ScalarVariable (VType (ScalarType k)) (read_item k (data_at vm (p + i))))).
Proof.
  induction vars as [|b vars IH]; intros p h Hsc; [by split_and!|].
  destruct (Hsc b) as (kb & oldb & Hb); [apply elem_of_cons; by left|].
  cbn [read_into]. rewrite Hb.
  set (h1 := <[b := _]> h).
  destruct (IH (S p) h1) as (Hlen & Hout & Hin).
  { intros a Ha. apply scalar_at_insert; [by exists kb, oldb|].
    apply Hsc, elem_of_cons. by right. }
  assert (h1 !! b = Some (ScalarVariable (VType (ScalarType kb))
                            (read_item kb (data_at vm p)))) as Hb1.
  { subst h1. apply list_lookup_insert_eq. by eapply lookup_lt_Some. }
  split_and!.
  - rewrite Hlen. subst h1. apply length_insert.
  - intros a Ha. apply not_elem_of_cons in Ha as [Hab Ha].
    rewrite Hout by done. subst h1. by apply list_lookup_insert_ne.
  - intros i a k old Hi Hlast Ha.
    destruct i as [|i].
    + injection Hi as ->. rewrite Nat.add_0_r.
      assert (k = kb) as -> by congruence.
      rewrite Hout; [done|].
      intros (j & Hj)%list_elem_of_lookup_1. by apply (Hlast (S j)); [lia|].
    + simpl in Hi. rewrite <- Nat.add_succ_comm.
      destruct (decide (a = b)) as [->|Hne].
      * assert (k = kb) as -> by congruence.
        eapply (Hin i b kb); [done| |done].
        intros j Hj. apply (Hlast (S j)). lia.
      * apply (Hin i a k old Hi).
        -- intros j Hj. apply (Hlast (S j)). lia.
        -- subst h1. by rewrite list_lookup_insert_ne.
Qed.

(** C7.  [restore k] makes the data pointer [k].  READ with [n] argument
    variables, the data pointer being [p]: the variable of index [i]
    receives the data item of index [p + i], or the default of its type
    when that item is null, and the data pointer ends at [p + n].  The
    arguments are popped, no other variable is written, and a variable
    that is passed twice keeps what it received last. *)
Theorem restore_and_read :
  (∀ fuel k vm, execute fuel (RESTORE k) vm = Ret () (set_dataPtr k vm)) ∧
  (∀ fuel vm (argCount : val) (n : nat) (vars : list nat) (rest : list val),
     counts argCount n → length vars = n → n < fuel →
     stack vm = argCount :: (VObj <$> reverse vars) ++ rest →
     (∀ a, a ∈ vars → scalar_at (heap vm) a) →
     ∃ vm',
       execute fuel (SYSCALL "READ") vm = Ret () vm' ∧
       stack vm' = rest ∧
       dataPtr vm' = dataPtr vm + n ∧
       length (heap vm') = length (heap vm) ∧
       (∀ a, a ∉ vars → heap vm' !! a = heap vm !! a) ∧
       (∀ i a k old,
          vars !! i = Some a → (∀ j, i < j → vars !! j ≠ Some a) →
          heap vm !! a = Some (ScalarVariable (VType (ScalarType k)) old) →
          heap vm' !! a
          = Some (ScalarVariable (VType (ScalarType k))
                    (read_item k (data_at vm (dataPtr vm + i)))))).
Proof.
  split; [done|].
  intros fuel vm argCount n vars rest Hc Hlen Hfuel Hstack Hsc.
  set (vm1 := set_stack ((VObj <$> reverse vars) ++ rest) vm).
  set (vm2 := set_stack rest vm1).
  destruct (read_loop_spec fuel argCount n vars Hc Hlen 0 vm2)
    as (vm' & Hloop & Hheap & Hptr & Hst & _); [lia|lia|by rewrite drop_0|].
  rewrite drop_0, Nat.sub_0_r in *.
  destruct (read_into_spec vm2 vars (dataPtr vm2) (heap vm2) Hsc) as (Hl & Hout & Hin).
  exists vm'. split_and!.
  - change (execute fuel (SYSCALL "READ")) with (sys_READ fuel). unfold sys_READ.
    rewrite (bind_Ret _ _ vm argCount vm1) by by apply pop_cons.
    rewrite (bind_Ret _ _ vm1 (VObj <$> vars) vm2); [done|].
    rewrite (pop_args_spec fuel argCount n (VObj <$> reverse vars) Hc 0 [] vm1 rest).
    + by rewrite app_nil_r, <- fmap_reverse, reverse_involutive.
    + rewrite length_fmap, length_reverse. lia.
    + rewrite length_fmap, length_reverse. lia.
    + done.
  - by rewrite Hst.
  - by rewrite Hptr.
  - by rewrite Hheap, Hl.
  - intros a Ha. by rewrite Hheap, Hout.
  - intros i a k old Hi Hlast Ha. rewrite Hheap. by eapply Hin.
Qed.

(** ** What the operations leave alone *)

Section Preservation.
Context {R : relation VirtualMachine} `{!PreOrder R}.

Lemma preserves_ret {A} (a : A) : preserves R (mret a).
Proof. intros vm. simpl. reflexivity. Qed.

Lemma preserves_throw {A} e : preserves R (throw e : M A).
Proof. intros vm. simpl. reflexivity. Qed.

Lemma preserves_abort {A} r : preserves R (abort_with r : M A).
Proof. by intros vm. Qed.

Lemma preserves_get {A} (f : VirtualMachine → A) : preserves R (get f).
Proof. intros vm. simpl. reflexivity. Qed.

Lemma preserves_modify f : (∀ vm, R vm (f vm)) → preserves R (modify f).
Proof. intros Hf vm. apply Hf. Qed.

Lemma preserves_bind {A B} (m : M A) (f : A → M B) :
  preserves R m → (∀ a, preserves R (f a)) → preserves R (m ≫= f).
Proof.
  intros Hm Hf vm. specialize (Hm vm). unfold mbind, M_bind.
  destruct (m vm) as [a vm1|e vm1|r]; [|done..].
  specialize (Hf a vm1). destruct (f a vm1); [| |done]; by etrans.
Qed.

Lemma preserves_try_catch {A} (m : M A) (h : exn → M A) :
  preserves R m → (∀ e, preserves R (h e)) → preserves R (try_catch m h).
Proof.
  intros Hm Hh vm. specialize (Hm vm). unfold try_catch.
  destruct (m vm) as [a vm1|e vm1|r]; [done| |done].
  specialize (Hh e vm1). destruct (h e vm1); [| |done]; by etrans.
Qed.

Lemma preserves_lift_js {A} (r : A + JsErrorKind) : preserves R (lift_js r).
Proof. destruct r; [apply preserves_ret | apply preserves_throw]. Qed.

Lemma preserves_lift_abort {A} (r : A + abort) : preserves R (lift_abort r).
Proof. destruct r; [apply preserves_ret | apply preserves_abort]. Qed.

End Preservation.
Global Instance same_preorder {B} (field : VirtualMachine → B) : PreOrder (same field).
Proof.
  split; [by intros vm | intros vm1 vm2 vm3 H12 H23; unfold same in *; congruence].
Qed.

(** A field is the same after an assignment to another field. *)
Hint Extern 0 (KeptByStack (same _)) => (intros ? ?; reflexivity) : typeclass_instances.
Hint Extern 0 (KeptByHeap (same _)) => (intros ? ?; reflexivity) : typeclass_instances.
Hint Extern 0 (KeptByVarmaps (same _)) => (intros ? ?; reflexivity) : typeclass_instances.
Hint Extern 0 (KeptByEvents (same _)) => (intros ? ?; reflexivity) : typeclass_instances.
Hint Extern 0 (KeptByDataPtr (same _)) => (intros ? ?; reflexivity) : typeclass_instances.
Hint Extern 0 (KeptByCallstack (same _)) => (intros ? ?; reflexivity) : typeclass_instances.
Hint Extern 0 (KeptByFrame (same _)) => (intros ? ?; reflexivity) : typeclass_instances.
Hint Extern 0 (KeptByInterval (same _)) => (intros ? ?; reflexivity) : typeclass_instances.
Hint Extern 0 (KeptByPc (same _)) => (intros ? ?; reflexivity) : typeclass_instances.
Hint Extern 0 (KeptBySuspended (same _)) => (intros ? ?; reflexivity) : typeclass_instances.
Hint Extern 0 (KeptByAsynchronous (same _)) => (intros ? ?; reflexivity) : typeclass_instances.
Hint Extern 0 (KeptByProgram (same _)) => (intros ? ?; reflexivity) : typeclass_instances.

(** [R vm vm'] where [vm'] is [vm] after some assignments. *)
Ltac kept :=
  simpl;
  repeat lazymatch goal with
    | |- _ ?vm (set_stack _ ?vm') => transitivity vm'; [|apply kept_stack]
    | |- _ ?vm (set_heap _ ?vm') => transitivity vm'; [|apply kept_heap]
    | |- _ ?vm (set_varmaps _ ?vm') => transitivity vm'; [|apply kept_varmaps]
    | |- _ ?vm (set_events _ ?vm') => transitivity vm'; [|apply kept_events]
    | |- _ ?vm (set_dataPtr _ ?vm') => transitivity vm'; [|apply kept_dataPtr]
    | |- _ ?vm (set_callstack _ ?vm') => transitivity vm'; [|apply kept_callstack]
    | |- _ ?vm (set_frame _ ?vm') => transitivity vm'; [|apply kept_frame]
    | |- _ ?vm (set_interval _ ?vm') => transitivity vm'; [|apply kept_interval]
    | |- _ ?vm (set_pc _ ?vm') => transitivity vm'; [|apply kept_pc]
    | |- _ ?vm (set_suspended _ ?vm') => transitivity vm'; [|apply kept_suspended]
    | |- _ ?vm (set_asynchronous _ ?vm') => transitivity vm'; [|apply kept_asynchronous]
    | |- _ ?vm (set_program _ ?vm') => transitivity vm'; [|apply kept_program]
    end;
  reflexivity.

Create HintDb preserves discriminated.
Create HintDb sys discriminated.

Ltac preserves_step :=
  lazymatch goal with
  | |- preserves _ (mbind _ _) => apply preserves_bind; [|intros ?]
  | |- preserves _ (mret _) => apply preserves_ret
  | |- preserves _ (throw _) => apply preserves_throw
  | |- preserves _ (abort_with _) => apply preserves_abort
  | |- preserves _ (get _) => apply preserves_get
  | |- preserves _ (lift_js _) => apply preserves_lift_js
  | |- preserves _ (lift_abort _) => apply preserves_lift_abort
  | |- preserves _ (try_catch _ _) => apply preserves_try_catch; [|intros ?]
  | |- preserves _ (modify _) => apply preserves_modify; intros ?; kept
  | |- preserves _ (emit_event (EmitError _)) => solve [eauto with preserves typeclass_instances]
  | |- preserves _ (emit_event _) => apply kept_emit; reflexivity
  | |- preserves _ (if ?b then _ else _) => destruct b
  | |- preserves _ (match ?x with _ => _ end) => destruct x
  | |- preserves _ _ => solve [eauto with preserves typeclass_instances]
  end.

Ltac preserves_auto := repeat preserves_step.

Hint Unfold sys_RND sys_CHR sys_INKEY sys_LEN sys_MID sys_LEFT sys_RIGHT sys_TIMER
  sys_PEEK sys_LCASE sys_UCASE sys_STR sys_SPACE sys_VAL sys_INT
  sys_BEEP sys_CLS sys_RANDOMIZE sys_PLAY sys_BGMPLAY sys_BGMSTOP sys_SLEEP
  sys_SYSTEM sys_print_using sys_LOCATE sys_COLOR sys_READ sys_SCREEN sys_INPUT
  sys_SWAP sys_WIDTH sys_YIELD sys_SPSET sys_SPOFS sys_SPSCALE sys_SPROT sys_SPHOME
  sys_SPHIDE sys_SPSHOW sys_SPANIM sys_SPCLR : sys.

Global Instance kept_emit_of_events (R : relation VirtualMachine)
  `{!PreOrder R} `{!KeptByEvents R} : KeptByEmit R.
Proof. intros e _. unfold emit_event. preserves_auto. Qed.

Global Instance kept_read_of_events (R : relation VirtualMachine)
  `{!PreOrder R} `{!KeptByEvents R} : KeptByRead R.
Proof. intros what vm. unfold read_host. kept. Qed.

Section Kept.
Context (R : relation VirtualMachine) `{!PreOrder R}.
Context `{!KeptByStack R} `{!KeptByHeap R} `{!KeptByVarmaps R} `{!KeptByEvents R}
  `{!KeptByEmit R} `{!KeptByRead R}
  `{!KeptByDataPtr R} `{!KeptByCallstack R} `{!KeptByFrame R} `{!KeptByInterval R}
  `{!KeptByPc R} `{!KeptBySuspended R} `{!KeptByAsynchronous R} `{!KeptByProgram R}.

Lemma pop_preserves : preserves R pop.
Proof. intros vm. unfold pop. destruct (stack vm); kept. Qed.

Lemma push_preserves v : preserves R (push v).
Proof. unfold push. preserves_auto. Qed.

Lemma alloc_preserves o : preserves R (alloc o).
Proof. intros vm. unfold alloc. kept. Qed.

Lemma emit_event_preserves e : is_error_event e = false → preserves R (emit_event e).
Proof. apply kept_emit. Qed.

Lemma emit_error_preserves e : preserves R (emit_event (EmitError e)).
Proof. unfold emit_event. preserves_auto. Qed.

Lemma read_host_preserves what : preserves R (read_host what).
Proof. apply kept_read. Qed.

Lemma builtin_preserves name args : preserves R (builtin name args).
Proof. unfold builtin. preserves_auto. Qed.

Lemma lookup_object_preserves a : preserves R (lookup_object a).
Proof. intros vm. unfold lookup_object. destruct (heap vm !! a); [kept|done]. Qed.

Hint Resolve pop_preserves push_preserves alloc_preserves emit_error_preserves
  read_host_preserves builtin_preserves lookup_object_preserves : preserves.

Lemma get_value_preserves v : preserves R (get_value v).
Proof. unfold get_value. preserves_auto. Qed.

Lemma get_type_preserves v : preserves R (get_type v).
Proof. unfold get_type. preserves_auto. Qed.

Lemma set_value_preserves v w : preserves R (set_value v w).
Proof. unfold set_value. preserves_auto. Qed.

Lemma get_length_preserves v : preserves R (get_length v).
Proof. unfold get_length. preserves_auto. Qed.

Lemma read_property_preserves m name : preserves R (read_property m name).
Proof. unfold read_property. preserves_auto. Qed.
Hint Resolve read_property_preserves : preserves.

Lemma get_member_preserves v name : preserves R (get_member v name).
Proof. unfold get_member. preserves_auto. Qed.

Lemma createInstance_preserves t : preserves R (createInstance t).
Proof.
  destruct t as [k|ms]; simpl; [preserves_auto|].
  intros vm. destruct (alloc_members ms (heap vm)). kept.
Qed.

Hint Resolve get_value_preserves get_type_preserves set_value_preserves
  get_length_preserves get_member_preserves createInstance_preserves : preserves.

Lemma call_createInstance_preserves t : preserves R (call_createInstance t).
Proof. unfold call_createInstance. preserves_auto. Qed.

Lemma call_copy_preserves t v : preserves R (call_copy t v).
Proof.
  unfold call_copy. destruct t; try by preserves_auto.
  intros vm. destruct (type_copy _ _ _) as [[c|k] h]; kept.
Qed.

Lemma lookup_type_preserves name : preserves R (lookup_type name).
Proof.
  intros vm. unfold lookup_type. destruct (types vm !! name); [kept|].
  destruct (bool_decide _); [done|kept].
Qed.

Lemma resolve_frame_preserves name : preserves R (resolve_frame name).
Proof.
  intros vm. unfold resolve_frame.
  destruct (is_shared _ _); [destruct (callstack vm !! 0) | destruct (frame vm)]; kept.
Qed.


Lemma lookup_varmap_preserves i : preserves R (lookup_varmap i).
Proof. intros vm. unfold lookup_varmap. destruct (varmaps vm !! i); [kept|done]. Qed.

Hint Resolve call_createInstance_preserves call_copy_preserves lookup_type_preserves
  resolve_frame_preserves lookup_varmap_preserves read_property_preserves : preserves.

Lemma bind_variable_preserves f name v : preserves R (bind_variable f name v).
Proof. unfold bind_variable. preserves_auto. Qed.
Hint Resolve bind_variable_preserves : preserves.

Lemma setVariable_preserves name v : preserves R (setVariable name v).
Proof. unfold setVariable. preserves_auto. Qed.

Lemma getVariable_preserves name : preserves R (getVariable name).
Proof. unfold getVariable. preserves_auto. Qed.

Lemma pushScalar_preserves v name : preserves R (pushScalar v name).
Proof. unfold pushScalar. preserves_auto. Qed.

Lemma next_data_preserves : preserves R next_data.
Proof. intros vm. unfold next_data. kept. Qed.

Lemma pop_value_preserves : preserves R pop_value.
Proof. unfold pop_value. preserves_auto. Qed.

Hint Resolve setVariable_preserves getVariable_preserves pushScalar_preserves
  next_data_preserves pop_value_preserves : preserves.

Lemma pop_args_preserves fuel count i args :
  preserves R (pop_args fuel count i args).
Proof.
  revert i args. induction fuel as [|fuel IH]; intros i args; simpl; preserves_auto.
Qed.

Lemma read_one_preserves a : preserves R (read_one a).
Proof. unfold read_one. preserves_auto. Qed.
Hint Resolve read_one_preserves : preserves.

Lemma read_loop_preserves fuel count args i :
  preserves R (read_loop fuel count args i).
Proof.
  revert i. induction fuel as [|fuel IH]; intros i; simpl; preserves_auto.
Qed.

Lemma print_to_next_zone_preserves fuel :
  preserves R (print_to_next_zone fuel).
Proof. unfold print_to_next_zone. preserves_auto. Qed.

Lemma new_frame_preserves ret : preserves R (new_frame ret).
Proof. intros vm. unfold new_frame. kept. Qed.

Lemma drop3_preserves : preserves R drop3.
Proof. intros vm. unfold drop3. destruct (stack vm) as [|? [|? [|? ?]]]; kept. Qed.

Lemma peek_preserves k : preserves R (peek k).
Proof. unfold peek. preserves_auto. Qed.

Hint Resolve pop_args_preserves read_loop_preserves print_to_next_zone_preserves
  new_frame_preserves drop3_preserves peek_preserves : preserves.

Lemma relational_preserves op : preserves R (relational op).
Proof. unfold relational. preserves_auto. Qed.

Lemma arithmetic_preserves op : preserves R (arithmetic op).
Proof. unfold arithmetic. preserves_auto. Qed.

Lemma arithmetic_in_pop_order_preserves op :
  preserves R (arithmetic_in_pop_order op).
Proof. unfold arithmetic_in_pop_order. preserves_auto. Qed.

Lemma division_preserves op : preserves R (division op).
Proof. unfold division. preserves_auto. Qed.

Lemma pop_indexes_preserves n indexes : preserves R (pop_indexes n indexes).
Proof. revert indexes. induction n as [|n IH]; intros indexes; simpl; preserves_auto. Qed.
Hint Resolve pop_indexes_preserves : preserves.

Lemma array_deref_preserves arg : preserves R (array_deref arg).
Proof. unfold array_deref. preserves_auto. Qed.

Lemma pop_dimensions_preserves fuel count i dims :
  preserves R (pop_dimensions fuel count i dims).
Proof.
  revert i dims. induction fuel as [|fuel IH]; intros i dims; simpl; preserves_auto.
Qed.

Lemma alloc_cells_preserves n type cells : preserves R (alloc_cells n type cells).
Proof.
  revert cells. induction n as [|n IH]; intros cells; simpl; preserves_auto.
Qed.
Hint Resolve pop_dimensions_preserves alloc_cells_preserves : preserves.

Lemma new_ArrayVariable_preserves type dims :
  preserves R (new_ArrayVariable type dims).
Proof. unfold new_ArrayVariable. preserves_auto. Qed.

Hint Resolve relational_preserves arithmetic_preserves arithmetic_in_pop_order_preserves
  division_preserves array_deref_preserves new_ArrayVariable_preserves : preserves.

Lemma format_output_preserves f args : preserves R (format_output f args).
Proof. intros vm. unfold format_output. destruct (format_using _ _ _); kept. Qed.
Hint Resolve format_output_preserves : preserves.

Lemma table_lookup_Forall (P : string → M unit → Prop) table name action :
  Forall (λ e, P e.1 e.2) table →
  table_lookup name table = Some action → P name action.
Proof.
  induction 1 as [|[n a] table HP _ IH]; simpl; [done|].
  destruct (String.eqb_spec name n) as [->|]; [|done].
  by intros [= <-].
Qed.


Lemma SystemFunctions_preserve fuel :
  Forall (λ e, preserves R e.2) (SystemFunctions fuel).
Proof.
  unfold SystemFunctions. repeat apply Forall_cons_2; [..|apply Forall_nil_2];
    simpl; autounfold with sys; preserves_auto.
Qed.

Lemma SystemSubroutines_preserve fuel :
  Forall (λ e, suspends e.1 = false → preserves R e.2)
         (SystemSubroutines fuel).
Proof.
  unfold SystemSubroutines. repeat apply Forall_cons_2; [..|apply Forall_nil_2];
    simpl; intros Hs; try discriminate Hs; autounfold with sys; preserves_auto.
Qed.

Lemma suspend_preserves : preserves R suspend.
Proof. unfold suspend. preserves_auto. Qed.
Hint Resolve suspend_preserves : preserves.

Lemma start_interval_preserves : preserves R start_interval.
Proof. unfold start_interval. preserves_auto. Qed.
Hint Resolve start_interval_preserves : preserves.

Lemma SystemSubroutines_preserve_all fuel :
  Forall (λ e, preserves R e.2) (SystemSubroutines fuel).
Proof.
  unfold SystemSubroutines. repeat apply Forall_cons_2; [..|apply Forall_nil_2];
    simpl; autounfold with sys; preserves_auto.
Qed.

Lemma syscall_preserves fuel arg : preserves R (syscall fuel arg).
Proof.
  unfold syscall. repeat (destruct (String.eqb arg _); [by preserves_auto|]).
  destruct (table_lookup arg (SystemFunctions fuel)) as [action|] eqn:Hf.
  { by apply (table_lookup_Forall (λ _ a, preserves R a) _ _ _
                (SystemFunctions_preserve fuel) Hf). }
  destruct (bool_decide (arg ∈ object_prototype_keys)); [by preserves_auto|].
  destruct (table_lookup arg (SystemSubroutines fuel)) as [action|] eqn:Hs.
  { by apply (table_lookup_Forall (λ _ a, preserves R a) _ _ _
                (SystemSubroutines_preserve_all fuel) Hs). }
  preserves_auto.
Qed.
Hint Resolve syscall_preserves : preserves.

Lemma execute_preserves fuel i : preserves R (execute fuel i).
Proof. destruct i; simpl; preserves_auto. Qed.
Hint Resolve execute_preserves : preserves.

Lemma runOneInstruction_preserves fuel : preserves R (runOneInstruction fuel).
Proof. unfold runOneInstruction. preserves_auto. Qed.
Hint Resolve runOneInstruction_preserves : preserves.

Lemma run_loop_preserves steps fuel : preserves R (run_loop steps fuel).
Proof.
  induction steps as [|steps IH]; simpl; [preserves_auto|].
  intros vm. destruct (_ <? _)%nat; [|kept].
  by apply (preserves_bind (R:=R) _ _ (runOneInstruction_preserves fuel) (λ _, IH) vm).
Qed.

Lemma runSome_loop_preserves fuel n : preserves R (runSome_loop fuel n).
Proof.
  induction n as [|n IH]; simpl; [preserves_auto|].
  intros vm. destruct (_ && _); [|kept].
  by apply (preserves_bind (R:=R) _ _ (runOneInstruction_preserves fuel) (λ _, IH) vm).
Qed.
Hint Resolve run_loop_preserves runSome_loop_preserves : preserves.

Lemma runSome_preserves fuel : preserves R (runSome fuel).
Proof. unfold runSome. preserves_auto. Qed.
Hint Resolve runSome_preserves : preserves.

Lemma resume_preserves fuel : preserves R (resume fuel).
Proof. unfold resume. preserves_auto. Qed.
Hint Resolve resume_preserves : preserves.

Lemma host_callback_preserves fuel cb result :
  preserves R (host_callback fuel cb result).
Proof. unfold host_callback. preserves_auto. Qed.

Lemma reset_preserves program : preserves R (reset program).
Proof. unfold reset. preserves_auto. Qed.
Hint Resolve reset_preserves : preserves.

Lemma run_preserves steps fuel program synchronous :
  preserves R (run steps fuel program synchronous).
Proof. unfold run. preserves_auto. Qed.

End Kept.

Hint Resolve
  pop_preserves
  push_preserves
  alloc_preserves
  emit_error_preserves
  read_host_preserves
  builtin_preserves
  lookup_object_preserves
  get_value_preserves
  get_type_preserves
  set_value_preserves
  get_length_preserves
  get_member_preserves
  createInstance_preserves
  call_createInstance_preserves
  call_copy_preserves
  lookup_type_preserves
  resolve_frame_preserves
  lookup_varmap_preserves
  read_property_preserves
  bind_variable_preserves
  setVariable_preserves
  getVariable_preserves
  pushScalar_preserves
  next_data_preserves
  pop_value_preserves
  read_one_preserves
  pop_args_preserves
  read_loop_preserves
  print_to_next_zone_preserves
  new_frame_preserves
  drop3_preserves
  peek_preserves
  relational_preserves
  arithmetic_preserves
  arithmetic_in_pop_order_preserves
  division_preserves
  pop_indexes_preserves
  array_deref_preserves
  pop_dimensions_preserves
  alloc_cells_preserves
  new_ArrayVariable_preserves
  format_output_preserves
  suspend_preserves
  start_interval_preserves
  syscall_preserves
  execute_preserves
  runOneInstruction_preserves
  run_loop_preserves
  runSome_loop_preserves
  runSome_preserves
  resume_preserves
  host_callback_preserves
  reset_preserves
  run_preserves
  : preserves.
(** ** What a throwing operation leaves alone *)

Section Throws.
Context (R : relation VirtualMachine) `{!PreOrder R}.

Lemma on_throw_of_preserves {A} (m : M A) : preserves R m → on_throw R m.
Proof. intros Hm vm e vm' Hthrow. specialize (Hm vm). by rewrite Hthrow in Hm. Qed.

Lemma on_throw_no_throw {A} (m : M A) : no_throw m → on_throw R m.
Proof. intros Hm vm e vm' Hthrow. by destruct (Hm vm e vm'). Qed.

Lemma on_throw_bind {A B} (m : M A) (f : A → M B) :
  preserves R m → (∀ a, on_throw R (f a)) → on_throw R (m ≫= f).
Proof.
  intros Hm Hf vm e vm'. specialize (Hm vm). unfold mbind, M_bind.
  destruct (m vm) as [a vm1|e1 vm1|r]; [|by intros [= <- <-]|done].
  intros Hthrow. etrans; [done|]. by eapply Hf.
Qed.

End Throws.

Lemma no_throw_ret {A} (a : A) : no_throw (mret a).
Proof. by intros vm e vm'. Qed.

Lemma no_throw_get {A} (f : VirtualMachine → A) : no_throw (get f).
Proof. by intros vm e vm'. Qed.

Lemma no_throw_modify f : no_throw (modify f).
Proof. by intros vm e vm'. Qed.

Lemma no_throw_bind {A B} (m : M A) (f : A → M B) :
  no_throw m → (∀ a, no_throw (f a)) → no_throw (m ≫= f).
Proof.
  intros Hm Hf vm e vm'. unfold mbind, M_bind.
  destruct (m vm) as [a vm1|e1 vm1|r] eqn:E; [apply Hf|by destruct (Hm vm e1 vm1)|done].
Qed.

Lemma no_throw_new_frame ret : no_throw (new_frame ret).
Proof. by intros vm e vm'. Qed.

Create HintDb no_throw discriminated.
Hint Resolve no_throw_new_frame : no_throw.

Ltac no_throw_step :=
  lazymatch goal with
  | |- no_throw (mbind _ _) => apply no_throw_bind; [|intros ?]
  | |- no_throw (mret _) => apply no_throw_ret
  | |- no_throw (get _) => apply no_throw_get
  | |- no_throw (modify _) => apply no_throw_modify
  | |- no_throw (emit_event _) => apply no_throw_modify
  | |- no_throw (if ?b then _ else _) => destruct b
  | |- no_throw (match ?x with _ => _ end) => destruct x
  | |- no_throw _ => solve [eauto with no_throw]
  end.

Ltac no_throw_auto := repeat no_throw_step.

Lemma no_throw_suspend : no_throw suspend.
Proof. unfold suspend. no_throw_auto. Qed.
Hint Resolve no_throw_suspend : no_throw.

Ltac on_throw_leaf :=
  first [ apply (on_throw_of_preserves (same _)); solve [preserves_auto]
        | apply on_throw_no_throw; solve [no_throw_auto] ].

Ltac on_throw_step :=
  lazymatch goal with
  | |- on_throw _ (mbind _ _) =>
      first [ on_throw_leaf
            | apply (on_throw_bind (same _)); [solve [preserves_auto] | intros ?] ]
  | |- on_throw _ (if ?b then _ else _) => destruct b
  | |- on_throw _ (match ?x with _ => _ end) => destruct x
  | |- on_throw _ _ => on_throw_leaf
  end.

Ltac on_throw_auto := repeat on_throw_step.

(** *** The program counter *)

(** A jump is the last thing an instruction does: when [execute] throws,
    pc is still the address of the instruction that follows. *)
Lemma execute_throw_keeps_pc fuel i : on_throw (same pc) (execute fuel i).
Proof. destruct i; simpl; on_throw_auto. Qed.

(** *** The suspended flag *)

Lemma SystemSubroutines_throw_keeps_suspended fuel :
  Forall (λ e, e.1 ≠ "SLEEP"%string → e.1 ≠ "SPSET"%string → e.1 ≠ "YIELD"%string →
               on_throw (same suspended) e.2)
         (SystemSubroutines fuel).
Proof.
  unfold SystemSubroutines. repeat apply Forall_cons_2; [..|apply Forall_nil_2];
    simpl; intros Hsleep Hspset Hyield; try done; autounfold with sys; on_throw_auto.
Qed.

(** Only SLEEP, SPSET and YIELD can throw after they have suspended the
    machine: SLEEP and SPSET call [vm.suspend()] before they pop their
    arguments, YIELD before it reads the global [window]. *)
Lemma execute_throw_keeps_suspended fuel i :
  i ≠ SYSCALL "SLEEP" → i ≠ SYSCALL "SPSET" → i ≠ SYSCALL "YIELD" →
  on_throw (same suspended) (execute fuel i).
Proof.
  intros Hsleep Hspset Hyield.
  destruct i; try (apply (on_throw_of_preserves (same _)); simpl; by preserves_auto).
  simpl. unfold syscall.
  repeat (destruct (String.eqb arg _);
          [apply (on_throw_of_preserves (same _)); by preserves_auto|]).
  destruct (table_lookup arg (SystemFunctions fuel)) as [action|] eqn:Hf.
  { apply (on_throw_of_preserves (same _)).
    by apply (table_lookup_Forall (λ _ a, preserves (same suspended) a) _ _ _
                (SystemFunctions_preserve _ fuel) Hf). }
  destruct (bool_decide (arg ∈ object_prototype_keys)); [on_throw_auto|].
  destruct (table_lookup arg (SystemSubroutines fuel)) as [action|] eqn:Hs.
  { apply (table_lookup_Forall
             (λ n a, n ≠ "SLEEP"%string → n ≠ "SPSET"%string → n ≠ "YIELD"%string →
                     on_throw (same suspended) a)
             _ _ _ (SystemSubroutines_throw_keeps_suspended fuel) Hs); congruence. }
  on_throw_auto.
Qed.

(** *** The event log *)

Global Instance no_error_emitted_preorder : PreOrder no_error_emitted.
Proof.
  split.
  - intros vm. exists []. by rewrite app_nil_r.
  - intros vm1 vm2 vm3 (new1 & E1 & F1) (new2 & E2 & F2).
    exists (new1 ++ new2). rewrite E2, E1, app_assoc. split; [done|].
    by apply Forall_app.
Qed.

Lemma no_error_emitted_same_events vm vm' :
  events vm' = events vm → no_error_emitted vm vm'.
Proof. intros E. exists []. by rewrite app_nil_r. Qed.

Hint Extern 0 (KeptByStack no_error_emitted) =>
  (intros ? ?; by apply no_error_emitted_same_events) : typeclass_instances.
Hint Extern 0 (KeptByHeap no_error_emitted) =>
  (intros ? ?; by apply no_error_emitted_same_events) : typeclass_instances.
Hint Extern 0 (KeptByVarmaps no_error_emitted) =>
  (intros ? ?; by apply no_error_emitted_same_events) : typeclass_instances.
Hint Extern 0 (KeptByDataPtr no_error_emitted) =>
  (intros ? ?; by apply no_error_emitted_same_events) : typeclass_instances.
Hint Extern 0 (KeptByCallstack no_error_emitted) =>
  (intros ? ?; by apply no_error_emitted_same_events) : typeclass_instances.
Hint Extern 0 (KeptByFrame no_error_emitted) =>
  (intros ? ?; by apply no_error_emitted_same_events) : typeclass_instances.
Hint Extern 0 (KeptByInterval no_error_emitted) =>
  (intros ? ?; by apply no_error_emitted_same_events) : typeclass_instances.
Hint Extern 0 (KeptByPc no_error_emitted) =>
  (intros ? ?; by apply no_error_emitted_same_events) : typeclass_instances.
Hint Extern 0 (KeptBySuspended no_error_emitted) =>
  (intros ? ?; by apply no_error_emitted_same_events) : typeclass_instances.

Global Instance no_error_emitted_emit : KeptByEmit no_error_emitted.
Proof. intros e He vm. simpl. exists [e]. split; [done|]. by apply Forall_singleton. Qed.

Global Instance no_error_emitted_read : KeptByRead no_error_emitted.
Proof.
  intros what vm. simpl. exists [HostRead what]. split; [done|].
  by apply Forall_singleton.
Qed.

(** No instruction emits an ['error'] event itself. *)
Lemma execute_emits_no_error fuel i : preserves no_error_emitted (execute fuel i).
Proof. apply execute_preserves; apply _. Qed.

(** ** The last random number *)

Lemma perform_keeps_lastRandomNumber fuel op :
  preserves (same lastRandomNumber) (perform fuel op).
Proof. destruct op; simpl; preserves_auto. Qed.

Lemma reachable_lastRandomNumber vm :
  reachable vm → lastRandomNumber vm = num_of_Z 0.
Proof.
  induction 1 as [|fuel op vm vm' _ IH Hop|fuel op vm e vm' _ IH Hop]; [done|..];
    pose proof (perform_keeps_lastRandomNumber fuel op vm) as Hk;
    rewrite Hop in Hk; unfold same in Hk; congruence.
Qed.

Lemma syscall_RND fuel : syscall fuel "RND" = sys_RND.
Proof. done. Qed.

(** C10.  No operation of the machine or of the system routines writes
    [lastRandomNumber]: it is 0 in every reachable state.  [RND] called
    with an argument other than 0 pushes the number the host's generator
    gives and records nothing; called with the argument 0 it pushes 0,
    whatever calls came before. *)
Theorem lastRandomNumber_never_written :
  (∀ fuel op, preserves (same lastRandomNumber) (perform fuel op)) ∧
  (∀ vm, reachable vm → lastRandomNumber vm = num_of_Z 0) ∧
  (∀ fuel vm (numArgs n : val) (rest : list val),
     stack vm = numArgs :: n :: rest →
     strict_eq numArgs (num_lit 1) = true →
     strict_eq n (num_lit 0) = false →
     ∃ vm', execute fuel (SYSCALL "RND") vm = Ret () vm' ∧
            stack vm' = host_input "Math.random" (events vm) :: rest ∧
            lastRandomNumber vm' = lastRandomNumber vm) ∧
  (∀ fuel vm (numArgs n : val) (rest : list val),
     reachable vm →
     stack vm = numArgs :: n :: rest →
     strict_eq numArgs (num_lit 1) = true →
     strict_eq n (num_lit 0) = true →
     execute fuel (SYSCALL "RND") vm = Ret () (set_stack (num_lit 0 :: rest) vm)).
Proof.
  split_and!.
  - apply perform_keeps_lastRandomNumber.
  - apply reachable_lastRandomNumber.
  - intros fuel vm numArgs n rest Hs Hone Hzero. eexists. split.
    + simpl. rewrite syscall_RND. unfold sys_RND, mbind, M_bind.
      rewrite (pop_cons _ _ _ Hs), Hone. simpl. rewrite Hzero. simpl. reflexivity.
    + done.
  - intros fuel vm numArgs n rest Hr Hs Hone Hzero.
    simpl. rewrite syscall_RND. unfold sys_RND, mbind, M_bind.
    rewrite (pop_cons _ _ _ Hs), Hone. simpl. rewrite Hzero. simpl.
    by rewrite (reachable_lastRandomNumber vm Hr).
Qed.
(** ** The dispatch loop *)

Lemma runOneInstruction_unfold fuel vm :
  runOneInstruction fuel vm =
    match instructions vm !! pc vm with
    | None => Ret () (set_pc (S (pc vm)) vm)
    | Some ins =>
        match execute fuel (instr_of ins) (set_pc (S (pc vm)) vm) with
        | Ret _ vm1 => Ret () vm1
        | Throw (RuntimeError code message _) vm1 =>
            Throw (RuntimeError code message (Some (locus_of ins))) vm1
        | Throw (JsError _) vm1 => Ret () vm1
        | Abort r => Abort r
        end
    end.
Proof.
  unfold runOneInstruction, mbind, M_bind, get, modify, try_catch. simpl.
  destruct (instructions vm !! pc vm) as [ins|]; [|done].
  destruct (execute _ _ _) as [[] vm1|[c m l|k] vm1|r]; done.
Qed.

Lemma execute_keeps_instructions fuel i : preserves (same instructions) (execute fuel i).
Proof. apply execute_preserves; apply _. Qed.

(** Whatever [runOneInstruction] throws is a RuntimeError that carries the
    locus of the instruction it has just dispatched; pc is past that
    instruction. *)
Lemma runOneInstruction_throw fuel vm e vm1 :
  runOneInstruction fuel vm = Throw e vm1 →
  ∃ ins code message,
    instructions vm1 !! pc vm = Some ins ∧ pc vm1 = S (pc vm) ∧
    instructions vm1 = instructions vm ∧
    e = RuntimeError code message (Some (locus_of ins)).
Proof.
  rewrite runOneInstruction_unfold.
  destruct (instructions vm !! pc vm) as [ins|] eqn:Hi; [|done].
  destruct (execute _ _ _) as [[] vm2|[c m l|k] vm2|r] eqn:He; try done.
  intros [= <- <-].
  pose proof (execute_throw_keeps_pc fuel _ _ _ _ He) as Hpc.
  pose proof (execute_keeps_instructions fuel (instr_of ins) (set_pc (S (pc vm)) vm)) as Hins.
  rewrite He in Hins. unfold same in *. simpl in *.
  exists ins, c, m. by rewrite Hins.
Qed.
Lemma runOneInstruction_raised_by fuel vm e vm1 :
  runOneInstruction fuel vm = Throw e vm1 → raised_by e vm1.
Proof.
  intros (ins & c & m & Hi & Hpc & _ & ->)%runOneInstruction_throw.
  exists ins, c, m. rewrite Hpc. simpl. by rewrite Nat.sub_0_r.
Qed.

Lemma run_loop_throw steps fuel vm e vm1 :
  run_loop steps fuel vm = Throw e vm1 → raised_by e vm1.
Proof.
  revert vm. induction steps as [|steps IH]; intros vm; simpl; [done|].
  destruct (_ <? _)%nat; [|done]. unfold mbind, M_bind.
  destruct (runOneInstruction fuel vm) as [[] vm2|e2 vm2|r] eqn:Hone; [apply IH| |done].
  intros [= <- <-]. by eapply runOneInstruction_raised_by.
Qed.

Lemma runSome_loop_throw fuel n vm e vm1 :
  runSome_loop fuel n vm = Throw e vm1 → raised_by e vm1.
Proof.
  revert vm. induction n as [|n IH]; intros vm; simpl; [done|].
  destruct (_ && _); [|done]. unfold mbind, M_bind.
  destruct (runOneInstruction fuel vm) as [[] vm2|e2 vm2|r] eqn:Hone; [apply IH| |done].
  intros [= <- <-]. by eapply runOneInstruction_raised_by.
Qed.

(** C1, as the code has it.  A RuntimeError raised by [execute] is caught
    by [runOneInstruction] and raised again with the locus of the
    instruction.  In asynchronous mode [runSome] then suspends the
    machine and emits the error as an ['error'] event; in synchronous
    mode [run] emits the event and returns, and the suspended flag keeps
    the value it had.  An error that is not a RuntimeError is dropped by
    [runOneInstruction]. *)
Theorem runtime_error_propagation fuel :
  (∀ vm ins code message locus vm1,
     instructions vm !! pc vm = Some ins →
     execute fuel (instr_of ins) (set_pc (S (pc vm)) vm)
     = Throw (RuntimeError code message locus) vm1 →
     runOneInstruction fuel vm
     = Throw (RuntimeError code message (Some (locus_of ins))) vm1) ∧
  (∀ vm e vm1,
     runSome_loop fuel (instructionsPerInterval vm) vm = Throw e vm1 →
     raised_by e vm1 ∧
     ∃ vm2, runSome fuel vm = Ret () vm2 ∧
       suspended vm2 = true ∧
       events vm2 =
         events vm1
         ++ (if asynchronous vm1 then [ClearInterval (interval vm1)] else [])
         ++ [EmitError e]
         ++ (if (pc vm1 =? length (instructions vm1))%nat
             then [ClearInterval (interval vm1)] else [])) ∧
  (∀ steps program vm0 vm e vm1,
     (reset (Some program);; modify (set_asynchronous false)) vm0 = Ret () vm →
     run_loop steps fuel vm = Throw e vm1 →
     raised_by e vm1 ∧
     run steps fuel program true vm0
     = Ret () (set_events (events vm1 ++ [EmitError e]) vm1)) ∧
  (∀ vm ins kind vm1,
     instructions vm !! pc vm = Some ins →
     execute fuel (instr_of ins) (set_pc (S (pc vm)) vm) = Throw (JsError kind) vm1 →
     runOneInstruction fuel vm = Ret () vm1).
Proof.
  split_and!.
  - intros vm ins code message locus vm1 Hi He.
    by rewrite runOneInstruction_unfold, Hi, He.
  - intros vm e vm1 Hloop. split; [by eapply runSome_loop_throw|].
    unfold runSome, try_catch, mbind, M_bind, get. rewrite Hloop.
    unfold suspend, mbind, M_bind, modify, get, emit_event, modify, mret, M_ret.
    vm_norm.
    destruct (asynchronous vm1); cbv beta iota; vm_norm;
      destruct (pc vm1 =? length (instructions vm1))%nat; cbv beta iota;
      eexists; (split; [reflexivity|]); vm_norm; (split; [reflexivity|]);
      rewrite <- ?app_assoc; reflexivity.
  - intros steps program vm0 vm e vm1 Hreset Hloop.
    split; [by eapply run_loop_throw|].
    unfold run. rewrite <- bind_assoc. rewrite (bind_Ret _ _ _ _ _ Hreset).
    cbv beta iota. by rewrite (try_catch_Throw _ _ _ _ _ Hloop).
  - intros vm ins kind vm1 Hi He.
    by rewrite runOneInstruction_unfold, Hi, He.
Qed.
(** C9, as the code has it.  When [execute] throws something that is not
    a RuntimeError, [runOneInstruction] catches it and drops it: it
    returns normally, in the very state [execute] left.  No ['error']
    event has been emitted, pc is the incremented pc, and the next
    iteration of the loop of [run] goes on from there, as does the loop of
    [runSome] while the machine is not suspended.  The handler does not
    suspend the machine: the suspended flag is the one [execute] left,
    which is the one it found unless the instruction is the syscall
    SLEEP, SPSET or YIELD: these suspend the machine before the statement
    that can throw (a pop of an argument; in YIELD, the reading of the
    global [window]). *)
Theorem non_runtime_error_discarded fuel vm ins kind vm1 :
  instructions vm !! pc vm = Some ins →
  execute fuel (instr_of ins) (set_pc (S (pc vm)) vm) = Throw (JsError kind) vm1 →
  runOneInstruction fuel vm = Ret () vm1 ∧
  pc vm1 = S (pc vm) ∧
  no_error_emitted vm vm1 ∧
  (instr_of ins ≠ SYSCALL "SLEEP" → instr_of ins ≠ SYSCALL "SPSET" →
   instr_of ins ≠ SYSCALL "YIELD" →
     suspended vm1 = suspended vm) ∧
  (∀ steps, run_loop (S steps) fuel vm = run_loop steps fuel vm1) ∧
  (∀ n, suspended vm = false →
        runSome_loop fuel (S n) vm = runSome_loop fuel n vm1).
Proof.
  intros Hi He.
  assert (runOneInstruction fuel vm = Ret () vm1) as Hone
    by (by rewrite runOneInstruction_unfold, Hi, He).
  assert ((pc vm <? length (instructions vm))%nat = true) as Hlt
    by (apply Nat.ltb_lt; by eapply lookup_lt_Some).
  split_and!.
  - done.
  - apply (execute_throw_keeps_pc _ _ _ _ _ He).
  - pose proof (execute_emits_no_error fuel (instr_of ins) (set_pc (S (pc vm)) vm)) as Hev.
    by rewrite He in Hev.
  - intros Hsleep Hspset Hyield.
    apply (execute_throw_keeps_suspended _ _ Hsleep Hspset Hyield _ _ _ He).
  - intros steps. cbn [run_loop]. rewrite Hlt. by rewrite (bind_Ret _ _ _ _ _ Hone).
  - intros n Hsusp. cbn [runSome_loop]. rewrite Hlt, Hsusp.
    by rewrite (bind_Ret _ _ _ _ _ Hone).
Qed.

(** ** What the machine as a whole does and never does *)

(** *** The kind of error an action can throw *)

Lemma raises_mono {A} (P Q : exn → Prop) (m : M A) :
  (∀ e, P e → Q e) → raises P m → raises Q m.
Proof. intros HPQ Hm vm e vm' Hthrow. by eapply HPQ, Hm. Qed.

Lemma raises_no_throw {A} (P : exn → Prop) (m : M A) : no_throw m → raises P m.
Proof. intros Hm vm e vm' Hthrow. by destruct (Hm vm e vm'). Qed.

Lemma raises_throw {A} (P : exn → Prop) e : P e → raises P (throw e : M A).
Proof. by intros He vm e' vm' [= <- <-]. Qed.

Lemma raises_abort {A} (P : exn → Prop) r : raises P (abort_with r : M A).
Proof. by intros vm e vm'. Qed.

Lemma raises_bind {A B} (P : exn → Prop) (m : M A) (f : A → M B) :
  raises P m → (∀ a, raises P (f a)) → raises P (m ≫= f).
Proof.
  intros Hm Hf vm e vm'. unfold mbind, M_bind.
  destruct (m vm) as [a vm1|e1 vm1|r] eqn:E; [apply Hf| |done].
  intros [= <- <-]. by eapply Hm.
Qed.

Lemma raises_lift_js {A} (P : exn → Prop) (r : A + JsErrorKind) :
  (∀ k, P (JsError k)) → raises P (lift_js r).
Proof. intros HP. destruct r; [by apply raises_no_throw|by apply raises_throw]. Qed.

Lemma raises_lift_abort {A} (P : exn → Prop) (r : A + abort) : raises P (lift_abort r).
Proof. destruct r; [by apply raises_no_throw|apply raises_abort]. Qed.

Create HintDb raises discriminated.

Ltac raises_step :=
  lazymatch goal with
  | |- raises _ (mbind _ _) => apply raises_bind; [|intros ?]
  | |- raises _ (mret _) => apply raises_no_throw, no_throw_ret
  | |- raises _ (get _) => apply raises_no_throw, no_throw_get
  | |- raises _ (modify _) => apply raises_no_throw, no_throw_modify
  | |- raises _ (emit_event _) => apply raises_no_throw, no_throw_modify
  | |- raises _ (throw _) => apply raises_throw; solve [auto with raises]
  | |- raises _ (abort_with _) => apply raises_abort
  | |- raises _ (lift_js _) => apply raises_lift_js; intros ?; solve [auto with raises]
  | |- raises _ (lift_abort _) => apply raises_lift_abort
  | |- raises _ (if ?b then _ else _) => destruct b
  | |- raises _ (match ?x with _ => _ end) => destruct x
  | |- raises _ _ => solve [eauto with raises]
  end.

Ltac raises_auto := repeat raises_step.

Section Raises.
(** [P] holds of every error that is not a RuntimeError. *)
Context (P : exn → Prop) (HP : ∀ k, P (JsError k)).
Hint Resolve HP : raises.

Lemma pop_raises : raises P pop.
Proof. intros vm e vm'. unfold pop. by destruct (stack vm). Qed.

Lemma push_raises v : raises P (push v).
Proof. unfold push. raises_auto. Qed.

Lemma alloc_raises o : raises P (alloc o).
Proof. by intros vm e vm'. Qed.

Lemma read_host_raises what : raises P (read_host what).
Proof. by intros vm e vm'. Qed.

Lemma builtin_raises name args : raises P (builtin name args).
Proof. unfold builtin. raises_auto. Qed.

Lemma lookup_object_raises a : raises P (lookup_object a).
Proof. intros vm e vm'. unfold lookup_object. by destruct (heap vm !! a). Qed.

Hint Resolve pop_raises push_raises alloc_raises read_host_raises builtin_raises
  lookup_object_raises : raises.

Lemma get_value_raises v : raises P (get_value v).
Proof. unfold get_value. raises_auto. Qed.

Lemma get_type_raises v : raises P (get_type v).
Proof. unfold get_type. raises_auto. Qed.

Lemma set_value_raises v w : raises P (set_value v w).
Proof. unfold set_value. raises_auto. Qed.

Lemma get_length_raises v : raises P (get_length v).
Proof. unfold get_length. raises_auto. Qed.

Lemma read_property_raises m name : raises P (read_property m name).
Proof. unfold read_property. raises_auto. Qed.
Hint Resolve read_property_raises : raises.

Lemma get_member_raises v name : raises P (get_member v name).
Proof. unfold get_member. raises_auto. Qed.

Lemma createInstance_raises t : raises P (createInstance t).
Proof.
  destruct t as [k|ms]; simpl; [raises_auto|].
  intros vm e vm'. by destruct (alloc_members ms (heap vm)).
Qed.

Hint Resolve get_value_raises get_type_raises set_value_raises get_length_raises
  get_member_raises createInstance_raises : raises.

Lemma call_createInstance_raises t : raises P (call_createInstance t).
Proof. unfold call_createInstance. raises_auto. Qed.

Lemma call_copy_raises t v : raises P (call_copy t v).
Proof.
  unfold call_copy. destruct t; try by raises_auto.
  intros vm e vm'. destruct (type_copy _ _ _) as [[c|k] h]; [done|].
  by intros [= <- <-].
Qed.

Lemma lookup_type_raises name : raises P (lookup_type name).
Proof.
  intros vm e vm'. unfold lookup_type. destruct (types vm !! name); [done|].
  by destruct (bool_decide _).
Qed.


Lemma resolve_frame_raises name : raises P (resolve_frame name).
Proof.
  intros vm e vm'. unfold resolve_frame.
  destruct (is_shared _ _); [destruct (callstack vm !! 0) | destruct (frame vm)];
    try done; by intros [= <- <-].
Qed.

Lemma lookup_varmap_raises i : raises P (lookup_varmap i).
Proof. intros vm e vm'. unfold lookup_varmap. by destruct (varmaps vm !! i). Qed.

Hint Resolve call_createInstance_raises call_copy_raises lookup_type_raises
  resolve_frame_raises lookup_varmap_raises read_property_raises : raises.

Lemma bind_variable_raises f name v : raises P (bind_variable f name v).
Proof. unfold bind_variable. raises_auto. Qed.
Hint Resolve bind_variable_raises : raises.

Lemma setVariable_raises name v : raises P (setVariable name v).
Proof. unfold setVariable. raises_auto. Qed.

Lemma getVariable_raises name : raises P (getVariable name).
Proof. unfold getVariable. raises_auto. Qed.

Lemma next_data_raises : raises P next_data.
Proof. by intros vm e vm'. Qed.

Lemma pop_value_raises : raises P pop_value.
Proof. unfold pop_value. raises_auto. Qed.

Hint Resolve setVariable_raises getVariable_raises next_data_raises
  pop_value_raises : raises.

Lemma pop_args_raises fuel count i args : raises P (pop_args fuel count i args).
Proof. revert i args. induction fuel as [|fuel IH]; intros i args; simpl; raises_auto. Qed.

Lemma read_one_raises a : raises P (read_one a).
Proof. unfold read_one. raises_auto. Qed.
Hint Resolve read_one_raises : raises.

Lemma read_loop_raises fuel count args i : raises P (read_loop fuel count args i).
Proof. revert i. induction fuel as [|fuel IH]; intros i; simpl; raises_auto. Qed.

Lemma print_to_next_zone_raises fuel : raises P (print_to_next_zone fuel).
Proof. unfold print_to_next_zone. raises_auto. Qed.

Lemma new_frame_raises ret : raises P (new_frame ret).
Proof. by intros vm e vm'. Qed.

Lemma drop3_raises : raises P drop3.
Proof.
  intros vm e vm'. unfold drop3.
  destruct (stack vm) as [|? [|? [|? ?]]]; try done; by intros [= <- <-].
Qed.

Lemma peek_raises k : raises P (peek k).
Proof. unfold peek. raises_auto. Qed.

Lemma suspend_raises : raises P suspend.
Proof. apply raises_no_throw, no_throw_suspend. Qed.

Hint Resolve pop_args_raises read_loop_raises print_to_next_zone_raises
  new_frame_raises drop3_raises peek_raises suspend_raises : raises.

Lemma relational_raises op : raises P (relational op).
Proof. unfold relational. raises_auto. Qed.

Lemma arithmetic_raises op : raises P (arithmetic op).
Proof. unfold arithmetic. raises_auto. Qed.

Lemma arithmetic_in_pop_order_raises op : raises P (arithmetic_in_pop_order op).
Proof. unfold arithmetic_in_pop_order. raises_auto. Qed.

Lemma pop_dimensions_raises fuel count i dims :
  raises P (pop_dimensions fuel count i dims).
Proof. revert i dims. induction fuel as [|fuel IH]; intros i dims; simpl; raises_auto. Qed.

Lemma alloc_cells_raises n type cells : raises P (alloc_cells n type cells).
Proof. revert cells. induction n as [|n IH]; intros cells; simpl; raises_auto. Qed.
Hint Resolve pop_dimensions_raises alloc_cells_raises : raises.

Lemma new_ArrayVariable_raises type dims : raises P (new_ArrayVariable type dims).
Proof. unfold new_ArrayVariable. raises_auto. Qed.

Lemma format_output_raises f args : raises P (format_output f args).
Proof.
  intros vm e vm'. unfold format_output, lift_js.
  destruct (format_using _ _ _) as [s|k]; [done|]. by intros [= <- <-].
Qed.

Hint Resolve relational_raises arithmetic_raises arithmetic_in_pop_order_raises
  new_ArrayVariable_raises format_output_raises : raises.

Lemma SystemFunctions_raise fuel :
  Forall (λ e, raises P e.2) (SystemFunctions fuel).
Proof.
  unfold SystemFunctions. repeat apply Forall_cons_2; [..|apply Forall_nil_2];
    simpl; autounfold with sys; raises_auto.
Qed.

Lemma SystemSubroutines_raise fuel :
  Forall (λ e, raises P e.2) (SystemSubroutines fuel).
Proof.
  unfold SystemSubroutines. repeat apply Forall_cons_2; [..|apply Forall_nil_2];
    simpl; autounfold with sys; raises_auto.
Qed.

End Raises.

Hint Resolve pop_raises push_raises alloc_raises read_host_raises builtin_raises
  lookup_object_raises get_value_raises get_type_raises set_value_raises
  get_length_raises get_member_raises createInstance_raises
  call_createInstance_raises call_copy_raises lookup_type_raises
  resolve_frame_raises lookup_varmap_raises read_property_raises bind_variable_raises
  setVariable_raises getVariable_raises next_data_raises pop_value_raises
  pop_args_raises read_one_raises read_loop_raises print_to_next_zone_raises
  new_frame_raises drop3_raises peek_raises suspend_raises relational_raises
  arithmetic_raises arithmetic_in_pop_order_raises pop_dimensions_raises
  alloc_cells_raises new_ArrayVariable_raises format_output_raises : raises.

Lemma not_runtime_js k : not_runtime (JsError k).
Proof. done. Qed.

Lemma may_raise_js fuel i k : may_raise fuel i (JsError k).
Proof. by left. Qed.
Hint Resolve not_runtime_js may_raise_js : raises.

Lemma syscall_raises fuel name :
  raises (may_raise fuel (SYSCALL name)) (syscall fuel name).
Proof.
  unfold syscall.
  destruct (String.eqb_spec name "print") as [->|H1]; [raises_auto|].
  destruct (String.eqb_spec name "alloc_array") as [->|H2]; [raises_auto|].
  destruct (String.eqb_spec name "print_comma") as [->|H3]; [raises_auto|].
  destruct (String.eqb_spec name "print_tab") as [->|H4]; [raises_auto|].
  destruct (String.eqb_spec name "alloc_scalar") as [->|H5]; [raises_auto|].
  destruct (table_lookup name (SystemFunctions fuel)) as [action|] eqn:Hf.
  { apply (table_lookup_Forall (λ _ a, raises _ a) _ _ _
             (SystemFunctions_raise _ (may_raise_js fuel _) fuel) Hf). }
  destruct (bool_decide (name ∈ object_prototype_keys)); [raises_auto|].
  destruct (table_lookup name (SystemSubroutines fuel)) as [action|] eqn:Hs.
  { apply (table_lookup_Forall (λ _ a, raises _ a) _ _ _
             (SystemSubroutines_raise _ (may_raise_js fuel _) fuel) Hs). }
  apply raises_throw. right. split; [done|]. split_and!; [|done..].
  intros Hin. repeat (apply elem_of_cons in Hin as [->|Hin]; [done|]).
  by apply elem_of_nil in Hin.
Qed.

Lemma pop_indexes_raises n indexes arg :
  raises (may_raise 0 (ARRAY_DEREF arg)) (pop_indexes n indexes).
Proof.
  revert indexes. induction n as [|n IH]; intros indexes; simpl; [raises_auto|].
  apply raises_bind; [raises_auto|intros index].
  apply raises_bind; [|intros _; apply IH].
  destruct (strict_eq _ _); [apply raises_throw; by right|raises_auto].
Qed.

Lemma execute_raises fuel i : raises (may_raise fuel i) (execute fuel i).
Proof.
  destruct i; simpl;
    try (apply (raises_mono not_runtime); [by left|]; by raises_auto).
  - (* / *)
    unfold division. apply raises_bind; [raises_auto|intros rhs].
    apply raises_bind; [|intros _; raises_auto].
    destruct (strict_eq _ _); [apply raises_throw; by right|raises_auto].
  - (* MOD *)
    unfold division. apply raises_bind; [raises_auto|intros rhs].
    apply raises_bind; [|intros _; raises_auto].
    destruct (strict_eq _ _); [apply raises_throw; by right|raises_auto].
  - (* RET *)
    apply raises_bind; [raises_auto|intros cs].
    destruct (last cs); [raises_auto|apply raises_throw; by right].
  - (* ARRAY_DEREF *)
    unfold array_deref. apply raises_bind; [raises_auto|intros variable].
    destruct variable; try by raises_auto.
    apply raises_bind; [raises_auto|intros o].
    destruct o as [| t dims cells |f]; try by raises_auto.
    apply raises_bind; [|intros indexes; raises_auto].
    apply (raises_mono (may_raise 0 (ARRAY_DEREF arg))); [by intros e [?|?]; [left|right]|].
    apply pop_indexes_raises.
  - (* SYSCALL *)
    apply syscall_raises.
Qed.

(** X1.  The RuntimeErrors of the instruction table.  When the [execute]
    of an instruction throws a RuntimeError it is DIVISION_BY_ZERO from
    [/] or [MOD], STACK_UNDERFLOW from [RET] or [ARRAY_DEREF], or
    UKNOWN_SYSCALL from [SYSCALL] with a name that neither table of
    system routines has; it carries no locus yet.  No instruction and no
    system routine raises STACK_OVERFLOW or IO_ERROR. *)
Theorem runtime_errors_of_the_instructions fuel i vm code message locus vm' :
  execute fuel i vm = Throw (RuntimeError code message locus) vm' →
  error_of fuel i (RuntimeError code message locus) ∧
  locus = None ∧ code ≠ STACK_OVERFLOW ∧ code ≠ IO_ERROR.
Proof.
  intros Hthrow. destruct (execute_raises fuel i _ _ _ Hthrow) as [|He]; [done|].
  split; [done|]. destruct i; simpl in He; try done;
    try (injection He as -> -> ->; done).
  destruct He as [He _]. by injection He as -> -> ->.
Qed.

(** X2.  [SYSCALL] with a name that is neither one of the five routines
    the instruction implements itself nor a key of [SystemFunctions] or
    [SystemSubroutines] raises the RuntimeError UKNOWN_SYSCALL (301),
    with the name in its message, and changes nothing.  (A name that
    every JavaScript object has, such as [toString], is not unknown to
    the tables in this sense.) *)
Theorem unknown_syscall_is_trapped fuel name vm :
  unknown_syscall fuel name → name ∉ object_prototype_keys →
  execute fuel (SYSCALL name) vm
  = Throw (RuntimeError UKNOWN_SYSCALL ("Unknown syscall: " ++ name)%string None) vm ∧
  code_number UKNOWN_SYSCALL = 301%Z.
Proof.
  intros (Hinline & Hf & Hs) Hkeys. split; [|done].
  simpl. unfold syscall.
  assert (∀ known, known ∈ ["print"; "alloc_array"; "print_comma"; "print_tab";
                               "alloc_scalar"]%string →
                     String.eqb name known = false) as Hne.
  { intros known Hin. destruct (String.eqb_spec name known) as [->|]; done. }
  rewrite !Hne by (rewrite !elem_of_cons; auto 10).
  by rewrite Hf, Hs, bool_decide_eq_false_2.
Qed.

(** X3.  When the [execute] of an instruction throws, whatever it throws,
    pc is what it was: an instruction that assigns [vm.pc] does so as its
    last step, after everything in it that can fail. *)
Theorem throwing_instruction_keeps_pc fuel i vm e vm' :
  execute fuel i vm = Throw e vm' → pc vm' = pc vm.
Proof. apply execute_throw_keeps_pc. Qed.

(** *** What an operation leaves alone *)

Section Footprint.
Context (R : relation VirtualMachine) `{!PreOrder R}.
Context `{!KeptByStack R} `{!KeptByHeap R} `{!KeptByVarmaps R} `{!KeptByEvents R}
  `{!KeptByDataPtr R} `{!KeptByCallstack R} `{!KeptByFrame R} `{!KeptByInterval R}
  `{!KeptByPc R} `{!KeptBySuspended R}.

Lemma perform_preserves fuel op :
  loads_no_program op → preserves R (perform fuel op).
Proof.
  destruct op as [[program|]| | | | | | | | | |]; simpl; intros Hop; try done;
    try (unfold reset); preserves_auto.
Qed.

End Footprint.

(** X4.  The program is read-only while it runs.  No operation of the
    machine but [reset(program)] and [run], which load a program, changes
    [instructions], [types], [shared], [data] or [defaultType], nor the
    [asynchronous] flag: not an instruction, not a system routine, not a
    tick of the interval, not a callback of the host. *)
Theorem program_is_read_only fuel op :
  loads_no_program op → preserves same_program (perform fuel op).
Proof.
  intros Hop vm.
  pose proof (perform_preserves (same instructions) fuel op Hop vm) as H1.
  pose proof (perform_preserves (same types) fuel op Hop vm) as H2.
  pose proof (perform_preserves (same shared) fuel op Hop vm) as H3.
  pose proof (perform_preserves (same data) fuel op Hop vm) as H4.
  pose proof (perform_preserves (same defaultType) fuel op Hop vm) as H5.
  pose proof (perform_preserves (same asynchronous) fuel op Hop vm) as H6.
  by destruct (perform fuel op vm).
Qed.

(** X5.  Only five system subroutines suspend the machine: PLAY, SLEEP,
    INPUT, YIELD and SPSET.  Any other instruction, whether it returns or
    throws, leaves the suspended flag as it found it. *)
Theorem only_five_routines_suspend fuel i :
  (∀ name, i = SYSCALL name → suspends name = false) →
  preserves (same suspended) (execute fuel i).
Proof.
  intros Hname.
  destruct i; try (simpl; by preserves_auto).
  specialize (Hname arg eq_refl). simpl. unfold syscall.
  repeat (destruct (String.eqb arg _); [by preserves_auto|]).
  destruct (table_lookup arg (SystemFunctions fuel)) as [action|] eqn:Hf.
  { by apply (table_lookup_Forall (λ _ a, preserves (same suspended) a) _ _ _
                (SystemFunctions_preserve _ fuel) Hf). }
  destruct (bool_decide (arg ∈ object_prototype_keys)); [by preserves_auto|].
  destruct (table_lookup arg (SystemSubroutines fuel)) as [action|] eqn:Hs.
  { by apply (table_lookup_Forall
                (λ n a, suspends n = false → preserves (same suspended) a) _ _ _
                (SystemSubroutines_preserve _ fuel) Hs). }
  preserves_auto.
Qed.

Global Instance stack_and_queries_only_preorder : PreOrder stack_and_queries_only.
Proof.
  split.
  - intros vm. split; [by destruct vm|]. exists []. by rewrite app_nil_r.
  - intros vm1 vm2 vm3 [E2 (a2 & Q2)] [E3 (a3 & Q3)]. split.
    + rewrite E3 at 1. rewrite E2 at 1. by destruct vm1.
    + exists (a2 ++ a3). by rewrite Q3, Q2, fmap_app, app_assoc.
Qed.

Global Instance stack_and_queries_only_stack : KeptByStack stack_and_queries_only.
Proof.
  intros x vm. split; [by destruct vm|]. exists []. by rewrite app_nil_r.
Qed.

Global Instance stack_and_queries_only_read : KeptByRead stack_and_queries_only.
Proof.
  intros what vm. simpl. split; [by destruct vm|]. by exists [what].
Qed.

(** X6.  A system function works on the operand stack only.  Whatever
    the stack holds, and whether the function returns or throws, the
    machine is afterwards what it was but for the stack and for the
    queries to the host (the key buffer, the clock, the random generator)
    added to the log: pc, the call stack, the variables, the store, the
    data pointer and the suspended flag are untouched, and nothing is
    printed or emitted. *)
Theorem system_functions_use_the_stack_only fuel name action :
  table_lookup name (SystemFunctions fuel) = Some action →
  preserves stack_and_queries_only action.
Proof.
  intros Hf.
  by apply (table_lookup_Forall (λ _ a, preserves stack_and_queries_only a) _ _ _
              (SystemFunctions_preserve _ fuel) Hf).
Qed.

Hint Extern 0 (KeptByProgram no_error_emitted) =>
  (intros ? ?; by apply no_error_emitted_same_events) : typeclass_instances.

(** X7.  An ['error'] event comes from the dispatch loops only.  No
    instruction, no system routine and none of [reset], [suspend],
    [runOneInstruction], [getVariable], [setVariable] and [pushScalar]
    emits one, whether it returns or throws; these only ever add to the
    log of events, and what they add is no ['error'] event. *)
Theorem error_events_come_from_the_loops fuel op :
  runs_the_loop op = false → preserves no_error_emitted (perform fuel op).
Proof.
  destruct op; simpl; intros Hop; try done; preserves_auto.
Qed.

(** *** The dispatch loops as a whole *)

Lemma bind_Ret_inv {A B} (m : M A) (f : A → M B) vm b vm' :
  (m ≫= f) vm = Ret b vm' → ∃ a vm1, m vm = Ret a vm1 ∧ f a vm1 = Ret b vm'.
Proof.
  unfold mbind, M_bind. destruct (m vm) as [a vm1|e vm1|r]; [|done..]. eauto.
Qed.

Lemma no_throw_try_catch {A} (m : M A) (h : exn → M A) :
  (∀ e, no_throw (h e)) → no_throw (try_catch m h).
Proof.
  intros Hh vm e vm'. unfold try_catch.
  destruct (m vm) as [a vm1|e1 vm1|r]; [done|apply Hh|done].
Qed.

Lemma no_throw_start_interval : no_throw start_interval.
Proof. unfold start_interval. no_throw_auto. Qed.

Lemma no_throw_runSome fuel : no_throw (runSome fuel).
Proof.
  unfold runSome. apply no_throw_bind; [|intros ?; no_throw_auto].
  apply no_throw_try_catch. intros e. no_throw_auto.
Qed.
Hint Resolve no_throw_start_interval no_throw_runSome : no_throw.

Lemma no_throw_resume fuel : no_throw (resume fuel).
Proof. unfold resume. no_throw_auto. Qed.
Hint Resolve no_throw_resume : no_throw.

(** X8.  A tick of the interval never throws, and neither does [resume]
    nor the callback that resumes the machine after SLEEP, PLAY, YIELD or
    SPSET: whatever an instruction throws ends in [runSome] as an
    ['error'] event or is dropped by [runOneInstruction]. *)
Theorem a_tick_never_throws fuel :
  no_throw (runSome fuel) ∧ no_throw (resume fuel) ∧
  (∀ result, no_throw (host_callback fuel CbResume result)) ∧
  (∀ result, no_throw (host_callback fuel CbKeyResume result)).
Proof. split_and!; [eauto with no_throw..| |]; intros result; simpl; no_throw_auto. Qed.

Lemma run_loop_ret steps fuel vm vm' :
  run_loop steps fuel vm = Ret () vm' → length (instructions vm') ≤ pc vm'.
Proof.
  revert vm. induction steps as [|steps IH]; intros vm; simpl; [done|].
  destruct (pc vm <? length (instructions vm))%nat eqn:Hlt.
  - intros (? & vm1 & _ & Hrest)%bind_Ret_inv. by eapply IH.
  - intros [= <-]. by apply Nat.ltb_ge.
Qed.

Hint Extern 0 (KeptByAsynchronous no_error_emitted) =>
  (intros ? ?; by apply no_error_emitted_same_events) : typeclass_instances.

(** X9.  How a synchronous [run] ends.  When [run(program, true)] returns,
    either pc is at or past the end of the program and no ['error'] event
    was emitted, or exactly one ['error'] event was emitted and it is the
    last event of the run: the loop stopped at the first RuntimeError,
    which carries the locus of the instruction just before pc. *)
Theorem synchronous_run_outcome steps fuel program vm0 vm' :
  run steps fuel program true vm0 = Ret () vm' →
  (length (instructions vm') ≤ pc vm' ∧ no_error_emitted vm0 vm') ∨
  (∃ vm1 e,
     vm' = set_events (events vm1 ++ [EmitError e]) vm1 ∧
     no_error_emitted vm0 vm1 ∧ raised_by e vm1).
Proof.
  unfold run. rewrite <- bind_assoc.
  intros ([] & vm & Hreset & Hloop)%bind_Ret_inv. cbv beta iota in Hloop.
  assert (no_error_emitted vm0 vm) as Hquiet.
  { assert (preserves no_error_emitted
              (reset (Some program);; modify (set_asynchronous (negb true)))) as Hp
      by preserves_auto.
    specialize (Hp vm0). by rewrite Hreset in Hp. }
  pose proof (run_loop_preserves no_error_emitted steps fuel vm) as Hp.
  unfold try_catch in Hloop.
  destruct (run_loop steps fuel vm) as [[] vm1|e vm1|r] eqn:Hrun; [| |done].
  - injection Hloop as <-. left. split; [by eapply run_loop_ret|by etrans].
  - right. exists vm1, e. split_and!.
    + by injection Hloop as <-.
    + by etrans.
    + by eapply run_loop_throw.
Qed.

(** *** Variables across calls *)

(** What [getVariable] leaves behind when it returns: the name is bound,
    in the frame it resolves to, to the variable returned. *)
Lemma getVariable_binds name vm r vm1 :
  getVariable name vm = Ret r vm1 →
  ∃ f m,
    frame_of name vm1 = Some f ∧ varmaps vm1 !! sf_variables f = Some m ∧
    m !! name = Some r ∧ truthy r = true ∧ name ≠ "__proto__"%string.
Proof.
  intros Hget. pose proof Hget as Hrun. unfold getVariable in Hrun.
  apply bind_Ret_inv in Hrun as (f & vm_a & Hf & Hrun).
  assert (vm_a = vm ∧ frame_of name vm = Some f) as [-> Hfo].
  { unfold resolve_frame in Hf. fold (frame_of name vm) in Hf.
    destruct (frame_of name vm); [|done]. by injection Hf as -> ->. }
  apply bind_Ret_inv in Hrun as (m & vm_b & Hm & Hrun).
  assert (vm_b = vm ∧ varmaps vm !! sf_variables f = Some m) as [-> Hmo].
  { unfold lookup_varmap in Hm. destruct (varmaps vm !! _); [|done].
    by injection Hm as -> ->. }
  apply bind_Ret_inv in Hrun as (bound & vm_r & Hread & Hrun).
  apply read_property_inv in Hread as (-> & Hname & -> & _).
  destruct (truthy (default VUndefined (m !! name))) eqn:Ht.
  - injection Hrun as <- <-. exists f, m. by destruct (m !! name).
  - apply bind_Ret_inv in Hrun as (type & vm_c & Htype & Hrun).
    assert (vm_c = vm) as ->.
    { destruct (DeriveTypeNameFromVariable name) as [typeName|];
        [|by injection Htype as _ ->].
      unfold lookup_type in Htype.
      destruct (types vm !! typeName); [by injection Htype as _ ->|].
      destruct (bool_decide _); [done|]. by injection Htype as _ ->. }
    apply bind_Ret_inv in Hrun as (inst & vm2 & Hinst & Hrun).
    pose proof (call_createInstance_preserves (same varmaps) type vm) as Kv.
    pose proof (call_createInstance_preserves (same shared) type vm) as Ks.
    pose proof (call_createInstance_preserves (same callstack) type vm) as Kc.
    pose proof (call_createInstance_preserves (same frame) type vm) as Kf.
    rewrite Hinst in Kv, Ks, Kc, Kf. unfold same in *.
    set (a := length (heap vm2)).
    set (vm3 := set_varmaps (<[sf_variables f := <[name := VObj a]> m]> (varmaps vm2))
                  (set_heap (heap vm2 ++ [ScalarVariable type inst]) vm2)).
    assert ((scalar ← alloc (ScalarVariable type inst);
             bind_variable f name scalar;; mret scalar) vm2 = Ret (VObj a) vm3) as Hrest.
    { rewrite (bind_Ret _ _ vm2 (VObj a) (set_heap (heap vm2 ++ [ScalarVariable type inst]) vm2))
        by reflexivity.
      erewrite bind_Ret; [|apply bind_variable_spec; [done|simpl; by rewrite Kv]].
      reflexivity. }
    rewrite Hrest in Hrun. injection Hrun as <- <-.
    exists f, (<[name := VObj a]> m). split_and!.
    + unfold frame_of, is_shared in *. subst vm3. vm_norm. by rewrite Ks, Kc, Kf.
    + subst vm3. vm_norm. rewrite Kv.
      apply list_lookup_insert_eq. by eapply lookup_lt_Some.
    + apply lookup_insert_eq.
    + done.
    + done.
Qed.

(** X10.  [getVariable] is idempotent.  When [getVariable(name)] returns,
    having found the variable or having made and bound a new one, a second
    call returns the very same variable and changes nothing; what it
    returns is never [undefined]. *)
Theorem getVariable_idempotent name vm r vm1 :
  getVariable name vm = Ret r vm1 →
  getVariable name vm1 = Ret r vm1 ∧ truthy r = true.
Proof.
  intros (f & m & Hf & Hm & Hr & Ht & Hname)%getVariable_binds.
  split; [|done]. by eapply getVariable_bound.
Qed.

(** X11.  The variables of a [CALL] frame are private.  [CALL], a binding
    made in the new frame, and the matching [RET] give back the caller's
    frame, call stack and pc.  For a name that is not shared the binding
    is gone with the frame: every frame of the call stack has, for every
    name, the binding it had.  For a shared name the binding is made in
    the main frame [callstack[0]] and stays.  The name is any name but
    those of [Object.prototype], which the code takes for shared. *)
Theorem call_frame_is_private fuel (arg : nat) name v vm caller main :
  name ∉ object_prototype_keys →
  frame vm = Some caller → last (callstack vm) = Some caller →
  callstack vm !! 0 = Some main → frames_wf vm →
  ∃ vm',
    (execute fuel (CALL arg);; setVariable name v;; execute fuel RET) vm = Ret () vm' ∧
    frame vm' = Some caller ∧ callstack vm' = callstack vm ∧ pc vm' = pc vm ∧
    (name ∉ shared vm →
       ∀ g other, g ∈ callstack vm → bound_in g other vm' = bound_in g other vm) ∧
    (name ∈ shared vm →
       bound_in main name vm' = Some v ∧
       ∀ g other, g ∈ callstack vm →
         sf_variables g ≠ sf_variables main ∨ other ≠ name →
         bound_in g other vm' = bound_in g other vm).
Proof.
  intros Hname Hframe Hlast Hmain Hwf.
  set (f := {| sf_pc := pc vm; sf_variables := length (varmaps vm) |}).
  set (vm1 := set_pc arg (set_callstack (callstack vm ++ [f])
                (set_frame (Some f) (set_varmaps (varmaps vm ++ [∅]) vm)))).
  assert (sf_variables main < length (varmaps vm)) as Hlt
    by (apply Hwf; by eapply list_elem_of_lookup_2).
  destruct (lookup_lt_is_Some_2 _ _ Hlt) as [m Hm].
  set (target := if bool_decide (name ∈ shared vm) then main else f).
  set (m' := if bool_decide (name ∈ shared vm) then m else ∅).
  assert (frame_of name vm1 = Some target) as Htarget.
  { rewrite frame_of_ordinary by done.
    subst vm1 target. vm_norm. destruct (bool_decide _); [|done].
    by rewrite lookup_app_l by by eapply lookup_lt_Some. }
  assert (varmaps vm1 !! sf_variables target = Some m') as Hm'.
  { subst vm1 target m'. vm_norm. destruct (bool_decide _).
    - by rewrite lookup_app_l.
    - simpl. by rewrite lookup_app_r, Nat.sub_diag. }
  set (vm2 := set_varmaps (<[sf_variables target := <[name := v]> m']> (varmaps vm1)) vm1).
  set (vm3 := set_frame (last (callstack vm))
                (set_pc (sf_pc f) (set_callstack (callstack vm) vm2))).
  exists vm3. split_and!.
  - rewrite (bind_Ret _ _ vm () vm1) by apply execute_CALL.
    rewrite (bind_Ret _ _ vm1 () vm2) by by apply setVariable_bound; [apply not_proto|..].
    by apply execute_RET.
  - subst vm3. vm_norm. done.
  - subst vm3. by vm_norm.
  - subst vm3. by vm_norm.
  - intros Hns g other Hg. unfold bound_in. subst vm3 vm2 vm1 target. vm_norm.
    rewrite bool_decide_eq_false_2 by done. simpl.
    specialize (Hwf g Hg).
    rewrite list_lookup_insert_ne by lia. by rewrite lookup_app_l.
  - intros Hs. split.
    + unfold bound_in. subst vm3 vm2 vm1 target m'. vm_norm.
      rewrite !bool_decide_eq_true_2 by done.
      rewrite list_lookup_insert_eq by (rewrite length_app; lia).
      simpl. apply lookup_insert_eq.
    + intros g other Hg Hne. unfold bound_in. subst vm3 vm2 vm1 target m'. vm_norm.
      rewrite !bool_decide_eq_true_2 by done.
      specialize (Hwf g Hg).
      destruct (decide (sf_variables g = sf_variables main)) as [Heq|Hidx].
      * rewrite Heq, list_lookup_insert_eq by (rewrite length_app; lia).
        rewrite Hm. simpl. apply lookup_insert_ne. by destruct Hne.
      * rewrite list_lookup_insert_ne by done. by rewrite lookup_app_l.
Qed.

(** X12.  Assignment and read.  [POPVAL name] stores the value on top of
    the stack in the variable of that name, as it is, without converting
    it to the type of the variable, and pops it; [PUSHVALUE name] then
    pushes that value.  Nothing else of the store changes. *)
Theorem popval_pushvalue fuel name (v : val) (rest : list val) vm a t old vm1 :
  getVariable name vm = Ret (VObj a) vm1 →
  heap vm1 !! a = Some (ScalarVariable t old) →
  stack vm = v :: rest →
  let vm2 := set_heap (<[a := ScalarVariable t v]> (heap vm1)) (set_stack rest vm1) in
  execute fuel (POPVAL name) vm = Ret () vm2 ∧
  execute fuel (PUSHVALUE name) vm2 = Ret () (set_stack (v :: rest) vm2).
Proof.
  intros Hget Ha Hstack vm2.
  pose proof (getVariable_preserves (same stack) name vm) as Ks.
  rewrite Hget in Ks. unfold same in Ks.
  destruct (getVariable_binds _ _ _ _ Hget) as (f & m & Hf & Hm & Hr & Ht & Hname).
  split.
  - cbn [execute]. rewrite (bind_Ret _ _ vm (VObj a) vm1) by done.
    rewrite (bind_Ret _ _ vm1 v (set_stack rest vm1))
      by (apply pop_cons; by rewrite Ks).
    by erewrite set_value_scalar.
  - cbn [execute].
    rewrite (bind_Ret _ _ vm2 (VObj a) vm2) by by eapply getVariable_bound.
    rewrite (bind_Ret _ _ vm2 v vm2).
    + unfold push, modify. by subst vm2; vm_norm.
    + eapply get_value_scalar. subst vm2. vm_norm.
      apply list_lookup_insert_eq. by eapply lookup_lt_Some.
Qed.

(** *** Data, strings and arrays *)

Lemma last_occurrence (a : nat) (vars : list nat) :
  a ∈ vars → ∃ i, vars !! i = Some a ∧ ∀ j, i < j → vars !! j ≠ Some a.
Proof.
  induction vars as [|b vars IH]; [by intros ?%elem_of_nil|].
  intros Hin. destruct (decide (a ∈ vars)) as [Hlater|Hno].
  - destruct (IH Hlater) as (i & Hi & Hlast). exists (S i). split; [done|].
    intros [|j] Hj; [lia|]. apply Hlast. lia.
  - apply elem_of_cons in Hin as [->|]; [|done]. exists 0. split; [done|].
    intros [|j] Hj; [lia|]. simpl. intros Hj'. apply Hno. by eapply list_elem_of_lookup_2.
Qed.

(** X13.  READ past the end of the data.  There is no out-of-data error:
    when the data pointer is at or past the end of [data], READ returns
    normally, every argument variable holds [undefined] afterwards, with
    the type it had, and the data pointer has still advanced by the
    number of arguments. *)
Theorem read_past_the_end fuel vm (argCount : val) (n : nat) (vars : list nat)
    (rest : list val) :
  counts argCount n → length vars = n → n < fuel →
  stack vm = argCount :: (VObj <$> reverse vars) ++ rest →
  (∀ a, a ∈ vars → scalar_at (heap vm) a) →
  length (data vm) ≤ dataPtr vm →
  ∃ vm',
    execute fuel (SYSCALL "READ") vm = Ret () vm' ∧
    stack vm' = rest ∧ dataPtr vm' = dataPtr vm + n ∧
    ∀ a k old,
      a ∈ vars → heap vm !! a = Some (ScalarVariable (VType (ScalarType k)) old) →
      heap vm' !! a = Some (ScalarVariable (VType (ScalarType k)) VUndefined).
Proof.
  intros Hc Hlen Hfuel Hstack Hsc Hend.
  set (vm1 := set_stack ((VObj <$> reverse vars) ++ rest) vm).
  set (vm2 := set_stack rest vm1).
  destruct (read_loop_spec fuel argCount n vars Hc Hlen 0 vm2)
    as (vm' & Hloop & Hheap & Hptr & Hst & _); [lia|lia|by rewrite drop_0|].
  rewrite drop_0, Nat.sub_0_r in *.
  destruct (read_into_spec vm2 vars (dataPtr vm2) (heap vm2) Hsc) as (_ & _ & Hin).
  exists vm'. split_and!.
  - change (execute fuel (SYSCALL "READ")) with (sys_READ fuel). unfold sys_READ.
    rewrite (bind_Ret _ _ vm argCount vm1) by by apply pop_cons.
    rewrite (bind_Ret _ _ vm1 (VObj <$> vars) vm2); [done|].
    rewrite (pop_args_spec fuel argCount n (VObj <$> reverse vars) Hc 0 [] vm1 rest).
    + by rewrite app_nil_r, <- fmap_reverse, reverse_involutive.
    + rewrite length_fmap, length_reverse. lia.
    + rewrite length_fmap, length_reverse. lia.
    + done.
  - by rewrite Hst.
  - by rewrite Hptr.
  - intros a k old Ha Hold.
    destruct (last_occurrence a vars Ha) as (i & Hi & Hlast).
    rewrite Hheap, (Hin i a k old Hi Hlast Hold).
    unfold data_at. rewrite lookup_ge_None_2; [done|].
    change (data vm2) with (data vm). change (dataPtr vm2) with (dataPtr vm). lia.
Qed.

Lemma blanks_snoc (str : string) k :
  ((str +:+ " ") +:+ blanks k) = (str +:+ blanks (S k)).
Proof.
  induction str as [|c str IH]; [reflexivity|].
  change (String c ((str +:+ " ") +:+ blanks k) = String c (str +:+ blanks (S k))).
  by rewrite IH.
Qed.

Lemma blanks_length n : String.length (blanks n) = n.
Proof. induction n as [|n IH]; simpl; [done|]. by rewrite IH. Qed.

Lemma space_loop_spec (c : val) n :
  counts c n →
  ∀ fuel i str, i ≤ n → n - i < fuel →
    space_loop fuel c i str = inl (str +:+ blanks (n - i)).
Proof.
  intros Hc. induction fuel as [|fuel IH]; intros i str Hi Hfuel; [lia|].
  cbn [space_loop]. rewrite Hc by done.
  destruct (decide (i = n)) as [->|Hne].
  - rewrite bool_decide_eq_false_2 by lia. rewrite Nat.sub_diag. simpl.
    f_equal. clear. induction str as [|ch str IH]; [reflexivity|].
    change (String ch str = String ch (str +:+ "")). by rewrite <- IH.
  - rewrite bool_decide_eq_true_2 by lia. rewrite IH by lia.
    rewrite blanks_snoc. replace (S (n - S i)) with (n - i) by lia. done.
Qed.

(** X14.  [SPACE$(n)] pops its argument and pushes a string of exactly
    [n] spaces. *)
Theorem space_function fuel vm (numSpaces : val) (n : nat) (rest : list val) :
  counts numSpaces n → n < fuel → stack vm = numSpaces :: rest →
  execute fuel (SYSCALL "SPACE$") vm = Ret () (set_stack (VStr (blanks n) :: rest) vm) ∧
  String.length (blanks n) = n.
Proof.
  intros Hc Hfuel Hstack. split; [|apply blanks_length].
  change (execute fuel (SYSCALL "SPACE$")) with (sys_SPACE fuel). unfold sys_SPACE.
  rewrite (bind_Ret _ _ vm numSpaces (set_stack rest vm)) by by apply pop_cons.
  rewrite (space_loop_spec numSpaces n Hc fuel 0 "") by lia.
  by rewrite Nat.sub_0_r.
Qed.

Lemma pop_indexes_underflow n :
  ∀ (idxs acc : list val) vm,
    stack vm = idxs → length idxs < n →
    Forall (λ v, strict_eq v VUndefined = false) idxs →
    pop_indexes n acc vm
    = Throw (RuntimeError STACK_UNDERFLOW "Stack underflow" None) (set_stack [] vm).
Proof.
  induction n as [|n IH]; intros idxs acc vm Hstack Hlen Hdef; [lia|].
  cbn [pop_indexes]. destruct idxs as [|v idxs].
  - rewrite (bind_Ret _ _ vm VUndefined vm) by by apply pop_nil.
    rewrite <- Hstack, set_stack_same. reflexivity.
  - rewrite (bind_Ret _ _ vm v (set_stack idxs vm)) by by apply pop_cons.
    apply Forall_cons in Hdef as [Hv Hdef]. rewrite Hv.
    rewrite (bind_Ret _ _ (set_stack idxs vm) () (set_stack idxs vm)) by done.
    rewrite (IH idxs (v :: acc) (set_stack idxs vm)); [done|done| |done].
    simpl in Hlen. lia.
Qed.

(** X15.  [ARRAY_DEREF] with fewer indexes on the stack than the array
    has dimensions raises the RuntimeError STACK_UNDERFLOW (202): it has
    popped the array and every index there was, and the stack is empty. *)
Theorem array_deref_underflow fuel (arg : val) vm a type dims cells (idxs : list val) :
  stack vm = VObj a :: idxs →
  heap vm !! a = Some (ArrayVariable type dims cells) →
  length idxs < length dims →
  Forall (λ v, strict_eq v VUndefined = false) idxs →
  execute fuel (ARRAY_DEREF arg) vm
  = Throw (RuntimeError STACK_UNDERFLOW "Stack underflow" None) (set_stack [] vm) ∧
  code_number STACK_UNDERFLOW = 202%Z.
Proof.
  intros Hstack Ha Hlen Hdef. split; [|done].
  cbn [execute]. unfold array_deref.
  rewrite (bind_Ret _ _ vm (VObj a) (set_stack idxs vm)) by by apply pop_cons.
  rewrite (bind_Ret _ _ (set_stack idxs vm) (ArrayVariable type dims cells)
             (set_stack idxs vm)) by (unfold lookup_object; vm_norm; by rewrite Ha).
  unfold mbind at 1, M_bind at 1.
  by rewrite (pop_indexes_underflow (length dims) idxs [] (set_stack idxs vm)).
Qed.

(** X16.  [SWAP] exchanges the values of two scalar variables and pops the
    two references; the variables keep their types, and no conversion is
    made.  Swapping the same two variables again restores the store. *)
Theorem swap_exchanges fuel vm a b ta tb (x y : val) (rest : list val) :
  stack vm = VObj a :: VObj b :: rest →
  heap vm !! a = Some (ScalarVariable ta x) →
  heap vm !! b = Some (ScalarVariable tb y) →
  a ≠ b →
  let h := <[b := ScalarVariable tb x]> (<[a := ScalarVariable ta y]> (heap vm)) in
  execute fuel (SYSCALL "SWAP") vm = Ret () (set_heap h (set_stack rest vm)) ∧
  execute fuel (SYSCALL "SWAP") (set_heap h vm)
  = Ret () (set_heap (heap vm) (set_stack rest vm)).
Proof.
  intros Hstack Ha Hb Hne h.
  assert (∀ vm0 x0 y0,
            stack vm0 = VObj a :: VObj b :: rest →
            heap vm0 !! a = Some (ScalarVariable ta x0) →
            heap vm0 !! b = Some (ScalarVariable tb y0) →
            execute fuel (SYSCALL "SWAP") vm0
            = Ret () (set_heap (<[b := ScalarVariable tb x0]>
                                  (<[a := ScalarVariable ta y0]> (heap vm0)))
                        (set_stack rest vm0))) as Hswap.
  { intros vm0 x0 y0 Hs0 Ha0 Hb0.
    change (execute fuel (SYSCALL "SWAP")) with sys_SWAP. unfold sys_SWAP.
    set (vm1 := set_stack (VObj b :: rest) vm0).
    set (vm2 := set_stack rest vm1).
    rewrite (bind_Ret _ _ vm0 (VObj a) vm1) by by apply pop_cons.
    rewrite (bind_Ret _ _ vm1 (VObj b) vm2) by by apply pop_cons.
    rewrite (bind_Ret _ _ vm2 x0 vm2) by by eapply get_value_scalar.
    rewrite (bind_Ret _ _ vm2 y0 vm2) by by eapply get_value_scalar.
    rewrite (bind_Ret _ _ vm2 ()
               (set_heap (<[a := ScalarVariable ta y0]> (heap vm2)) vm2))
      by by eapply set_value_scalar.
    erewrite set_value_scalar; [done|].
    vm_norm. rewrite list_lookup_insert_ne by done. exact Hb0. }
  split; [by apply Hswap|].
  rewrite (Hswap (set_heap h vm) y x); [| done | |].
  - subst h. vm_norm.
    rewrite (list_insert_insert_ne _ a b) by done.
    rewrite list_insert_insert_eq, list_insert_insert_eq.
    rewrite (list_insert_id _ a) by done.
    by rewrite (list_insert_id _ b) by done.
  - subst h. vm_norm. rewrite list_lookup_insert_ne by done.
    apply list_lookup_insert_eq. by eapply lookup_lt_Some.
  - subst h. vm_norm. apply list_lookup_insert_eq.
    rewrite length_insert. by eapply lookup_lt_Some.
Qed.

(** *** The end of a program, and waiting for the user *)

(** What [reset] leaves when it returns: one frame, the main one, whose
    return address is the end of the program. *)
Lemma reset_spec program vm0 vm :
  reset program vm0 = Ret () vm →
  ∃ f,
    callstack vm = [f] ∧ frame vm = Some f ∧
    sf_pc f = length (instructions vm) ∧
    varmaps vm !! sf_variables f = Some ∅ ∧
    stack vm = [] ∧ pc vm = 0 ∧ dataPtr vm = 0 ∧ suspended vm = false ∧
    interval vm = None ∧
    instructions vm = match program with
                      | Some p => prog_instructions p
                      | None => instructions vm0
                      end.
Proof.
  intros Hreset.
  set (vm1 := match program with Some p => set_program p vm0 | None => vm0 end).
  assert (interval vm1 = interval vm0 ∧
          instructions vm1 = match program with
                             | Some p => prog_instructions p
                             | None => instructions vm0
                             end) as [Hiv Hins] by by destruct program.
  set (f := {| sf_pc := length (instructions vm1);
               sf_variables := length (varmaps vm1) |}).
  set (vm2 := set_suspended false (set_dataPtr 0 (set_frame (Some f)
                (set_callstack [f] (set_varmaps (varmaps vm1 ++ [∅])
                   (set_callstack [] (set_stack [] vm1))))))).
  assert (callstack vm = [f] ∧ frame vm = Some f ∧
          instructions vm = instructions vm1 ∧
          varmaps vm = (varmaps vm1 ++ [∅])%list ∧
          stack vm = [] ∧ pc vm = 0 ∧ dataPtr vm = 0 ∧ suspended vm = false ∧
          interval vm = None)
    as (Hcs & Hfr & Hi3 & Hv3 & Hst & Hpc & Hdp & Hsu & Hin).
  { unfold reset in Hreset.
    rewrite (bind_Ret _ _ vm0 () vm1) in Hreset by by destruct program.
    rewrite (bind_Ret _ _ vm1 () (set_stack [] vm1)) in Hreset by reflexivity.
    rewrite (bind_Ret _ _ _ () (set_callstack [] (set_stack [] vm1))) in Hreset
      by reflexivity.
    rewrite (bind_Ret _ _ _ (length (instructions vm1))
               (set_callstack [] (set_stack [] vm1))) in Hreset by reflexivity.
    rewrite (bind_Ret _ _ _ f (set_varmaps (varmaps vm1 ++ [∅])
                                 (set_callstack [] (set_stack [] vm1)))) in Hreset
      by reflexivity.
    rewrite (bind_Ret _ _ _ () (set_callstack [f] (set_varmaps (varmaps vm1 ++ [∅])
                                 (set_callstack [] (set_stack [] vm1))))) in Hreset
      by reflexivity.
    rewrite (bind_Ret _ _ _ () (set_frame (Some f) (set_callstack [f]
               (set_varmaps (varmaps vm1 ++ [∅])
                  (set_callstack [] (set_stack [] vm1)))))) in Hreset by reflexivity.
    rewrite (bind_Ret _ _ _ () (set_dataPtr 0 (set_frame (Some f) (set_callstack [f]
               (set_varmaps (varmaps vm1 ++ [∅])
                  (set_callstack [] (set_stack [] vm1))))))) in Hreset by reflexivity.
    rewrite (bind_Ret _ _ _ () vm2) in Hreset by reflexivity.
    destruct (interval vm0) as [id|] eqn:Hint.
    - destruct host_window as [[|]|] eqn:Hwindow.
      + rewrite (bind_Ret _ _ vm2 ()
                   (set_interval None
                      (set_events (events vm2 ++ [ClearInterval (Some id)]) vm2)))
          in Hreset.
        * injection Hreset as <-. repeat split; reflexivity.
        * rewrite (bind_Ret _ _ vm2 (Some id) vm2); [reflexivity|].
          unfold get. f_equal. exact Hiv.
      + rewrite (bind_Throw _ _ vm2 (JsError TypeError) vm2) in Hreset; [done|].
        rewrite (bind_Ret _ _ vm2 (Some id) vm2); [reflexivity|].
        unfold get. f_equal. exact Hiv.
      + rewrite (bind_Throw _ _ vm2 (JsError ReferenceError) vm2) in Hreset; [done|].
        rewrite (bind_Ret _ _ vm2 (Some id) vm2); [reflexivity|].
        unfold get. f_equal. exact Hiv.
    - rewrite (bind_Ret _ _ vm2 () vm2) in Hreset.
      + injection Hreset as <-. repeat split; first [reflexivity|exact Hiv].
      + rewrite (bind_Ret _ _ vm2 None vm2); [reflexivity|].
        unfold get. f_equal. exact Hiv. }
  exists f.
  rewrite Hcs, Hfr, Hi3, Hv3, Hst, Hpc, Hdp, Hsu, Hin.
  split_and!; try reflexivity.
  - simpl. by rewrite lookup_app_r, Nat.sub_diag.
  - exact Hins.
Qed.

(** X17.  RET in the main program ends it.  [reset] leaves one frame on the
    call stack whose return address is the end of the program: a RET
    executed outside any subroutine pops that frame and sets pc there, so
    the loop of [run] stops, and does not raise an error.  The machine is
    then without a frame, and a further RET raises STACK_UNDERFLOW. *)
Theorem ret_in_the_main_program fuel program vm0 vm :
  reset (Some program) vm0 = Ret () vm →
  let vm1 := set_frame None (set_pc (length (prog_instructions program))
                               (set_callstack [] vm)) in
  execute fuel RET vm = Ret () vm1 ∧
  (∀ steps, run_loop (S steps) fuel vm1 = Ret () vm1) ∧
  execute fuel RET vm1
  = Throw (RuntimeError STACK_UNDERFLOW "Stack underflow" None) vm1.
Proof.
  intros Hreset vm1.
  destruct (reset_spec (Some program) vm0 vm Hreset)
    as (f & Hcs & _ & Hpc & _ & _ & _ & _ & _ & _ & Hins).
  split_and!.
  - rewrite (execute_RET fuel vm [] f Hcs). subst vm1. by rewrite Hpc, Hins.
  - intros steps. cbn [run_loop]. subst vm1. vm_norm.
    by rewrite Hins, Nat.ltb_irrefl.
  - subst vm1. cbn [execute]. unfold mbind, M_bind, get. by vm_norm.
Qed.

(** X18.  INPUT stores the answer in its first argument only.  INPUT pops
    its arguments, suspends the machine and asks the console for a line;
    when the console answers, the answer is stored, as it is, in the
    variable that was the first argument, and the machine is resumed.  The
    variables of further arguments are popped and never assigned. *)
Theorem input_assigns_the_first_argument fuel vm (argCount : val) (n : nat)
    (a : nat) (others : list nat) (rest : list val) t old :
  counts argCount n → length (a :: others) = n → n < fuel →
  stack vm = argCount :: (VObj <$> reverse (a :: others)) ++ rest →
  heap vm !! a = Some (ScalarVariable t old) →
  asynchronous vm = false →
  let vm1 := set_events (events vm ++ [ConsoleThen "input" [] (CbInput (VObj a))])
               (set_suspended true (set_stack rest vm)) in
  execute fuel (SYSCALL "INPUT") vm = Ret () vm1 ∧
  ∀ answer,
    host_callback fuel (CbInput (VObj a)) answer vm1
    = Ret () (set_suspended false
                (set_heap (<[a := ScalarVariable t answer]> (heap vm)) vm1)).
Proof.
  intros Hc Hlen Hfuel Hstack Ha Hsync vm1.
  set (vm2 := set_stack ((VObj <$> reverse (a :: others)) ++ rest) vm).
  set (vm3 := set_stack rest vm2).
  split.
  - change (execute fuel (SYSCALL "INPUT")) with (sys_INPUT fuel). unfold sys_INPUT.
    rewrite (bind_Ret _ _ vm argCount vm2) by by apply pop_cons.
    rewrite (bind_Ret _ _ vm2 (VObj <$> (a :: others)) vm3).
    + unfold suspend, mbind, M_bind, modify, get, emit_event, modify. vm_norm.
      change (asynchronous vm3) with (asynchronous vm). rewrite Hsync. reflexivity.
    + rewrite (pop_args_spec fuel argCount n (VObj <$> reverse (a :: others))
                 Hc 0 [] vm2 rest).
      * by rewrite app_nil_r, <- fmap_reverse, reverse_involutive.
      * rewrite length_fmap, length_reverse. lia.
      * rewrite length_fmap, length_reverse. lia.
      * done.
  - intros answer. cbn [host_callback].
    rewrite (bind_Ret _ _ vm1 ()
               (set_heap (<[a := ScalarVariable t answer]> (heap vm)) vm1))
      by (by apply (set_value_scalar a t old answer vm1)).
    unfold resume, mbind, M_bind, modify, get. vm_norm.
    change (asynchronous vm1) with (asynchronous vm). rewrite Hsync. reflexivity.
Qed.

(** *** Print zones *)

Lemma append_empty_r (s : string) : (s +:+ "") = s.
Proof.
  induction s as [|ch s IH]; [reflexivity|].
  change (String ch (s +:+ "") = String ch s). by rewrite IH.
Qed.

Lemma succ_mod_14 j :
  (S j) mod 14 = if (j mod 14 =? 13)%nat then 0 else S (j mod 14).
Proof.
  pose proof (Nat.div_mod_eq j 14) as Hj.
  pose proof (Nat.mod_upper_bound j 14) as Hlt.
  destruct (Nat.eqb_spec (j mod 14) 13) as [H13|H13].
  - symmetry. apply (Nat.mod_unique (S j) 14 (S (j / 14))); lia.
  - symmetry. apply (Nat.mod_unique (S j) 14 (j / 14)); lia.
Qed.

Lemma comma_spaces_spec (x0 : nat) :
  (∀ j, x0 ≤ j ≤ x0 + 13 → js_unop Incr (num_of_nat j) = num_of_nat (S j)) →
  (∀ j, x0 < j ≤ x0 + 14 →
        truthy (js_binop Rem (num_of_nat j) (num_lit 14)) = negb (j mod 14 =? 0)%nat) →
  ∀ k j spaces fuel,
    x0 ≤ j → j + k ≤ x0 + 13 → k = 13 - j mod 14 → k < fuel →
    comma_spaces fuel (num_of_nat j) spaces = inl (spaces +:+ blanks k).
Proof.
  intros Hincr Hrem. induction k as [|k IH]; intros j spaces fuel Hj Hk Hmod Hfuel;
    (destruct fuel as [|fuel]; [lia|]); cbn [comma_spaces];
    pose proof (Nat.mod_upper_bound j 14) as Hlt;
    rewrite Hincr, Hrem, succ_mod_14 by lia.
  - replace (j mod 14) with 13 by lia. simpl. by rewrite append_empty_r.
  - destruct (Nat.eqb_spec (j mod 14) 13) as [H13|H13]; [lia|]. simpl.
    rewrite (IH (S j)); [by rewrite blanks_snoc|lia|lia| |lia].
    rewrite succ_mod_14. destruct (Nat.eqb_spec (j mod 14) 13); lia.
Qed.

(** X19.  The comma of PRINT.  [print_comma] reads the column [x] of the
    cursor and prints [13 - x mod 14] spaces, between 0 and 13: as many as
    it takes for [x + 1] to reach a multiple of 14, the host counting on
    the numbers in question as on integers. *)
Theorem print_comma_pads fuel vm (x0 : nat) :
  host_input "cons.x" (events vm) = num_of_nat x0 →
  (∀ j, x0 ≤ j ≤ x0 + 13 → js_unop Incr (num_of_nat j) = num_of_nat (S j)) →
  (∀ j, x0 < j ≤ x0 + 14 →
        truthy (js_binop Rem (num_of_nat j) (num_lit 14)) = negb (j mod 14 =? 0)%nat) →
  13 < fuel →
  execute fuel (SYSCALL "print_comma") vm
  = Ret () (set_events
              (events vm ++ [HostRead "cons.x";
                             ConsoleCall "print" [VStr (blanks (13 - x0 mod 14))]])
              vm) ∧
  (x0 + (13 - x0 mod 14) + 1) mod 14 = 0.
Proof.
  intros Hx Hincr Hrem Hfuel.
  pose proof (Nat.mod_upper_bound x0 14) as Hlt. split.
  - change (execute fuel (SYSCALL "print_comma")) with (print_to_next_zone fuel).
    unfold print_to_next_zone.
    rewrite (bind_Ret _ _ vm (num_of_nat x0)
               (set_events (events vm ++ [HostRead "cons.x"]) vm))
      by (unfold read_host; by rewrite Hx).
    rewrite (comma_spaces_spec x0 Hincr Hrem (13 - x0 mod 14) x0 "" fuel) by lia.
    unfold lift_abort, mbind, M_bind, mret, M_ret, emit_event, modify. vm_norm.
    by rewrite <- app_assoc.
  - pose proof (Nat.div_mod_eq x0 14) as Hdiv.
    symmetry. apply (Nat.mod_unique _ 14 (S (x0 / 14))); lia.
Qed.

Global Instance keeping_preorder (I : VirtualMachine → Prop) : PreOrder (keeping I).
Proof.
  split; [intros vm Hvm; exact Hvm|].
  intros vm1 vm2 vm3 H12 H23 H1. apply H23, H12, H1.
Qed.

Section FrameOnTop.

Local Abbreviation R := (keeping frame_on_top).

Local Instance frame_on_top_stack : KeptByStack R.
Proof. intros x vm Hvm. exact Hvm. Qed.
Local Instance frame_on_top_heap : KeptByHeap R.
Proof. intros x vm Hvm. exact Hvm. Qed.
Local Instance frame_on_top_varmaps : KeptByVarmaps R.
Proof. intros x vm Hvm. exact Hvm. Qed.
Local Instance frame_on_top_events : KeptByEvents R.
Proof. intros x vm Hvm. exact Hvm. Qed.
Local Instance frame_on_top_dataPtr : KeptByDataPtr R.
Proof. intros x vm Hvm. exact Hvm. Qed.
Local Instance frame_on_top_interval : KeptByInterval R.
Proof. intros x vm Hvm. exact Hvm. Qed.
Local Instance frame_on_top_pc : KeptByPc R.
Proof. intros x vm Hvm. exact Hvm. Qed.
Local Instance frame_on_top_suspended : KeptBySuspended R.
Proof. intros x vm Hvm. exact Hvm. Qed.
Local Instance frame_on_top_asynchronous : KeptByAsynchronous R.
Proof. intros x vm Hvm. exact Hvm. Qed.
Local Instance frame_on_top_program : KeptByProgram R.
Proof. intros x vm Hvm. exact Hvm. Qed.

Lemma syscall_frame_on_top fuel arg : preserves R (syscall fuel arg).
Proof.
  unfold syscall. repeat (destruct (String.eqb arg _); [by preserves_auto|]).
  destruct (table_lookup arg (SystemFunctions fuel)) as [action|] eqn:Hf.
  { by apply (table_lookup_Forall (λ _ a, preserves R a) _ _ _
                (SystemFunctions_preserve R fuel) Hf). }
  destruct (bool_decide (arg ∈ object_prototype_keys)); [by preserves_auto|].
  destruct (table_lookup arg (SystemSubroutines fuel)) as [action|] eqn:Hs.
  { by apply (table_lookup_Forall (λ _ a, preserves R a) _ _ _
                (SystemSubroutines_preserve_all R fuel) Hs). }
  preserves_auto.
Qed.

Lemma execute_frame_on_top fuel i : preserves R (execute fuel i).
Proof.
  destruct i; simpl; try (by preserves_auto); try apply syscall_frame_on_top.
  - (* CALL *) intros vm _. unfold frame_on_top. simpl. by rewrite last_snoc.
  - (* GOSUB *) intros vm. unfold mbind, M_bind, get. simpl.
    destruct (frame vm); [|by unfold throw].
    intros _. unfold frame_on_top. simpl. by rewrite last_snoc.
  - (* RET *) intros vm. unfold mbind, M_bind, get. simpl.
    destruct (last (callstack vm)); [|by unfold throw].
    intros _. reflexivity.
Qed.

Lemma runOneInstruction_frame_on_top fuel : preserves R (runOneInstruction fuel).
Proof.
  unfold runOneInstruction.
  apply preserves_bind; [preserves_auto|intros i].
  apply preserves_bind; [preserves_auto|intros _].
  apply preserves_try_catch.
  - destruct i; [apply execute_frame_on_top|preserves_auto].
  - intros e. preserves_auto.
Qed.

Lemma run_loop_frame_on_top steps fuel : preserves R (run_loop steps fuel).
Proof.
  induction steps as [|steps IH]; simpl; [preserves_auto|].
  intros vm. destruct (_ <? _)%nat; [|kept].
  by apply (preserves_bind (R:=R) _ _ (runOneInstruction_frame_on_top fuel) (λ _, IH) vm).
Qed.

Lemma runSome_loop_frame_on_top fuel n : preserves R (runSome_loop fuel n).
Proof.
  induction n as [|n IH]; simpl; [preserves_auto|].
  intros vm. destruct (_ && _); [|kept].
  by apply (preserves_bind (R:=R) _ _ (runOneInstruction_frame_on_top fuel) (λ _, IH) vm).
Qed.

Lemma runSome_frame_on_top fuel : preserves R (runSome fuel).
Proof.
  unfold runSome. apply preserves_bind; [|intros _; preserves_auto].
  apply preserves_try_catch; [|intros e; preserves_auto].
  apply preserves_bind; [preserves_auto|intros n]. apply runSome_loop_frame_on_top.
Qed.

Lemma resume_frame_on_top fuel : preserves R (resume fuel).
Proof.
  unfold resume. apply preserves_bind; [preserves_auto|intros _].
  apply preserves_bind; [preserves_auto|intros [|]]; [|preserves_auto].
  apply preserves_bind; [apply runSome_frame_on_top|intros _; preserves_auto].
Qed.

Lemma reset_frame_on_top program vm :
  match reset program vm with
  | Ret _ vm' | Throw _ vm' => frame_on_top vm'
  | Abort _ => True
  end.
Proof.
  unfold reset, mbind, M_bind, modify, get, new_frame, emit_event. simpl.
  destruct program; simpl; destruct (interval vm); try done;
    by destruct host_window as [[|]|].
Qed.

Lemma perform_frame_on_top fuel op : preserves R (perform fuel op).
Proof.
  assert (Hreset : ∀ program, preserves R (reset program)).
  { intros program vm. pose proof (reset_frame_on_top program vm) as Hvm.
    destruct (reset program vm); [by intros _..|done]. }
  destruct op as [program|steps program synchronous| | | | |name v|name|v typeName|i|cb result];
    simpl.
  - apply Hreset.
  - unfold run. apply preserves_bind; [apply Hreset|intros _].
    apply preserves_bind; [preserves_auto|intros _].
    destruct synchronous; [|preserves_auto].
    apply preserves_try_catch; [apply run_loop_frame_on_top|intros e; preserves_auto].
  - preserves_auto.
  - apply resume_frame_on_top.
  - apply runSome_frame_on_top.
  - apply runOneInstruction_frame_on_top.
  - preserves_auto.
  - preserves_auto.
  - preserves_auto.
  - apply execute_frame_on_top.
  - unfold host_callback. destruct cb.
    + apply resume_frame_on_top.
    + apply preserves_bind; [preserves_auto|intros _; apply resume_frame_on_top].
    + apply preserves_bind; [preserves_auto|intros _; apply resume_frame_on_top].
Qed.

End FrameOnTop.

(** X24.  The current frame is the top of the call stack.  In every state
    the machine can be in, after whatever sequence of operations, returned
    from or thrown out of, [frame] is the last element of [callstack], and
    it is undefined exactly when the call stack is empty: before the first
    reset, or after a RET has popped the frame of the main program. *)
Theorem frame_is_the_top_of_the_call_stack vm :
  reachable vm →
  frame vm = last (callstack vm) ∧ (frame vm = None ↔ callstack vm = []).
Proof.
  intros Hvm.
  assert (Htop : frame_on_top vm).
  { induction Hvm as [has_audio|fuel op vm vm' _ IH Hop|fuel op vm e vm' _ IH Hop].
    - reflexivity.
    - pose proof (perform_frame_on_top fuel op vm) as Hkeep. rewrite Hop in Hkeep. by apply Hkeep.
    - pose proof (perform_frame_on_top fuel op vm) as Hkeep. rewrite Hop in Hkeep. by apply Hkeep. }
  split; [done|]. rewrite Htop. apply last_None.
Qed.

(** *** The frames and the store *)

Section FramesAllocated.

Local Abbreviation R := (keeping frames_allocated).

Local Instance frames_allocated_stack : KeptByStack R.
Proof. intros x vm Hvm. exact Hvm. Qed.
Local Instance frames_allocated_heap : KeptByHeap R.
Proof. intros x vm Hvm. exact Hvm. Qed.
Local Instance frames_allocated_events : KeptByEvents R.
Proof. intros x vm Hvm. exact Hvm. Qed.
Local Instance frames_allocated_dataPtr : KeptByDataPtr R.
Proof. intros x vm Hvm. exact Hvm. Qed.
Local Instance frames_allocated_interval : KeptByInterval R.
Proof. intros x vm Hvm. exact Hvm. Qed.
Local Instance frames_allocated_pc : KeptByPc R.
Proof. intros x vm Hvm. exact Hvm. Qed.
Local Instance frames_allocated_suspended : KeptBySuspended R.
Proof. intros x vm Hvm. exact Hvm. Qed.
Local Instance frames_allocated_asynchronous : KeptByAsynchronous R.
Proof. intros x vm Hvm. exact Hvm. Qed.
Local Instance frames_allocated_program : KeptByProgram R.
Proof. intros x vm Hvm. exact Hvm. Qed.

(** A binding replaces one [variables] object by another: the store keeps
    its size. *)
Lemma bind_variable_frames_allocated f name v : preserves R (bind_variable f name v).
Proof.
  unfold bind_variable. destruct (String.eqb name "__proto__"); [destruct v; preserves_auto|].
  intros vm. unfold mbind, M_bind, lookup_varmap.
  destruct (varmaps vm !! sf_variables f) as [m|]; [|done].
  intros [Hwf Hframe]. split.
  - intros g Hg. simpl. rewrite length_insert. by apply Hwf.
  - intros g Hg. simpl. rewrite length_insert. by apply Hframe.
Qed.
Local Hint Resolve bind_variable_frames_allocated : preserves.

Lemma setVariable_frames_allocated name v : preserves R (setVariable name v).
Proof. unfold setVariable. preserves_auto. Qed.

Lemma getVariable_frames_allocated name : preserves R (getVariable name).
Proof. unfold getVariable. preserves_auto. Qed.
Local Hint Resolve setVariable_frames_allocated getVariable_frames_allocated : preserves.

Lemma syscall_frames_allocated fuel arg : preserves R (syscall fuel arg).
Proof.
  unfold syscall. repeat (destruct (String.eqb arg _); [by preserves_auto|]).
  destruct (table_lookup arg (SystemFunctions fuel)) as [action|] eqn:Hf.
  { by apply (table_lookup_Forall (λ _ a, preserves R a) _ _ _
                (SystemFunctions_preserve R fuel) Hf). }
  destruct (bool_decide (arg ∈ object_prototype_keys)); [by preserves_auto|].
  destruct (table_lookup arg (SystemSubroutines fuel)) as [action|] eqn:Hs.
  { by apply (table_lookup_Forall (λ _ a, preserves R a) _ _ _
                (SystemSubroutines_preserve_all R fuel) Hs). }
  preserves_auto.
Qed.

Lemma execute_frames_allocated fuel i : preserves R (execute fuel i).
Proof.
  destruct i; simpl; try (by preserves_auto); try apply syscall_frames_allocated.
  - (* CALL *) intros vm [Hwf Hframe]. split.
    + intros g [Hg| ->%list_elem_of_singleton]%elem_of_app; simpl; rewrite length_app; simpl.
      * specialize (Hwf g Hg). lia.
      * lia.
    + intros g [= <-]. simpl. rewrite length_app. simpl. lia.
  - (* GOSUB *) intros vm. unfold mbind, M_bind, get. simpl.
    destruct (frame vm) as [caller|] eqn:Hcaller; [|by unfold throw].
    intros [Hwf Hframe]. split.
    + intros g [Hg| ->%list_elem_of_singleton]%elem_of_app; simpl.
      * by apply Hwf.
      * by apply Hframe.
    + intros g [= <-]. simpl. by apply Hframe.
  - (* RET *) intros vm. unfold mbind, M_bind, get. simpl.
    destruct (last (callstack vm)) as [top|] eqn:Hlast; [|by unfold throw].
    apply last_Some in Hlast as [frames Hframes].
    intros [Hwf Hframe].
    destruct (last_snoc_removelast frames top) as [_ Hrest].
    assert (Hin : ∀ g, g ∈ frames → sf_variables g < length (varmaps vm)).
    { intros g Hg. apply Hwf. rewrite Hframes. apply elem_of_app. by left. }
    split.
    + intros g Hg. simpl in Hg. rewrite Hframes, Hrest in Hg. by apply Hin.
    + intros g Hg. simpl in Hg. rewrite Hframes, Hrest in Hg. apply Hin.
      apply last_Some in Hg as [frames' ->]. apply elem_of_app. right.
      by apply list_elem_of_singleton.
Qed.

Lemma runOneInstruction_frames_allocated fuel : preserves R (runOneInstruction fuel).
Proof.
  unfold runOneInstruction.
  apply preserves_bind; [preserves_auto|intros i].
  apply preserves_bind; [preserves_auto|intros _].
  apply preserves_try_catch.
  - destruct i; [apply execute_frames_allocated|preserves_auto].
  - intros e. preserves_auto.
Qed.

Lemma run_loop_frames_allocated steps fuel : preserves R (run_loop steps fuel).
Proof.
  induction steps as [|steps IH]; simpl; [preserves_auto|].
  intros vm. destruct (_ <? _)%nat; [|kept].
  by apply (preserves_bind (R:=R) _ _ (runOneInstruction_frames_allocated fuel)
              (λ _, IH) vm).
Qed.

Lemma runSome_loop_frames_allocated fuel n : preserves R (runSome_loop fuel n).
Proof.
  induction n as [|n IH]; simpl; [preserves_auto|].
  intros vm. destruct (_ && _); [|kept].
  by apply (preserves_bind (R:=R) _ _ (runOneInstruction_frames_allocated fuel)
              (λ _, IH) vm).
Qed.

Lemma runSome_frames_allocated fuel : preserves R (runSome fuel).
Proof.
  unfold runSome. apply preserves_bind; [|intros _; preserves_auto].
  apply preserves_try_catch; [|intros e; preserves_auto].
  apply preserves_bind; [preserves_auto|intros n]. apply runSome_loop_frames_allocated.
Qed.

Lemma resume_frames_allocated fuel : preserves R (resume fuel).
Proof.
  unfold resume. apply preserves_bind; [preserves_auto|intros _].
  apply preserves_bind; [preserves_auto|intros [|]]; [|preserves_auto].
  apply preserves_bind; [apply runSome_frames_allocated|intros _; preserves_auto].
Qed.

Lemma reset_frames_allocated program vm :
  match reset program vm with
  | Ret _ vm' | Throw _ vm' => frames_allocated vm'
  | Abort _ => True
  end.
Proof.
  assert (Hnew : ∀ n (maps : list (gmap string val)) g,
            g = {| sf_pc := n; sf_variables := length maps |} →
            sf_variables g < length (maps ++ [∅])).
  { intros n maps g ->. simpl. rewrite length_app. simpl. lia. }
  unfold reset, mbind, M_bind, modify, get, new_frame, emit_event. simpl.
  destruct program; simpl; destruct (interval vm); try destruct host_window as [[|]|];
    (split; [intros g ->%list_elem_of_singleton|intros g [= <-]]; by eapply Hnew).
Qed.

Lemma perform_frames_allocated fuel op : preserves R (perform fuel op).
Proof.
  assert (Hreset : ∀ program, preserves R (reset program)).
  { intros program vm. pose proof (reset_frames_allocated program vm) as Hvm.
    destruct (reset program vm); [by intros _..|done]. }
  destruct op as [program|steps program synchronous| | | | |name v|name|v typeName|i|cb result];
    simpl.
  - apply Hreset.
  - unfold run. apply preserves_bind; [apply Hreset|intros _].
    apply preserves_bind; [preserves_auto|intros _].
    destruct synchronous; [|preserves_auto].
    apply preserves_try_catch; [apply run_loop_frames_allocated|intros e; preserves_auto].
  - preserves_auto.
  - apply resume_frames_allocated.
  - apply runSome_frames_allocated.
  - apply runOneInstruction_frames_allocated.
  - preserves_auto.
  - preserves_auto.
  - preserves_auto.
  - apply execute_frames_allocated.
  - unfold host_callback. destruct cb.
    + apply resume_frames_allocated.
    + apply preserves_bind; [preserves_auto|intros _; apply resume_frames_allocated].
    + apply preserves_bind; [preserves_auto|intros _; apply resume_frames_allocated].
Qed.

End FramesAllocated.

(** In every state the machine can be in, the frames of the call stack
    refer to [variables] objects of the store: the condition [frames_wf]
    of the properties of CALL and GOSUB holds wherever the machine gets. *)
Lemma reachable_frames_wf vm : reachable vm → frames_wf vm.
Proof.
  intros Hvm.
  assert (Hall : frames_allocated vm); [|by destruct Hall].
  induction Hvm as [has_audio|fuel op vm vm' _ IH Hop|fuel op vm e vm' _ IH Hop].
  - split; [by intros f ?%elem_of_nil|done].
  - pose proof (perform_frames_allocated fuel op vm) as Hkeep.
    rewrite Hop in Hkeep. by apply Hkeep.
  - pose proof (perform_frames_allocated fuel op vm) as Hkeep.
    rewrite Hop in Hkeep. by apply Hkeep.
Qed.

(** X25.  A comparison followed by a conditional branch, as an IF or a
    WHILE is compiled.  Where the host takes -1 for true and 0 for false
    (as JavaScript does), [=], [<>], [<], [<=], [>], [>=] followed by
    [BZ target] pop the two operands, push nothing, and jump to [target]
    exactly when the comparison of the lower operand with the top one does
    not hold; followed by [BNZ target], exactly when it holds.  Neither
    throws. *)
Theorem comparison_then_branch fuel vm rhs lhs rest target c (holds : bool) :
  num_truthy (num_of_Z (-1)) = true → num_truthy (num_of_Z 0) = false →
  stack vm = rhs :: lhs :: rest →
  (c, holds) ∈ [(OP_EQ, strict_eq rhs lhs); (OP_NE, negb (strict_eq rhs lhs));
                (OP_LT, js_relop Lt lhs rhs); (OP_LE, js_relop Le lhs rhs);
                (OP_GT, js_relop Gt lhs rhs); (OP_GE, js_relop Ge lhs rhs)] →
  (execute fuel c;; execute fuel (BZ target)) vm
  = Ret () (set_stack rest (if holds then vm else set_pc target vm)) ∧
  (execute fuel c;; execute fuel (BNZ target)) vm
  = Ret () (set_stack rest (if holds then set_pc target vm else vm)).
Proof.
  intros Htrue Hfalse Hstack Hc.
  assert (Hbz : (push (basic_bool holds);; execute fuel (BZ target)) (set_stack rest vm)
                = Ret () (set_stack rest (if holds then vm else set_pc target vm))).
  { rewrite (bind_Ret _ _ _ () (set_stack (basic_bool holds :: rest) (set_stack rest vm)))
      by reflexivity.
    cbn [execute].
    rewrite (bind_Ret _ _ _ (basic_bool holds) (set_stack rest vm)) by reflexivity.
    destruct holds; cbn [basic_bool truthy num_lit]; rewrite ?Htrue, ?Hfalse; reflexivity. }
  assert (Hbnz : (push (basic_bool holds);; execute fuel (BNZ target)) (set_stack rest vm)
                 = Ret () (set_stack rest (if holds then set_pc target vm else vm))).
  { rewrite (bind_Ret _ _ _ () (set_stack (basic_bool holds :: rest) (set_stack rest vm)))
      by reflexivity.
    cbn [execute].
    rewrite (bind_Ret _ _ _ (basic_bool holds) (set_stack rest vm)) by reflexivity.
    destruct holds; cbn [basic_bool truthy num_lit]; rewrite ?Htrue, ?Hfalse; reflexivity. }
  assert (Hpop : pop vm = Ret rhs (set_stack (lhs :: rest) vm)).
  { unfold pop. by rewrite Hstack. }
  assert (Hexec : execute fuel c vm
                  = Ret () (set_stack (basic_bool holds :: rest) (set_stack rest vm))).
  { repeat (apply elem_of_cons in Hc as [[= -> ->]|Hc];
            [cbn [execute]; unfold relational;
             rewrite (bind_Ret _ _ _ _ _ Hpop);
             rewrite (bind_Ret _ _ _ lhs (set_stack rest vm)) by reflexivity;
             reflexivity|]).
    by apply elem_of_nil in Hc. }
  assert (Hrun : ∀ k, (execute fuel c;; execute fuel k) vm
                      = (push (basic_bool holds);; execute fuel k) (set_stack rest vm)).
  { intros k. rewrite (bind_Ret _ _ _ _ _ Hexec).
    by rewrite (bind_Ret _ _ _ () (set_stack (basic_bool holds :: rest) (set_stack rest vm)))
      by reflexivity. }
  split.
  - by rewrite Hrun.
  - by rewrite Hrun.
Qed.

(** X26.  [setVariable] then [getVariable], for any name but [__proto__],
    in the frame the name resolves to (the main frame for a shared name
    and for a name of [Object.prototype], the current frame otherwise),
    when that frame exists.  A value that JavaScript takes for true (a
    variable object, a non-empty string, a non-zero number) is given back
    by [getVariable] as it was set, and nothing else changes.  A value it
    takes for false (0, the empty string, null, undefined) is not:
    [getVariable] takes the name for unbound, and what it returns is the
    new variable it has bound the name to in place of the value set. *)
Theorem setVariable_then_getVariable name v vm f m :
  name ≠ "__proto__"%string →
  frame_of name vm = Some f → varmaps vm !! sf_variables f = Some m →
  (truthy v = true →
   (setVariable name v;; getVariable name) vm
   = Ret v (set_varmaps (<[sf_variables f := <[name := v]> m]> (varmaps vm)) vm)) ∧
  (truthy v = false →
   ∀ r vm', (setVariable name v;; getVariable name) vm = Ret r vm' →
            r ≠ v ∧ truthy r = true ∧ getVariable name vm' = Ret r vm').
Proof.
  intros Hname Hf Hm.
  pose proof (setVariable_bound name v vm f m Hname Hf Hm) as Hset.
  rewrite (bind_Ret _ _ _ _ _ Hset). split.
  - intros Hv. apply (getVariable_bound name v _ f (<[name := v]> m)).
    + done.
    + done.
    + simpl. apply list_lookup_insert_eq. by eapply lookup_lt_Some.
    + apply lookup_insert_eq.
    + done.
  - intros Hv r vm' Hget.
    destruct (getVariable_binds _ _ _ _ Hget) as (f' & m' & Hf' & Hm' & Hr & Ht & _).
    split_and!.
    + intros ->. by rewrite Hv in Ht.
    + done.
    + by eapply getVariable_bound.
Qed.

End Properties.

(** * The parser on a character the tokenizer rejects *)

Section Parser.
Context {graph ast : Type}.
Context (nextToken : nat → nat → option GlrParser.Token)
        (is_EOF : GlrParser.Token → bool)
        (reduce_tops shift_tops : GlrParser.Token → graph → graph)
        (nextTops_empty : graph → bool) (advance : graph → graph)
        (expected : graph → list string) (accepted : graph → option ast)
        (show_token : GlrParser.Token → string) (text_length : string → nat).

Local Abbreviation parse_loop :=
  (GlrParser.parse_loop graph nextToken is_EOF reduce_tops shift_tops
     nextTops_empty advance expected show_token text_length).
Local Abbreviation parse :=
  (GlrParser.parse graph ast nextToken is_EOF reduce_tops shift_tops
     nextTops_empty advance expected accepted show_token text_length).

(** C8, as the code has it.  When the tokenizer, asked for the token at
    [line] and [position], answers null, the loop of [parse] appends one
    message to the error list and is left, the stack tops being as they
    were: no token is reduced or shifted, and none is asked for again.
    The message reads [Bad character at at L:C], with the word [at]
    twice, where L is [line + 1] and C is [position + 1].  When this
    happens on the first token, [parse] ends with that message, followed
    by the list of expected symbols unless a stack top accepts. *)
Theorem bad_character_reported fuel (line position : nat) (g : graph)
    (errors : list string) :
  nextToken line position = None →
  parse_loop (S fuel) line position g errors
  = Some (g, (errors ++ [("Bad character at at " ++ pretty (line + 1) ++ ":"
                           ++ pretty (position + 1))%string])%list) ∧
  (line = 0 → position = 0 → errors = [] →
   parse (S fuel) g
   = Some (match accepted g with
           | Some tree => (Some tree, ["Bad character at at 1:1"])
           | None => (None, ["Bad character at at 1:1";
                             "Expected one of the following:"]
                            ++ GlrParser.printExpected graph expected g)%list
           end)).
Proof.
  intros Hnull. split.
  - cbn [GlrParser.parse_loop]. by rewrite Hnull.
  - intros -> -> ->. unfold GlrParser.parse. cbn [GlrParser.parse_loop].
    rewrite Hnull. by destruct (accepted g).
Qed.

End Parser.
(** * The trace buffer, the parser's loop and its stack *)

Section TraceBufferProperties.
Import TraceBuffer.
Local Close Scope string_scope.

Lemma printf_spec (str : string) (lines : list string) :
  length lines ≤ MAX_LINES →
  printf str lines = drop (length (lines ++ [str]) - MAX_LINES) (lines ++ [str]).
Proof.
  intros Hlen. unfold printf. rewrite length_app. simpl.
  destruct (Nat.ltb_spec MAX_LINES (length lines + 1)) as [Hfull|Hroom].
  - replace (length lines + 1 - MAX_LINES) with 1 by lia.
    by destruct (lines ++ [str]).
  - by replace (length lines + 1 - MAX_LINES) with 0 by lia.
Qed.

(** X20.  The trace buffer keeps the last 200 lines.  After any number of
    calls of [printf] on a new buffer, [lines] holds the lines printed,
    oldest first, without the ones before the last [MAX_LINES]; it is never
    longer than that. *)
Theorem trace_keeps_the_last_lines (printed : list string) :
  let lines := foldl (λ lines str, printf str lines) [] printed in
  lines = drop (length printed - MAX_LINES) printed ∧ length lines ≤ MAX_LINES.
Proof.
  induction printed as [|str printed IH] using rev_ind; [by split; [|simpl; lia]|].
  cbv zeta in *. destruct IH as [IH Hlen]. rewrite foldl_app. cbn [foldl].
  rewrite printf_spec by done. rewrite IH. clear IH Hlen.
  rewrite !length_app, length_drop. cbn [length].
  destruct (decide (length printed ≤ MAX_LINES)) as [Hfew|Hmany].
  - replace (length printed - MAX_LINES) with 0 by lia. rewrite drop_0, Nat.sub_0_r.
    split; [done|]. rewrite length_drop, length_app. simpl. lia.
  - rewrite <- (drop_app_le printed [str]) by lia. rewrite drop_drop.
    replace (length printed - MAX_LINES
             + (length printed - (length printed - MAX_LINES) + 1 - MAX_LINES))
      with (length printed + 1 - MAX_LINES) by lia.
    split; [done|]. rewrite length_drop, length_app. simpl. lia.
Qed.

End TraceBufferProperties.

Section ParseOutcomes.
Local Close Scope string_scope.
Context {graph ast : Type}.
Context (nextToken : nat → nat → option GlrParser.Token)
        (is_EOF : GlrParser.Token → bool)
        (reduce_tops shift_tops : GlrParser.Token → graph → graph)
        (nextTops_empty : graph → bool) (advance : graph → graph)
        (expected : graph → list string) (accepted : graph → option ast)
        (show_token : GlrParser.Token → string) (text_length : string → nat).

Local Abbreviation parse_loop :=
  (GlrParser.parse_loop graph nextToken is_EOF reduce_tops shift_tops
     nextTops_empty advance expected show_token text_length).
Local Abbreviation parse :=
  (GlrParser.parse graph ast nextToken is_EOF reduce_tops shift_tops
     nextTops_empty advance expected accepted show_token text_length).
Local Abbreviation printExpected := (GlrParser.printExpected graph expected).
Local Abbreviation syntax_error := (GlrParser.syntax_error show_token).

(** How the loop of [parse] is left: on the end of the text, on a
    character the tokenizer rejects, or on a token no stack top can
    shift. *)
Lemma parse_loop_outcomes fuel line position (g : graph) (errors : list string) g' errors' :
  parse_loop fuel line position g errors = Some (g', errors') →
  (∃ l p token, nextToken l p = Some token ∧ is_EOF token = true ∧ errors' = errors) ∨
  (∃ l p, nextToken l p = None ∧ errors' = errors ++ [GlrParser.bad_character l p]) ∨
  (∃ l p token,
     nextToken l p = Some token ∧ is_EOF token = false ∧ nextTops_empty g' = true ∧
     errors' = errors ++ [syntax_error token; "Expected one of the following:"%string]
                      ++ printExpected g').
Proof.
  revert line position g. induction fuel as [|fuel IH]; intros line position g; [done|].
  cbn [GlrParser.parse_loop].
  destruct (nextToken line position) as [token|] eqn:Htoken.
  - cbv zeta. destruct (is_EOF token) eqn:Heof.
    + intros [= <- <-]. left. by exists line, position, token.
    + destruct (nextTops_empty (shift_tops token (reduce_tops token g))) eqn:Hempty.
      * intros [= <- <-]. right. right. by exists line, position, token.
      * apply IH.
  - intros [= <- <-]. right. left. by exists line, position.
Qed.

(** X21.  What [parse] reports.  [parse] stops at the first error: when it
    returns, the error list is empty, or it starts with the one message
    [Bad character ...], or with the one message [Syntax error ...]
    followed by the list of expected symbols.  When no stack top accepts,
    the result is null and the list of expected symbols is appended (so
    that after a syntax error it is there twice); when one accepts, its
    value is returned and nothing is appended.  So when [parse]
    gives up the error list is not empty, and an empty error list means
    that a stack top accepted. *)
Theorem parse_outcomes fuel (initial : graph) result errors :
  parse fuel initial = Some (result, errors) →
  ∃ g first,
    (result, errors)
    = match accepted g with
      | Some tree => (Some tree, first)
      | None => (None, first ++ ["Expected one of the following:"%string]
                             ++ printExpected g)
      end ∧
    (first = [] ∨
     (∃ l p, nextToken l p = None ∧ first = [GlrParser.bad_character l p]) ∨
     (∃ token, nextTops_empty g = true ∧
               first = [syntax_error token; "Expected one of the following:"%string]
                       ++ printExpected g)) ∧
    (result = None → errors ≠ []) ∧ (errors = [] → result ≠ None).
Proof.
  unfold GlrParser.parse.
  destruct (parse_loop fuel 0 0 initial []) as [[g first]|] eqn:Hloop; [|done].
  intros Hresult. exists g, first.
  apply parse_loop_outcomes in Hloop as [(l & p & token & _ & _ & ->)|
                                         [(l & p & Hnull & ->)|
                                          (l & p & token & _ & _ & Hempty & ->)]].
  - split_and!.
    + by destruct (accepted g); injection Hresult as <- <-.
    + by left.
    + destruct (accepted g); by injection Hresult as <- <-.
    + destruct (accepted g); by injection Hresult as <- <-.
  - split_and!.
    + by destruct (accepted g); injection Hresult as <- <-.
    + right. left. by exists l, p.
    + destruct (accepted g); by injection Hresult as <- <-.
    + destruct (accepted g); by injection Hresult as <- <-.
  - split_and!.
    + by destruct (accepted g); injection Hresult as <- <-.
    + right. right. by exists token.
    + destruct (accepted g); by injection Hresult as <- <-.
    + destruct (accepted g); by injection Hresult as <- <-.
Qed.

End ParseOutcomes.

Section Ancestors.
Local Close Scope string_scope.
Context (parents : nat → list nat).

Lemma ancestors_fold k (ps : list nat) :
  (∀ p paths a, a ∈ GlrParser.ancestors parents paths p k
                ↔ a ∈ paths ∨ GlrParser.reaches parents k p a) →
  ∀ paths a,
    a ∈ foldl (λ paths p, GlrParser.ancestors parents paths p k) paths ps
    ↔ a ∈ paths ∨ ∃ p, p ∈ ps ∧ GlrParser.reaches parents k p a.
Proof.
  intros Hk. induction ps as [|p ps IH]; intros paths a; simpl.
  - split; [by left|]. intros [?|(p & ?%elem_of_nil & _)]; done.
  - rewrite IH, Hk. split.
    + intros [[?|?]|(q & Hq & ?)]; [by left| |].
      * right. exists p. split; [apply elem_of_cons; by left|done].
      * right. exists q. split; [apply elem_of_cons; by right|done].
    + intros [?|(q & [->|Hq]%elem_of_cons & ?)]; [by left; left|by left; right|].
      right. by exists q.
Qed.

(** X22.  [ancestors(paths, v, k)] adds to [paths] the nodes that are
    exactly [k] steps of [parents] away from [v], and nothing else: a node
    is in the result if and only if it was in [paths] or a chain of [k]
    parent links leads from [v] to it.  What was in [paths] stays in
    front, in its order. *)
Theorem ancestors_are_the_nodes_k_steps_up k :
  ∀ v (paths : list nat),
    (∀ a, a ∈ GlrParser.ancestors parents paths v k
          ↔ a ∈ paths ∨ GlrParser.reaches parents k v a) ∧
    ∃ found, GlrParser.ancestors parents paths v k = paths ++ found.
Proof.
  induction k as [|k IH]; intros v paths.
  - split; [|by exists [v]]. intros a. simpl. rewrite elem_of_app, list_elem_of_singleton.
    split; (intros [?|Ha]; [by left|right]).
    + subst a. constructor.
    + by inversion Ha.
  - split.
    + intros a. cbn [GlrParser.ancestors].
      rewrite (ancestors_fold k (parents v) (λ p paths a, proj1 (IH p paths) a)).
      split; (intros [?|Ha]; [by left|right]).
      * destruct Ha as (p & Hp & Hreach). by econstructor.
      * inversion Ha as [|? ? p ? Hp Hreach]; subst. by exists p.
    + cbn [GlrParser.ancestors]. generalize (parents v). intros ps. revert paths.
      induction ps as [|p ps IHps]; intros paths; simpl.
      * exists []. by rewrite app_nil_r.
      * destruct (proj2 (IH p paths)) as [found1 ->].
        destruct (IHps (paths ++ found1)) as [found2 ->].
        exists (found1 ++ found2). by rewrite app_assoc.
Qed.

End Ancestors.

Section Shift.
Local Close Scope string_scope.
Context (computeNext : nat → string → option nat) (here : Locus)
        (symbol : GlrParser.Token).

Local Abbreviation shift := (GlrParser.shift computeNext here).
Local Abbreviation shift_all := (GlrParser.shift_all computeNext here).
Local Abbreviation shifted := (GlrParser.shifted computeNext symbol).

Lemma shifted_nil : shifted [] [].
Proof.
  split_and!.
  - constructor.
  - intros s. split; [by intros ?%elem_of_nil|by intros (? & ?%elem_of_nil & _)].
  - by intros n ?%elem_of_nil.
Qed.

Lemma shift_shifted processed tops node node_state :
  shifted processed tops →
  shifted (processed ++ [(node, node_state)]) (shift node node_state symbol tops).
Proof.
  intros (Hnodup & Hstates & Hparents). unfold GlrParser.shift.
  destruct (computeNext node_state (GlrParser.id symbol)) as [nextState|] eqn:Hnext.
  - destruct (GlrParser.findNode tops nextState) as [[i nextNode]|] eqn:Hfind.
    + apply list_find_Some in Hfind as (Hi & Hstate & _).
      assert (Hfmap : GlrParser.sn_state <$>
                <[i := {| GlrParser.sn_locus := GlrParser.sn_locus nextNode;
                          GlrParser.sn_text := GlrParser.sn_text nextNode;
                          GlrParser.sn_state := GlrParser.sn_state nextNode;
                          GlrParser.sn_parents :=
                            (GlrParser.addParent node (GlrParser.sn_parents nextNode)).2 |}]> tops
              = GlrParser.sn_state <$> tops).
      { rewrite list_fmap_insert. apply list_insert_id. by rewrite list_lookup_fmap, Hi. }
      split_and!.
      * by rewrite Hfmap.
      * intros s. rewrite Hfmap, Hstates. split.
        -- intros (top & Htop & ?). exists top. split; [|done].
           apply elem_of_app. by left.
        -- intros (top & [Htop| ->%list_elem_of_singleton]%elem_of_app & Hs).
           ++ by exists top.
           ++ simpl in Hs. rewrite Hnext in Hs. injection Hs as <-.
              apply Hstates. rewrite <- Hstate.
              apply (list_elem_of_fmap_2 GlrParser.sn_state).
              by eapply list_elem_of_lookup_2.
      * intros n [j Hj]%list_elem_of_lookup_1.
        destruct (decide (j = i)) as [->|Hji].
        -- rewrite list_lookup_insert_eq in Hj by (by eapply lookup_lt_Some).
           injection Hj as <-. simpl.
           destruct (Hparents nextNode) as (Htext & Hnd & Hps);
             [by eapply list_elem_of_lookup_2|].
           split; [done|]. unfold GlrParser.addParent.
           destruct (bool_decide (node ∈ GlrParser.sn_parents nextNode)) eqn:Hin; simpl.
           ++ apply bool_decide_eq_true_1 in Hin. split; [done|].
              intros p. rewrite Hps. split.
              ** intros (top & Htop & ?). exists top. split; [|done].
                 apply elem_of_app. by left.
              ** intros (top & [Htop| ->%list_elem_of_singleton]%elem_of_app & Hp & Hs).
                 --- by exists top.
                 --- simpl in Hp. subst p. by apply Hps.
           ++ apply bool_decide_eq_false_1 in Hin. split.
              ** apply NoDup_app. split_and!; [done| |apply NoDup_singleton].
                 intros p Hp ->%list_elem_of_singleton. done.
              ** intros p. rewrite elem_of_app, list_elem_of_singleton, Hps. split.
                 --- intros [(top & Htop & ?)| ->].
                     +++ exists top. split; [|done]. apply elem_of_app. by left.
                     +++ exists (node, node_state). split_and!; [|done|].
                         *** apply elem_of_app. right. by apply list_elem_of_singleton.
                         *** simpl. by rewrite Hnext, Hstate.
                 --- intros (top & [Htop| ->%list_elem_of_singleton]%elem_of_app & Hp & Hs).
                     +++ left. by exists top.
                     +++ by right.
        -- rewrite list_lookup_insert_ne in Hj by done.
           destruct (Hparents n) as (Htext & Hnd & Hps);
             [by eapply list_elem_of_lookup_2|].
           split_and!; [done..|].
           intros p. rewrite Hps. split.
           ++ intros (top & Htop & ?). exists top. split; [|done].
              apply elem_of_app. by left.
           ++ intros (top & [Htop| ->%list_elem_of_singleton]%elem_of_app & Hp & Hs).
              ** by exists top.
              ** exfalso. simpl in Hs. rewrite Hnext in Hs. injection Hs as Hs.
                 apply Hji. eapply (NoDup_lookup _ j i (GlrParser.sn_state n) Hnodup).
                 --- by rewrite list_lookup_fmap, Hj.
                 --- by rewrite list_lookup_fmap, Hi, <- Hs, <- Hstate.
    + apply list_find_None in Hfind.
      assert (Hfresh : nextState ∉ GlrParser.sn_state <$> tops).
      { intros (n & -> & Hn)%list_elem_of_fmap.
        by eapply (proj1 (Forall_forall _ _) Hfind n). }
      split_and!.
      * rewrite fmap_app. apply NoDup_app. split_and!; [done| |apply NoDup_singleton].
        intros s Hs ->%list_elem_of_singleton. done.
      * intros s. rewrite fmap_app, elem_of_app, Hstates. simpl.
        rewrite list_elem_of_singleton. split.
        -- intros [(top & Htop & ?)| ->].
           ++ exists top. split; [|done]. apply elem_of_app. by left.
           ++ exists (node, node_state). split; [|done].
              apply elem_of_app. right. by apply list_elem_of_singleton.
        -- intros (top & [Htop| ->%list_elem_of_singleton]%elem_of_app & Hs).
           ++ left. by exists top.
           ++ right. simpl in Hs. rewrite Hnext in Hs. by injection Hs.
      * intros n [Hn| ->%list_elem_of_singleton]%elem_of_app.
        -- destruct (Hparents n Hn) as (Htext & Hnd & Hps).
           split_and!; [done..|].
           intros p. rewrite Hps. split.
           ++ intros (top & Htop & ?). exists top. split; [|done].
              apply elem_of_app. by left.
           ++ intros (top & [Htop| ->%list_elem_of_singleton]%elem_of_app & Hp & Hs).
              ** by exists top.
              ** exfalso. simpl in Hs. rewrite Hnext in Hs. injection Hs as Hs.
                 apply Hfresh. rewrite Hs.
                 by apply (list_elem_of_fmap_2 GlrParser.sn_state).
        -- simpl. split_and!; [done|apply NoDup_singleton|].
           intros p. rewrite list_elem_of_singleton. split.
           ++ intros ->. exists (node, node_state). split_and!; [|done..].
              apply elem_of_app. right. by apply list_elem_of_singleton.
           ++ intros (top & [Htop| ->%list_elem_of_singleton]%elem_of_app & Hp & Hs);
                [|done].
              exfalso. apply Hfresh. apply Hstates. by exists top.
  - split_and!; [done| |].
    + intros s. rewrite Hstates. split.
      * intros (top & Htop & ?). exists top. split; [|done].
        apply elem_of_app. by left.
      * intros (top & [Htop| ->%list_elem_of_singleton]%elem_of_app & Hs).
        -- by exists top.
        -- simpl in Hs. by rewrite Hnext in Hs.
    + intros n Hn. destruct (Hparents n Hn) as (Htext & Hnd & Hps).
      split_and!; [done..|].
      intros p. rewrite Hps. split.
      * intros (top & Htop & ?). exists top. split; [|done].
        apply elem_of_app. by left.
      * intros (top & [Htop| ->%list_elem_of_singleton]%elem_of_app & Hp & Hs).
        -- by exists top.
        -- simpl in Hs. by rewrite Hnext in Hs.
Qed.

Lemma shift_all_shifted stackTops processed tops :
  shifted processed tops →
  shifted (processed ++ stackTops) (shift_all stackTops symbol tops).
Proof.
  revert processed tops. induction stackTops as [|[node node_state] stackTops IH];
    intros processed tops Htops.
  - by rewrite app_nil_r.
  - replace (processed ++ (node, node_state) :: stackTops)
      with ((processed ++ [(node, node_state)]) ++ stackTops)
      by (by rewrite <- app_assoc).
    apply (IH (processed ++ [(node, node_state)])). by apply shift_shifted.
Qed.

(** X23.  What the shifts of one token leave in [nextTops].  Starting from
    an empty [nextTops], after [shift] has been called on every stack top:
    no two nodes of [nextTops] have the same state; the states present are
    exactly those some stack top reaches on the token; every node carries
    the text of the token, and its parents are exactly the stack tops that
    reach its state, each once.  [nextTops] is empty (which [parse] reports
    as a syntax error) exactly when no stack top has a transition on the
    token. *)
Theorem shift_merges_by_state (stackTops : list (nat * nat)) :
  let nextTops := shift_all stackTops symbol [] in
  GlrParser.shifted computeNext symbol stackTops nextTops ∧
  (nextTops = []
   ↔ ∀ top, top ∈ stackTops → computeNext top.2 (GlrParser.id symbol) = None).
Proof.
  intros nextTops.
  assert (Hshifted : shifted stackTops nextTops).
  { apply (shift_all_shifted stackTops [] []), shifted_nil. }
  split; [done|]. destruct Hshifted as (_ & Hstates & _). split.
  - intros Hnil top Htop.
    destruct (computeNext top.2 (GlrParser.id symbol)) as [s|] eqn:Hs; [|done].
    assert (Hin : s ∈ GlrParser.sn_state <$> nextTops) by (apply Hstates; by exists top).
    rewrite Hnil in Hin. by apply elem_of_nil in Hin.
  - intros Hnone. destruct nextTops as [|n rest] eqn:Heq; [done|].
    destruct (proj1 (Hstates (GlrParser.sn_state n))) as (top & Htop & Hs).
    { simpl. apply elem_of_cons. by left. }
    by rewrite (Hnone top Htop) in Hs.
Qed.

End Shift.

Section ClosureProperties.
Import GlrParser.
Local Close Scope string_scope.
Context (rules : string → option (list Rule)).

Local Abbreviation item rule position :=
  {| item_rule := rule; item_position := position |}.

Lemma expanded_mono state state' i :
  items state ⊆ items state' → expanded rules state i → expanded rules state' i.
Proof.
  intros Hsub Hi symbol rs r Hnext Hrules Hr.
  destruct (Hi symbol rs r Hnext Hrules Hr) as [i' Hi'].
  exists i'. by eapply lookup_weaken.
Qed.

Lemma consistent_insert state rule position :
  consistent state →
  items state !! item_key (item rule position) = None →
  position ≠ length (rule_symbols rule) →
  consistent {| items := <[item_key (item rule position) := item rule position]> (items state);
                itemCount := S (itemCount state);
                reductions := reductions state; accept := accept state |}.
Proof.
  intros (Hkeyed & Hcount & Hnodup & Hred & Hacc) Hnone Hpos.
  assert (Hold : ∀ key i, items state !! key = Some i →
            <[item_key (item rule position) := item rule position]> (items state) !! key
            = Some i).
  { intros key i Hi. rewrite lookup_insert_ne; [done|]. intros <-. by rewrite Hnone in Hi. }
  unfold consistent. simpl. split_and!.
  - intros key i [[<- <-]|[_ Hi]]%lookup_insert_Some; [done|by apply Hkeyed].
  - rewrite map_size_insert_None by done. by rewrite Hcount.
  - done.
  - intros r. rewrite Hred. split.
    + intros (key & i & Hi & Hc & Hr). exists key, i. split_and!; [by apply Hold|done..].
    + intros (key & i & [[<- <-]|[_ Hi]]%lookup_insert_Some & Hc & Hr); [done|].
      by exists key, i.
  - rewrite Hacc. split.
    + intros (key & i & Hi & Hc & Hr). exists key, i. split_and!; [by apply Hold|done..].
    + intros (key & i & [[<- <-]|[_ Hi]]%lookup_insert_Some & Hc & Hr); [done|].
      by exists key, i.
Qed.

Lemma consistent_insert_complete state rule :
  let position := length (rule_symbols rule) in
  consistent state →
  items state !! item_key (item rule position) = None →
  consistent {| items := <[item_key (item rule position) := item rule position]> (items state);
                itemCount := S (itemCount state);
                reductions := reductions state ++ [rule];
                accept := if String.eqb (rule_name rule) "_start"
                          then true else accept state |}.
Proof.
  intros position (Hkeyed & Hcount & Hnodup & Hred & Hacc) Hnone. subst position.
  assert (Hold : ∀ key i, items state !! key = Some i →
            <[item_key (item rule (length (rule_symbols rule)))
              := item rule (length (rule_symbols rule))]> (items state) !! key
            = Some i).
  { intros key i Hi. rewrite lookup_insert_ne; [done|]. intros <-. by rewrite Hnone in Hi. }
  unfold consistent. simpl. split_and!.
  - intros key i [[<- <-]|[_ Hi]]%lookup_insert_Some; [done|by apply Hkeyed].
  - rewrite map_size_insert_None by done. by rewrite Hcount.
  - apply NoDup_app. split_and!; [done| |apply NoDup_singleton].
    intros r Hr ->%list_elem_of_singleton.
    apply Hred in Hr as (key & [r p] & Hi & Hc & Hrule). unfold complete in Hc.
    simpl in Hc, Hrule. subst r p.
    pose proof (Hkeyed _ _ Hi) as ->. by rewrite Hnone in Hi.
  - intros r. rewrite elem_of_app, list_elem_of_singleton, Hred. split.
    + intros [(key & i & Hi & Hc & Hr)| ->].
      * exists key, i. split_and!; [by apply Hold|done..].
      * exists (item_key (item rule (length (rule_symbols rule)))),
          (item rule (length (rule_symbols rule))).
        by rewrite lookup_insert_eq.
    + intros (key & i & [[<- <-]|[_ Hi]]%lookup_insert_Some & Hc & Hr).
      * by right.
      * left. by exists key, i.
  - destruct (String.eqb_spec (rule_name rule) "_start") as [Hname|Hname].
    + split; [|done]. intros _.
      exists (item_key (item rule (length (rule_symbols rule)))),
          (item rule (length (rule_symbols rule))).
      by rewrite lookup_insert_eq.
    + rewrite Hacc. split.
      * intros (key & i & Hi & Hc & Hr). exists key, i. split_and!; [by apply Hold|done..].
      * intros (key & i & [[<- <-]|[_ Hi]]%lookup_insert_Some & Hc & Hr); [done|].
        by exists key, i.
Qed.

(** A new state is closed and consistent. *)
Lemma closed_new : closed rules GlrState_new.
Proof. intros key i Hi. unfold GlrState_new in Hi. simpl in Hi. by rewrite lookup_empty in Hi. Qed.

Lemma consistent_new : consistent GlrState_new.
Proof.
  unfold consistent, GlrState_new. simpl. split_and!.
  - intros key i Hi. by rewrite lookup_empty in Hi.
  - by rewrite map_size_empty.
  - constructor.
  - intros rule. split; [by intros ?%elem_of_nil|].
    intros (key & i & Hi & _). by rewrite lookup_empty in Hi.
  - split; [done|]. intros (key & i & Hi & _). by rewrite lookup_empty in Hi.
Qed.

(** What a call of [addRuleToState] that returns has done. *)
Local Abbreviation added state rule position state' :=
  (consistent state' ∧ items state ⊆ items state' ∧
   is_Some (items state' !! item_key (item rule position)) ∧
   ∀ key i, items state' !! key = Some i → items state !! key = None →
            derives rules (item rule position) i ∧ expanded rules state' i).

Lemma add_each_spec (add : GlrState → Rule → option (GlrState + JsErrorKind)) rs :
  (∀ state r state', consistent state → add state r = Some (inl state') →
                     added state r 0 state') →
  ∀ state state',
    consistent state → add_each add rs state = Some (inl state') →
    consistent state' ∧ items state ⊆ items state' ∧
    (∀ r, r ∈ rs → is_Some (items state' !! item_key (item r 0))) ∧
    (∀ key i, items state' !! key = Some i → items state !! key = None →
              ∃ r, r ∈ rs ∧ derives rules (item r 0) i ∧ expanded rules state' i).
Proof.
  intros Hadd. induction rs as [|r rs IH]; intros state state' Hstate Hrun; simpl in Hrun.
  - injection Hrun as <-. split_and!; [done..| |].
    + by intros r ?%elem_of_nil.
    + intros key i Hi Hnone. by rewrite Hnone in Hi.
  - destruct (add state r) as [[state1|e]|] eqn:Hr; [|done..].
    destruct (Hadd state r state1 Hstate Hr) as (H1 & Hsub1 & Hin1 & Hnew1).
    destruct (IH state1 state' H1 Hrun) as (H2 & Hsub2 & Hin2 & Hnew2).
    split_and!.
    + done.
    + by etrans.
    + intros r' [->|Hr']%elem_of_cons; [|by apply Hin2].
      destruct Hin1 as [i Hi]. exists i. by eapply lookup_weaken.
    + intros key i Hi Hnone.
      destruct (items state1 !! key) as [i1|] eqn:Hi1.
      * assert (i1 = i) as ->.
        { pose proof (lookup_weaken _ _ _ _ Hi1 Hsub2) as Hi'. congruence. }
        destruct (Hnew1 key i Hi1 Hnone) as [Hd He].
        exists r. split_and!; [apply elem_of_cons; by left|done|].
        by eapply expanded_mono.
      * destruct (Hnew2 key i Hi Hi1) as (r' & Hr' & Hd & He).
        exists r'. split_and!; [apply elem_of_cons; by right|done..].
Qed.

Lemma addRuleToState_spec fuel :
  ∀ state rule position state',
    consistent state →
    addRuleToState rules fuel state rule position = Some (inl state') →
    added state rule position state'.
Proof.
  induction fuel as [|fuel IH]; intros state rule position state' Hstate Hrun; [done|].
  cbn [addRuleToState] in Hrun. cbv zeta in Hrun.
  destruct (items state !! item_key (item rule position)) as [i0|] eqn:Hkey.
  { injection Hrun as <-. split_and!; [done..|by exists i0|].
    intros key i Hi Hnone. by rewrite Hnone in Hi. }
  assert (Hsub : items state
                 ⊆ <[item_key (item rule position) := item rule position]> (items state)).
  { by apply insert_subseteq. }
  destruct (position =? length (rule_symbols rule)) eqn:Hpos.
  { apply Nat.eqb_eq in Hpos. subst position. injection Hrun as <-.
    split_and!.
    - by apply consistent_insert_complete.
    - done.
    - simpl. rewrite lookup_insert_eq. by eexists.
    - simpl. intros key i [[<- <-]|[_ Hi]]%lookup_insert_Some Hnone;
        [|by rewrite Hnone in Hi].
      split; [constructor|].
      intros symbol rs r Hnext. unfold next_nonterminal in Hnext. simpl in Hnext.
      by rewrite lookup_ge_None_2 in Hnext. }
  apply Nat.eqb_neq in Hpos.
  destruct (rule_symbols rule !! position) as [symbol|] eqn:Hsymbol; [|done].
  pose proof (consistent_insert state rule position Hstate Hkey Hpos) as Hstate1.
  destruct (is_terminal symbol) eqn:Hterminal.
  { injection Hrun as <-. split_and!.
    - done.
    - done.
    - simpl. rewrite lookup_insert_eq. by eexists.
    - simpl. intros key i [[<- <-]|[_ Hi]]%lookup_insert_Some Hnone;
        [|by rewrite Hnone in Hi].
      split; [constructor|].
      intros symbol' rs r Hnext. unfold next_nonterminal in Hnext. simpl in Hnext.
      by rewrite Hsymbol, Hterminal in Hnext. }
  destruct (rules symbol) as [rs|] eqn:Hrules; [|done].
  destruct (add_each_spec _ rs (λ s r s', IH s r 0 s') _ _ Hstate1 Hrun)
    as (Hstate' & Hsub' & Hin & Hnew).
  simpl in Hsub', Hnew.
  assert (Hx : items state' !! item_key (item rule position) = Some (item rule position)).
  { eapply lookup_weaken; [|exact Hsub']. apply lookup_insert_eq. }
  assert (Hnext : next_nonterminal (item rule position) = Some symbol).
  { unfold next_nonterminal. simpl. by rewrite Hsymbol, Hterminal. }
  split_and!.
  - done.
  - by etrans.
  - by eexists.
  - intros key i Hi Hnone.
    destruct (decide (key = item_key (item rule position))) as [->|Hne].
    + assert (i = item rule position) as -> by congruence.
      split; [constructor|].
      intros symbol' rs' r Hnext' Hrules' Hr.
      rewrite Hnext in Hnext'. injection Hnext' as <-.
      rewrite Hrules in Hrules'. injection Hrules' as <-. by apply Hin.
    + destruct (Hnew key i Hi) as (r & Hr & Hd & He).
      { by rewrite lookup_insert_ne. }
      split; [|done]. by eapply derives_step.
Qed.

(** X27.  [addRuleToState] computes the LR(0) closure.  Called on a state
    that is closed and whose fields are consistent, it leaves, when it
    returns, a state that is closed and consistent again: every item has
    the rules of the non-terminal after its dot in the state, [itemCount]
    is the number of items, and [reductions] lists the rules of the
    complete items, each once.  The items that were there are kept, the
    item asked for is there, and nothing is added but what derives from
    it. *)
Theorem closure_is_closed fuel state rule position state' :
  closed rules state → consistent state →
  addRuleToState rules fuel state rule position = Some (inl state') →
  closed rules state' ∧ consistent state' ∧ items state ⊆ items state' ∧
  is_Some (items state' !! item_key {| item_rule := rule; item_position := position |}) ∧
  ∀ key i, items state' !! key = Some i →
           items state !! key = Some i
           ∨ derives rules {| item_rule := rule; item_position := position |} i.
Proof.
  intros Hclosed Hstate Hrun.
  destruct (addRuleToState_spec fuel state rule position state' Hstate Hrun)
    as (Hstate' & Hsub & Hin & Hnew).
  assert (Hcases : ∀ key i, items state' !! key = Some i →
            items state !! key = Some i ∨ items state !! key = None).
  { intros key i Hi. destruct (items state !! key) as [i0|] eqn:Hi0; [left|by right].
    pose proof (lookup_weaken _ _ _ _ Hi0 Hsub). congruence. }
  split_and!; [|done..|].
  - intros key i Hi. destruct (Hcases key i Hi) as [Hold|Hnone].
    + eapply expanded_mono; [done|]. by eapply Hclosed.
    + by apply (Hnew key i).
  - intros key i Hi. destruct (Hcases key i Hi) as [Hold|Hnone]; [by left|right].
    by apply (Hnew key i).
Qed.

Lemma size_list_to_set_le (l : list string) :
  size (list_to_set l : gset string) ≤ length l.
Proof.
  induction l as [|x l IH].
  - by rewrite list_to_set_nil, size_empty.
  - rewrite list_to_set_cons, size_union_alt, size_singleton. cbn [length].
    pose proof (subseteq_size (list_to_set l ∖ {[x]}) (list_to_set l : gset string)) as Hle.
    specialize (Hle ltac:(apply subseteq_difference_l; reflexivity)). lia.
Qed.

Lemma missing_mono grammar state state' :
  dom (items state) ⊆ dom (items state') →
  size (missing grammar state') ≤ size (missing grammar state).
Proof.
  intros Hsub. apply subseteq_size. unfold missing.
  intros key [Hkey Hnew]%elem_of_difference. apply elem_of_difference.
  split; [done|]. intros Hold. by apply Hnew, Hsub.
Qed.

Lemma missing_bound grammar state : size (missing grammar state) ≤ length grammar.
Proof.
  unfold missing. etrans; [apply subseteq_size, subseteq_difference_l; reflexivity|].
  etrans; [apply size_list_to_set_le|]. by rewrite length_map.
Qed.

Section Termination.
Context (grammar : list Rule).
Hypothesis Hgrammar : ∀ symbol rs, rules symbol = Some rs → rs ⊆ grammar.
Hypothesis Hdefined : ∀ r symbol,
  r ∈ grammar → symbol ∈ rule_symbols r → is_terminal symbol = false →
  is_Some (rules symbol).

Lemma add_each_returns (add : GlrState → Rule → option (GlrState + JsErrorKind)) m rs :
  rs ⊆ grammar →
  (∀ state r, r ∈ grammar → size (missing grammar state) < m →
              ∃ state', add state r = Some (inl state') ∧
                        dom (items state) ⊆ dom (items state')) →
  ∀ state, size (missing grammar state) < m →
           ∃ state', add_each add rs state = Some (inl state') ∧
                     dom (items state) ⊆ dom (items state').
Proof.
  intros Hrs Hadd. induction rs as [|r rs IH]; intros state Hm; simpl.
  - by exists state.
  - destruct (Hadd state r) as (state1 & -> & Hsub1); [apply Hrs, elem_of_cons; by left|done|].
    destruct (IH ltac:(intros r' Hr'; apply Hrs, elem_of_cons; by right) state1)
      as (state' & -> & Hsub2).
    { pose proof (missing_mono grammar _ _ Hsub1). lia. }
    exists state'. split; [done|]. by etrans.
Qed.

Lemma addRuleToState_step fuel m state rule position :
  (∀ state r, r ∈ grammar → size (missing grammar state) < m →
              ∃ state', addRuleToState rules fuel state r 0 = Some (inl state') ∧
                        dom (items state) ⊆ dom (items state')) →
  position ≤ length (rule_symbols rule) →
  (∀ symbol, symbol ∈ rule_symbols rule → is_terminal symbol = false →
             is_Some (rules symbol)) →
  (items state !! item_key (item rule position) = None →
   size (missing grammar
           {| items := <[item_key (item rule position) := item rule position]> (items state);
              itemCount := S (itemCount state);
              reductions := reductions state; accept := accept state |}) < m) →
  ∃ state', addRuleToState rules (S fuel) state rule position = Some (inl state') ∧
            dom (items state) ⊆ dom (items state').
Proof.
  intros Hsub Hpos Hdef Hm. cbn [addRuleToState]. cbv zeta.
  destruct (items state !! item_key (item rule position)) as [i0|] eqn:Hkey.
  { by exists state. }
  specialize (Hm eq_refl).
  assert (Hdom : dom (items state)
                 ⊆ dom (<[item_key (item rule position) := item rule position]> (items state))).
  { rewrite dom_insert_L. apply union_subseteq_r. }
  destruct (position =? length (rule_symbols rule)) eqn:Heq.
  { eexists. split; [reflexivity|]. done. }
  apply Nat.eqb_neq in Heq.
  destruct (lookup_lt_is_Some_2 (rule_symbols rule) position ltac:(lia)) as [symbol Hsymbol].
  rewrite Hsymbol.
  destruct (is_terminal symbol) eqn:Hterminal.
  { eexists. split; [reflexivity|]. done. }
  destruct (Hdef symbol) as [rs Hrules]; [by eapply list_elem_of_lookup_2|done|].
  rewrite Hrules.
  destruct (add_each_returns (λ state r, addRuleToState rules fuel state r 0) m rs
              (Hgrammar _ _ Hrules) Hsub _ Hm) as (state' & -> & Hsub').
  exists state'. split; [done|]. simpl in Hsub'. by etrans.
Qed.

Lemma addRuleToState_start fuel :
  ∀ state r, r ∈ grammar → size (missing grammar state) < fuel →
             ∃ state', addRuleToState rules fuel state r 0 = Some (inl state') ∧
                       dom (items state) ⊆ dom (items state').
Proof.
  induction fuel as [|fuel IH]; intros state r Hr Hm; [lia|].
  apply (addRuleToState_step fuel fuel); [exact IH|lia|intros symbol; by apply Hdefined|].
  intros Hnone.
  assert (size (missing grammar
                  {| items := <[item_key (item r 0) := item r 0]> (items state);
                     itemCount := S (itemCount state);
                     reductions := reductions state; accept := accept state |})
          < size (missing grammar state)); [|lia].
  apply subset_size. unfold missing. simpl. rewrite dom_insert_L.
  apply not_elem_of_dom in Hnone.
  assert (Hin : item_key (item r 0)
              ∈ (list_to_set (map (λ r, item_key (item r 0)) grammar) : gset string)).
  { apply elem_of_list_to_set, list_elem_of_fmap. by exists r. }
  split.
  - intros key [Hkey Hnew]%elem_of_difference. apply elem_of_difference.
    split; [done|]. intros Hold. apply Hnew, elem_of_union. by right.
  - intros Hsub.
    destruct (proj1 (elem_of_difference _ _ _)
                (Hsub (item_key (item r 0))
                   (proj2 (elem_of_difference _ _ _) (conj Hin Hnone)))) as [_ Hnew].
    apply Hnew, elem_of_union. left. by apply elem_of_singleton.
Qed.

End Termination.

(** X28.  [addRuleToState] returns.  For a grammar with finitely many
    rules, in which every non-terminal on a right-hand side has its rules,
    and a position within the rule, the calls nest no deeper than the
    number of rules plus two, whatever the state: the recursion stops, by
    the test for an item that is already there, and no TypeError is
    raised. *)
Theorem closure_terminates (grammar : list Rule) fuel state rule position :
  (∀ symbol rs, rules symbol = Some rs → rs ⊆ grammar) →
  (∀ r symbol, r ∈ rule :: grammar → symbol ∈ rule_symbols r →
               is_terminal symbol = false → is_Some (rules symbol)) →
  position ≤ length (rule_symbols rule) →
  length grammar + 2 ≤ fuel →
  ∃ state', addRuleToState rules fuel state rule position = Some (inl state').
Proof.
  intros Hgrammar Hdefined Hpos Hfuel.
  destruct fuel as [|fuel]; [lia|].
  destruct (addRuleToState_step grammar Hgrammar fuel fuel state rule position)
    as (state' & Hrun & _).
  - apply addRuleToState_start; [done|].
    intros r symbol Hr. apply Hdefined, elem_of_cons. by right.
  - done.
  - intros symbol. apply Hdefined, elem_of_cons. by left.
  - intros _. pose proof (missing_bound grammar
      {| items := <[item_key (item rule position) := item rule position]> (items state);
         itemCount := S (itemCount state);
         reductions := reductions state; accept := accept state |}). lia.
  - by exists state'.
Qed.

End ClosureProperties.


(** * The properties at work on examples *)

Section Examples.
#[local] Existing Instance ExampleHost.host.
#[local] Existing Instance ExampleHost.params.
Import ExampleHost.

(** FORLOOP with counter 5, step 1 and end value 3: the loop is over. *)
Lemma forloop_spec_witness :
  let vm := set_stack [num_lit 5; num_lit 1; num_lit 3; num_lit 9] (loaded (program [] [] [])) in
  execute 0 (FORLOOP 7) vm = Ret () (set_pc 7 (set_stack [num_lit 9] vm)).
Proof.
  intros vm.
  apply (proj1 (forloop_spec 0 7 vm (num_lit 5) (num_lit 1) (num_lit 3) [num_lit 9] eq_refl)).
  reflexivity.
Defined.

(** [10 / 0] raises the error; [10 MOD 4] leaves 2 in place of the two
    operands. *)
Lemma division_by_zero_iff_witness :
  let by_zero := set_stack [num_lit 0; num_lit 10] (loaded crash) in
  let by_four := set_stack [num_lit 4; num_lit 10] (loaded crash) in
  (∃ vm', execute 0 OP_DIV by_zero
          = Throw (RuntimeError DIVISION_BY_ZERO "Division by zero" None) vm') ∧
  execute 0 MOD by_four = Ret () (set_stack [num_lit 2] by_four).
Proof.
  intros by_zero by_four. split.
  - exact (proj1 (proj2 (proj1 (proj2 (division_by_zero_iff 0 by_zero)))) eq_refl).
  - exact (proj2 (proj2 (proj2 (proj2 (division_by_zero_iff 0 by_four)))) eq_refl).
Defined.

(** [RET] in the main frame: the call stack becomes empty and pc is the
    return address the frame held, 1. *)
Lemma ret_spec_witness :
  let vm := loaded (program [RET] [] []) in
  execute 0 RET vm = Ret () (set_frame None (set_pc 1 (set_callstack [] vm))).
Proof.
  intros vm.
  apply (proj1 (ret_spec 0) vm [] {| sf_pc := 1; sf_variables := 0 |}).
  reflexivity.
Defined.

(** [GOSUB 2], [x = 4] in the subroutine, [RET]: the main frame is current
    again and reads 4 for [x]. *)
Lemma call_and_gosub_frames_witness :
  let vm := loaded (program [GOSUB 2; END; RET] [] []) in
  ∃ vm',
    (execute 0 (GOSUB 2);; setVariable "x" (num_lit 4);; execute 0 RET) vm = Ret () vm' ∧
    frame vm' = frame vm ∧ callstack vm' = callstack vm ∧ pc vm' = pc vm ∧
    getVariable "x" vm' = Ret (num_lit 4) vm'.
Proof.
  intros vm.
  destruct (proj2 (proj2 (call_and_gosub_frames 0 2)) vm
              {| sf_pc := 3; sf_variables := 0 |} "x" (num_lit 4)
              (ordinary_name "x" eq_refl) eq_refl eq_refl)
    as (vm' & target & Hrun & Hframe & Hcs & Hpc & _ & _ & Hget).
  { intros f ->%list_elem_of_singleton. vm_compute. lia. }
  exists vm'. split_and!; [done|done|done|done|by apply Hget].
Defined.

(** The first use of [x%]: a new INTEGER variable holding 0 is made and
    bound in the main frame.  In a subroutine of a program that shares no
    name, [toString] is bound in the main frame all the same, and not in
    the frame of the subroutine. *)
Lemma variable_resolution_witness :
  (let vm := loaded (program [] [] []) in
   getVariable "x%" vm
   = Ret (VObj 0)
       (set_varmaps [{["x%" := VObj 0]}]
          (set_heap [ScalarVariable (VType (ScalarType INTEGER)) (num_lit 0)] vm))) ∧
  shared in_sub = ∅ ∧ frame in_sub = Some {| sf_pc := 0; sf_variables := 1 |} ∧
  varmaps in_sub = [∅; ∅] ∧
  setVariable "toString" (num_lit 4) in_sub
  = Ret () (set_varmaps [{["toString" := num_lit 4]}; ∅] in_sub).
Proof.
  split.
  - intros vm.
    destruct (proj1 (proj2 (proj2 (proj2 (proj2 (variable_resolution "x%")))))
                vm {| sf_pc := 0; sf_variables := 0 |} ∅ (ScalarType INTEGER)
                (ordinary_name "x%" eq_refl) eq_refl eq_refl eq_refl eq_refl)
      as (inst & vm1 & Hnew & Hdefault & _ & Hget).
    destruct (Hdefault INTEGER eq_refl) as [-> ->].
    exact Hget.
  - split_and!; [reflexivity..|].
    refine (proj1 (proj2 (proj2 (variable_resolution "toString"))) in_sub
              {| sf_pc := 3; sf_variables := 0 |} ∅ (num_lit 4) _ _ eq_refl).
    + discriminate.
    + rewrite (proj1 (proj2 (proj2 (proj2 (proj2 (proj2 (proj2
                 (variable_resolution "toString"))))))) in_sub); [reflexivity|].
      unfold object_prototype_keys. do 5 apply list_elem_of_further.
      apply list_elem_of_here.
Defined.

(** [READ x, y$, z%] on [DATA 1,,3]: [x] is 1, [y$] has the default of
    STRING for the null item, [z%] is 3, and the data pointer is 3. *)
Lemma restore_and_read_witness :
  ∃ vm',
    execute 4 (SYSCALL "READ") reading = Ret () vm' ∧
    stack vm' = [VStr "below"] ∧ dataPtr vm' = 3 ∧
    heap vm' = [ScalarVariable (VType (ScalarType SINGLE)) (num_lit 1);
                ScalarVariable (VType (ScalarType STRING)) (VStr "");
                ScalarVariable (VType (ScalarType INTEGER)) (num_lit 3)].
Proof.
  destruct (proj2 restore_and_read 4 reading (num_lit 3) 3 [0; 1; 2] [VStr "below"])
    as (vm' & Hrun & Hstack & Hptr & Hlen & _ & Hin).
  - intros i Hi. do 4 (destruct i as [|i]; [reflexivity|]). lia.
  - reflexivity.
  - lia.
  - reflexivity.
  - intros a Ha. unfold scalar_at.
    repeat (apply elem_of_cons in Ha as [->|Ha]; [eauto|]). by apply elem_of_nil in Ha.
  - exists vm'. split_and!; [done..|].
    assert (∀ i a, [0; 1; 2] !! i = Some a → ∀ j, i < j → [0; 1; 2] !! j ≠ Some a)
      as Hdistinct.
    { intros i a Hi j Hj.
      do 3 (destruct i as [|i];
            [injection Hi as <-; do 3 (destruct j as [|j]; [first [lia|done]|]); done|]).
      done. }
    pose proof (Hin 0 0 SINGLE (num_lit 0) eq_refl (Hdistinct 0 0 eq_refl) eq_refl) as H0.
    pose proof (Hin 1 1 STRING (VStr "old") eq_refl (Hdistinct 1 1 eq_refl) eq_refl) as H1.
    pose proof (Hin 2 2 INTEGER (num_lit 0) eq_refl (Hdistinct 2 2 eq_refl) eq_refl) as H2.
    destruct (heap vm') as [|x0 [|x1 [|x2 [|]]]]; try discriminate Hlen.
    injection H0 as ->. injection H1 as ->. injection H2 as ->. reflexivity.
Defined.

(** A tokenizer that rejects the first character of the text. *)
Lemma bad_character_reported_witness :
  GlrParser.parse_loop unit (λ _ _, None) (λ _, false) (λ _ g, g) (λ _ g, g)
    (λ _, true) (λ g, g) (λ _, []) (λ _, "") String.length 1 0 0 () []
  = Some ((), ["Bad character at at 1:1"]).
Proof.
  refine (proj1 (bad_character_reported (ast := unit) (λ _ _, None) (λ _, false) (λ _ g, g)
           (λ _ g, g) (λ _, true) (λ g, g) (λ _, []) (λ _, None) (λ _, "")
           String.length 0 0 0 () [] eq_refl)).
Defined.

(** After [RND(7)], which pushed the number of the generator, [RND(0)]
    pushes 0 and not that number. *)
Lemma lastRandomNumber_never_written_witness :
  stack rolled = [num_lit 1; num_lit 0; host_input "Math.random" []] ∧
  execute 0 (SYSCALL "RND") rolled
  = Ret () (set_stack [num_lit 0; host_input "Math.random" []] rolled).
Proof.
  split; [reflexivity|].
  apply (proj2 (proj2 (proj2 lastRandomNumber_never_written))
           0 rolled (num_lit 1) (num_lit 0) [host_input "Math.random" []]).
  - apply (reachable_ret 0 (OpRun 6 dice true) (VirtualMachine_new false));
      [apply reachable_new | reflexivity].
  - reflexivity.
  - reflexivity.
  - reflexivity.
Defined.

(** [10 / 0] in synchronous mode: [run] returns having emitted the error
    with the locus of the division. *)
Lemma runtime_error_propagation_witness :
  run 6 0 crash true (VirtualMachine_new false)
  = Ret () (set_events (events crash_stop ++ [EmitError crash_error]) crash_stop).
Proof.
  apply (proj1 (proj2 (proj2 (runtime_error_propagation 0)))
           6 crash (VirtualMachine_new false) crash_start crash_error crash_stop).
  - reflexivity.
  - reflexivity.
Defined.

(** Two runs that end without the machine suspended.  In synchronous
    mode the division by zero of [crash] is emitted as an [error] event
    and [suspended] is still false.  In asynchronous mode the TypeError of
    [sloppy] is dropped: [runSome] runs the program to its end, emits no
    [error] event and does not suspend. *)
Lemma errors_that_do_not_suspend :
  (∃ vm,
     run 6 0 crash true (VirtualMachine_new false) = Ret () vm ∧
     events vm = [ConsoleCall "reset" [VBool false]; EmitError crash_error] ∧
     suspended vm = false) ∧
  (∃ vm1 vm2,
     asynchronous started = true ∧
     instructions started !! pc started = Some (at_line 1 ASSIGN) ∧
     execute 0 ASSIGN (set_pc 1 started) = Throw (JsError TypeError) vm1 ∧
     runSome 0 started = Ret () vm2 ∧
     events vm2 = (events started ++ [ClearInterval (interval started)])%list ∧
     suspended vm2 = false).
Proof.
  split.
  - exists (set_events (events crash_stop ++ [EmitError crash_error]) crash_stop).
    split_and!; reflexivity.
  - exists (set_pc 1 started),
           (set_events (events started ++ [ClearInterval (interval started)])
              (set_pc 2 started)).
    split_and!; reflexivity.
Defined.

(** The TypeError of [sloppy] is dropped by [runOneInstruction]. *)
Lemma non_runtime_error_discarded_witness :
  let vm := loaded sloppy in
  runOneInstruction 0 vm = Ret () (set_pc 1 vm).
Proof.
  intros vm.
  exact (proj1 (non_runtime_error_discarded 0 vm (at_line 1 ASSIGN) TypeError
                  (set_pc 1 vm) eq_refl eq_refl)).
Defined.

(** [SPSET] suspends the machine, then fails to read its arguments with a
    TypeError, which [runOneInstruction] drops: the machine is left
    suspended, and the loop of [runSome] runs nothing more. *)
Lemma suspended_before_the_throw :
  let vm := loaded sprite in
  let vm1 := set_suspended true (set_pc 1 vm) in
  suspended vm = false ∧
  instructions vm !! pc vm = Some (at_line 1 (SYSCALL "SPSET")) ∧
  execute 0 (SYSCALL "SPSET") (set_pc 1 vm) = Throw (JsError TypeError) vm1 ∧
  runOneInstruction 0 vm = Ret () vm1 ∧
  suspended vm1 = true ∧
  ∀ n, runSome_loop 0 n vm1 = Ret () vm1.
Proof.
  intros vm vm1. split_and!; try reflexivity.
  intros [|n]; reflexivity.
Defined.

(** [10 / 0] raises DIVISION_BY_ZERO, without a locus. *)
Lemma runtime_errors_of_the_instructions_witness :
  error_of 0 OP_DIV (RuntimeError DIVISION_BY_ZERO "Division by zero" None) ∧
  (None : option Locus) = None ∧
  DIVISION_BY_ZERO ≠ STACK_OVERFLOW ∧ DIVISION_BY_ZERO ≠ IO_ERROR.
Proof.
  apply (runtime_errors_of_the_instructions 0 OP_DIV by_zero _ _ _
           (set_stack [num_lit 10] by_zero)).
  reflexivity.
Defined.

(** There is no system routine FOO. *)
Lemma unknown_syscall_is_trapped_witness :
  execute 0 (SYSCALL "FOO") blank
  = Throw (RuntimeError UKNOWN_SYSCALL "Unknown syscall: FOO" None) blank.
Proof.
  apply (unknown_syscall_is_trapped 0 "FOO" blank).
  - split_and!; [|reflexivity..].
    intros Hin. repeat (apply elem_of_cons in Hin as [Heq|Hin]; [discriminate Heq|]).
    by apply elem_of_nil in Hin.
  - intros Hin. repeat (apply elem_of_cons in Hin as [Heq|Hin]; [discriminate Heq|]).
    by apply elem_of_nil in Hin.
Defined.

(** [10 / 0] throws with the divisor popped and pc where it was. *)
Lemma throwing_instruction_keeps_pc_witness :
  pc (set_stack [num_lit 10] by_zero) = pc by_zero.
Proof.
  apply (throwing_instruction_keeps_pc 0 OP_DIV by_zero
           (RuntimeError DIVISION_BY_ZERO "Division by zero" None)).
  reflexivity.
Defined.

(** A tick that runs [sloppy] to its end leaves the program as loaded. *)
Lemma program_is_read_only_witness : same_program started ticked.
Proof. exact (program_is_read_only 0 OpRunSome I started). Defined.

(** READ is none of the five: it leaves the suspended flag alone. *)
Lemma only_five_routines_suspend_witness :
  preserves (same suspended) (execute 4 (SYSCALL "READ")).
Proof.
  apply (only_five_routines_suspend 4 (SYSCALL "READ")).
  intros name [= <-]. reflexivity.
Defined.

(** [RND(0)] after the run of [dice] changes the stack only. *)
Lemma system_functions_use_the_stack_only_witness :
  stack_and_queries_only rolled (set_stack [num_lit 0; host_input "Math.random" []] rolled).
Proof.
  exact (system_functions_use_the_stack_only 0 "RND" sys_RND eq_refl rolled).
Defined.

(** [10 / 0] executed on its own throws and emits nothing. *)
Lemma error_events_come_from_the_loops_witness :
  no_error_emitted by_zero (set_stack [num_lit 10] by_zero).
Proof.
  exact (error_events_come_from_the_loops 0 (OpExecute OP_DIV) eq_refl by_zero).
Defined.

(** The run of [crash] ends with the one ['error'] event. *)
Lemma synchronous_run_outcome_witness :
  ((length (instructions crash_end) ≤ pc crash_end)%nat ∧
   no_error_emitted (VirtualMachine_new false) crash_end) ∨
  (∃ vm1 e,
     crash_end = set_events (events vm1 ++ [EmitError e]) vm1 ∧
     no_error_emitted (VirtualMachine_new false) vm1 ∧ raised_by e vm1).
Proof.
  apply (synchronous_run_outcome 6 0 crash (VirtualMachine_new false)).
  reflexivity.
Defined.

(** The second use of [x%] finds the variable the first one made. *)
Lemma getVariable_idempotent_witness :
  getVariable "x%" with_x = Ret (VObj 0) with_x.
Proof.
  apply (getVariable_idempotent "x%" blank (VObj 0) with_x). reflexivity.
Defined.

(** A variable [x] bound in a subroutine called from the main program is
    not there after the return. *)
Lemma call_frame_is_private_witness :
  ∃ vm',
    (execute 0 (CALL 2);; setVariable "x" (num_lit 4);; execute 0 RET) with_sub
    = Ret () vm' ∧
    bound_in {| sf_pc := 3; sf_variables := 0 |} "x" vm' = None.
Proof.
  destruct (call_frame_is_private 0 2 "x" (num_lit 4) with_sub
              {| sf_pc := 3; sf_variables := 0 |} {| sf_pc := 3; sf_variables := 0 |}
              (ordinary_name "x" eq_refl) eq_refl eq_refl eq_refl)
    as (vm' & Hrun & _ & _ & _ & Hprivate & _).
  { intros f ->%list_elem_of_singleton. vm_compute. lia. }
  exists vm'. split; [done|].
  rewrite Hprivate; [reflexivity| |].
  - intros Hin. by apply elem_of_empty in Hin.
  - by apply list_elem_of_singleton.
Defined.

(** [x% = 7], then [x%] read back. *)
Lemma popval_pushvalue_witness :
  let vm := set_stack [num_lit 7] blank in
  let vm2 := set_heap [ScalarVariable (VType (ScalarType INTEGER)) (num_lit 7)]
               (set_stack [] with_x) in
  execute 0 (POPVAL "x%") vm = Ret () vm2 ∧
  execute 0 (PUSHVALUE "x%") vm2 = Ret () (set_stack [num_lit 7] vm2).
Proof.
  intros vm vm2.
  apply (popval_pushvalue 0 "x%" (num_lit 7) [] vm 0 (VType (ScalarType INTEGER))
           (num_lit 0) (set_stack [num_lit 7] with_x)); reflexivity.
Defined.

(** READ of three variables when the three data items have been read. *)
Lemma read_past_the_end_witness :
  ∃ vm',
    execute 4 (SYSCALL "READ") read_out = Ret () vm' ∧ dataPtr vm' = 6 ∧
    heap vm' !! 1 = Some (ScalarVariable (VType (ScalarType STRING)) VUndefined).
Proof.
  destruct (read_past_the_end 4 read_out (num_lit 3) 3 [0; 1; 2] [VStr "below"])
    as (vm' & Hrun & _ & Hptr & Hheap).
  - intros i Hi. do 4 (destruct i as [|i]; [reflexivity|]). lia.
  - reflexivity.
  - lia.
  - reflexivity.
  - intros a Ha. unfold scalar_at.
    repeat (apply elem_of_cons in Ha as [->|Ha]; [eauto|]). by apply elem_of_nil in Ha.
  - simpl. lia.
  - exists vm'. split_and!; [done|done|].
    apply (Hheap 1 STRING (VStr "old")); [|reflexivity].
    apply elem_of_cons. right. apply elem_of_cons. by left.
Defined.

(** [SPACE$(3)] *)
Lemma space_function_witness :
  execute 4 (SYSCALL "SPACE$") (set_stack [num_lit 3] blank)
  = Ret () (set_stack [VStr "   "] blank).
Proof.
  apply (space_function 4 (set_stack [num_lit 3] blank) (num_lit 3) 3 []).
  - intros i Hi. do 4 (destruct i as [|i]; [reflexivity|]). lia.
  - lia.
  - reflexivity.
Defined.

(** One index for an array of two dimensions. *)
Lemma array_deref_underflow_witness :
  execute 0 (ARRAY_DEREF (num_lit 1)) short_of_an_index
  = Throw (RuntimeError STACK_UNDERFLOW "Stack underflow" None)
      (set_stack [] short_of_an_index).
Proof.
  apply (array_deref_underflow 0 (num_lit 1) short_of_an_index 0
           (VType (ScalarType INTEGER))
           [(num_lit 0, num_lit 2); (num_lit 0, num_lit 2)] [] [num_lit 1]).
  - reflexivity.
  - reflexivity.
  - simpl. lia.
  - by apply Forall_singleton.
Defined.

(** SWAP of [x], which holds 0, and [z%], given the value 5. *)
Lemma swap_exchanges_witness :
  let vm := set_heap (<[2 := ScalarVariable (VType (ScalarType INTEGER)) (num_lit 5)]>
                        sample_heap) swapping in
  execute 0 (SYSCALL "SWAP") vm
  = Ret () (set_heap [ScalarVariable (VType (ScalarType SINGLE)) (num_lit 5);
                      ScalarVariable (VType (ScalarType STRING)) (VStr "old");
                      ScalarVariable (VType (ScalarType INTEGER)) (num_lit 0)]
              (set_stack [] vm)).
Proof.
  intros vm.
  assert (0 ≠ 2) as Hne by lia.
  exact (proj1 (swap_exchanges 0 vm 0 2 (VType (ScalarType SINGLE))
                  (VType (ScalarType INTEGER)) (num_lit 0) (num_lit 5) []
                  eq_refl eq_refl eq_refl Hne)).
Defined.

(** RET as the first instruction of a program. *)
Lemma ret_in_the_main_program_witness :
  execute 0 RET ret_first
  = Ret () (set_frame None (set_pc 2 (set_callstack [] ret_first))).
Proof.
  apply (ret_in_the_main_program 0 (program [RET; END] [] [])
           (VirtualMachine_new false) ret_first).
  reflexivity.
Defined.

(** [INPUT x, y$] answered with a line of text: [x] holds the text. *)
Lemma input_assigns_the_first_argument_witness :
  let vm1 := set_events (events asking ++ [ConsoleThen "input" [] (CbInput (VObj 0))])
               (set_suspended true (set_stack [] asking)) in
  execute 3 (SYSCALL "INPUT") asking = Ret () vm1 ∧
  host_callback 3 (CbInput (VObj 0)) (VStr "42") vm1
  = Ret () (set_suspended false
              (set_heap [ScalarVariable (VType (ScalarType SINGLE)) (VStr "42");
                         ScalarVariable (VType (ScalarType STRING)) (VStr "old");
                         ScalarVariable (VType (ScalarType INTEGER)) (num_lit 0)] vm1)).
Proof.
  intros vm1.
  destruct (input_assigns_the_first_argument 3 asking (num_lit 2) 2 0 [1] []
              (VType (ScalarType SINGLE)) (num_lit 0)) as [Hrun Hanswer].
  - intros i Hi. do 3 (destruct i as [|i]; [reflexivity|]). lia.
  - reflexivity.
  - lia.
  - reflexivity.
  - reflexivity.
  - reflexivity.
  - split; [exact Hrun|exact (Hanswer (VStr "42"))].
Defined.

(** The comma of PRINT with the cursor in the first column. *)
Lemma print_comma_pads_witness :
  execute 14 (SYSCALL "print_comma") blank
  = Ret () (set_events (events blank ++ [HostRead "cons.x";
                                          ConsoleCall "print" [VStr "             "]])
              blank).
Proof.
  apply (print_comma_pads 14 blank 0).
  - reflexivity.
  - intros j Hj. do 14 (destruct j as [|j]; [reflexivity|]). lia.
  - intros j Hj. do 15 (destruct j as [|j]; [first [reflexivity|lia]|]). lia.
  - lia.
Defined.

(** A text whose first token no stack top can shift: the list of expected
    symbols is reported twice. *)
Lemma parse_outcomes_witness :
  GlrParser.parse unit unit (λ _ _, Some stray) (λ _, false) (λ _ g, g) (λ _ g, g)
    (λ _, true) (λ g, g) (λ _, ["'PRINT'"]) (λ _, None) GlrParser.text String.length
    1 ()
  = Some (None, ["Syntax error at ?"; "Expected one of the following:"; "    'PRINT'";
                 "Expected one of the following:"; "    'PRINT'"]) ∧
  ["Syntax error at ?"; "Expected one of the following:"; "    'PRINT'";
   "Expected one of the following:"; "    'PRINT'"] ≠ [].
Proof.
  split; [reflexivity|].
  destruct (parse_outcomes (ast := unit) (λ _ _, Some stray) (λ _, false) (λ _ g, g)
              (λ _ g, g) (λ _, true) (λ g, g) (λ _, ["'PRINT'"]) (λ _, None)
              GlrParser.text String.length 1 () None _ eq_refl)
    as (g & first & _ & _ & Hne & _).
  by apply Hne.
Defined.

(** After the dice program has run. *)
Lemma frame_is_the_top_of_the_call_stack_witness :
  frame rolled = last (callstack rolled) ∧ (frame rolled = None ↔ callstack rolled = []).
Proof.
  apply frame_is_the_top_of_the_call_stack.
  apply (reachable_ret 0 (OpRun 6 dice true) (VirtualMachine_new false));
    [apply reachable_new | reflexivity].
Defined.

(** [1 < 2] holds: [BZ 7] falls through and [BNZ 7] jumps. *)
Lemma comparison_then_branch_witness :
  (execute 0 OP_LT;; execute 0 (BZ 7))
    (set_stack [num_lit 2; num_lit 1] (VirtualMachine_new false))
  = Ret () (VirtualMachine_new false) ∧
  (execute 0 OP_LT;; execute 0 (BNZ 7))
    (set_stack [num_lit 2; num_lit 1] (VirtualMachine_new false))
  = Ret () (set_pc 7 (VirtualMachine_new false)).
Proof.
  exact (comparison_then_branch 0
           (set_stack [num_lit 2; num_lit 1] (VirtualMachine_new false))
           (num_lit 2) (num_lit 1) [] 7 OP_LT true eq_refl eq_refl eq_refl
           (proj2 (elem_of_cons _ _ _) (or_intror (proj2 (elem_of_cons _ _ _) (or_intror
              (proj2 (elem_of_cons _ _ _) (or_introl eq_refl))))))).
Defined.

(** A string set for [x] in the empty program is read back. *)
Lemma setVariable_then_getVariable_witness :
  (setVariable "x" (VStr "a");; getVariable "x") blank
  = Ret (VStr "a") (set_varmaps [{["x" := VStr "a"]}] blank).
Proof.
  refine (proj1 (setVariable_then_getVariable "x" (VStr "a") blank
                   {| sf_pc := 0; sf_variables := 0 |} ∅ _ eq_refl eq_refl) eq_refl).
  discriminate.
Defined.

(** The first state of the grammar of sums holds its four rules at
    position 0, and none of them is complete. *)
Lemma closure_is_closed_witness :
  GlrParser.closed sums_rules start_state ∧ GlrParser.itemCount start_state = 4 ∧
  GlrParser.reductions start_state = [].
Proof.
  destruct (closure_is_closed sums_rules 6 GlrParser.GlrState_new r_start 0 start_state)
    as (Hclosed & _).
  - apply closed_new.
  - apply consistent_new.
  - reflexivity.
  - split; [exact Hclosed|]. split; reflexivity.
Defined.

(** Six nested calls are enough for the four rules of the grammar of
    sums. *)
Lemma closure_terminates_witness :
  ∃ state',
    GlrParser.addRuleToState sums_rules 6 GlrParser.GlrState_new r_start 0
    = Some (inl state').
Proof.
  apply (closure_terminates sums_rules sums).
  - intros symbol rs. unfold sums_rules.
    repeat (destruct (String.eqb symbol _);
            [intros [= <-]; intros r Hr; unfold sums;
             repeat (apply elem_of_cons in Hr as [->|Hr];
                     [repeat first [apply list_elem_of_here|apply list_elem_of_further]|]);
             by apply elem_of_nil in Hr|]).
    done.
  - intros r symbol Hr Hsymbol Hterminal.
    repeat (apply elem_of_cons in Hr as [->|Hr];
            [simpl in Hsymbol;
             repeat (apply elem_of_cons in Hsymbol as [->|Hsymbol];
                     [first [discriminate Hterminal|by eexists]|]);
             by apply elem_of_nil in Hsymbol|]).
    by apply elem_of_nil in Hr.
  - simpl. lia.
  - simpl. lia.
Defined.

End Examples.
